(** * The goroutine scheduler of [src/pkg/runtime/proc.c]

    A shallow embedding of the scheduler core: the packed atomic
    scheduling word, the run queue and the worker list, hand-off and
    matching, the system-call fast paths, stack-segment growth and the
    defer list.  Every definition follows the C function of the same name.

    Conventions.
    - C integers are [Z]; [uint32] and [int32] write out the wrap-around.
    - Pointers to [G] and [M] are keys of finite maps; [nil] is [None].
    - The intrusive lists threaded through [schedlink] ([ghead]/[gtail],
      [mhead], [gfree]) are Rocq lists, head first.  The code keeps a
      [G] on at most one of the run queue and the free list, and an [M]
      at most once on the list of idle workers; its list operations are
      those of the Rocq lists for an element that is on none of them
      ([Inv.unlinked], [Inv.unparked]).  Linking an element that is
      already linked would cut or loop the list of the code: the
      theorems that say what a list holds after [gput], [gfput] or
      [mput] assume it is not.
    - The code runs as one thread sees it: an atomic load reads the
      current word.  Interference by other threads is modelled where the
      code loops on [cas] (the [env] argument of the loops in [Atomic]). *)

From stdpp Require Import gmap strings list.
From Stdlib Require Import ZArith Lia.

Open Scope Z_scope.

(** ** Machine integers *)

Definition uint32 (z : Z) : Z := z mod 2 ^ 32.
Definition int32 (z : Z) : Z := (z + 2 ^ 31) mod 2 ^ 32 - 2 ^ 31.

Definition is_uint32 (z : Z) : Prop := 0 <= z < 2 ^ 32.
Definition is_int32 (z : Z) : Prop := - 2 ^ 31 <= z < 2 ^ 31.

(** ** What the platform fixes

    [stack.h], [runtime.h], the allocator and the build configuration are
    not part of [proc.c]: the code is read for any value of them. *)

Class Platform : Type := {
  StackGuard : Z;
  StackSystem : Z;
  StackMin : Z;
  StackExtra : Z;
  sizeof_Stktop : Z;
  sizeof_uintptr : Z;
  thechar_5 : bool;            (* [thechar == '5'], the ARM tool chain *)
  stackalloc : Z -> Z;         (* the address the stack allocator returns *)
  Windows : bool;
  iscgo : bool;
  libcgo_thread_start : bool   (* the pointer is not nil *)
}.

(** ** Saved contexts and segment headers

    Addresses are integers, [nil] is 0; a [G*] is the key of the goroutine. *)

Record Gobuf : Type := mkGobuf {
  gobuf_sp : Z;
  gobuf_pc : Z;
  gobuf_g : option nat
}.

Record Stktop : Type := mkStktop {
  top_stackbase : Z;
  top_stackguard : Z;
  top_gobuf : Gobuf;
  top_argp : Z;
  top_argsize : Z;
  top_free : Z;
  top_panic : bool
}.

(** A header as [runtime·memclr] leaves it. *)
Definition zeroStktop : Stktop := mkStktop 0 0 (mkGobuf 0 0 None) 0 0 0 false.

(** ** The atomic scheduling word *)

Module Atomic.

Definition mcpuWidth : Z := 15.
Definition mcpuMask : Z := Z.shiftl 1 mcpuWidth - 1.
Definition mcpuShift : Z := 0.
Definition mcpumaxShift : Z := mcpuShift + mcpuWidth.
Definition waitstopShift : Z := mcpumaxShift + mcpuWidth.
Definition gwaitingShift : Z := waitstopShift + 1.
Definition maxgomaxprocs : Z := mcpuMask - 10.

Definition atomic_mcpu (v : Z) : Z := Z.land (Z.shiftr v mcpuShift) mcpuMask.
Definition atomic_mcpumax (v : Z) : Z := Z.land (Z.shiftr v mcpumaxShift) mcpuMask.
Definition atomic_waitstop (v : Z) : Z := Z.land (Z.shiftr v waitstopShift) 1.
Definition atomic_gwaiting (v : Z) : Z := Z.land (Z.shiftr v gwaitingShift) 1.

(** [runtime·xadd(&w, delta)]: the new value of the word, which is also
    what the call returns. *)
Definition xadd (w delta : Z) : Z := uint32 (w + delta).

(** The body of the loop of [setmcpumax]: the word [w] computed from the
    loaded [v]; [n] is the [uint32] argument. *)
Definition setmcpumax_word (n v : Z) : Z :=
  let w := v in
  let w := Z.land w (Z.lnot (Z.shiftl mcpuMask mcpumaxShift)) in
  Z.lor w (uint32 (Z.shiftl n mcpumaxShift)).

(** [setmcpumax] and [canaddmcpu] loop on [runtime·cas].  [env] lists the
    words other threads store between this thread's load and its [cas],
    one per iteration; once it is exhausted nobody interferes and the
    [cas] succeeds.  The result is the final word. *)
Fixpoint setmcpumax_loop (n : Z) (env : list Z) (cur : Z) : Z :=
  let v := cur in
  let w := setmcpumax_word n v in
  match env with
  | [] => w
  | cur' :: env' => if cur' =? v then w else setmcpumax_loop n env' cur'
  end.

Fixpoint canaddmcpu_loop (env : list Z) (cur : Z) : bool * Z :=
  let v := cur in
  if atomic_mcpu v >=? atomic_mcpumax v then (false, cur)
  else
    match env with
    | [] => (true, uint32 (v + Z.shiftl 1 mcpuShift))
    | cur' :: env' =>
        if cur' =? v then (true, uint32 (v + Z.shiftl 1 mcpuShift))
        else canaddmcpu_loop env' cur'
    end.

(** The word from which [setmcpumax] computes the one it stores: the
    last one it loads. *)
Fixpoint setmcpumax_loaded (env : list Z) (cur : Z) : Z :=
  match env with
  | [] => cur
  | cur' :: env' => if cur' =? cur then cur else setmcpumax_loaded env' cur'
  end.

(** The word on which [canaddmcpu] decides: the last one it loads. *)
Fixpoint canaddmcpu_decision (env : list Z) (cur : Z) : Z :=
  if atomic_mcpu cur >=? atomic_mcpumax cur then cur
  else
    match env with
    | [] => cur
    | cur' :: env' => if cur' =? cur then cur else canaddmcpu_decision env' cur'
    end.

End Atomic.

(** ** Scheduler state *)

Module Sched.
Import Atomic.

Inductive Gstatus : Type :=
  Gidle | Grunnable | Grunning | Gsyscall | Gwaiting | Gmoribund | Gdead.

#[export] Instance Gstatus_eq_dec : EqDecision Gstatus.
Proof. solve_decision. Defined.

(** A goroutine.  [gm] is the field [m]; [spine] lists the segment headers
    reached from [stackbase] through [top->stackbase], innermost last;
    [sched_sp] is [sched.sp].  Addresses are integers, [nil] is 0. *)
Record G : Type := mkG {
  status : Gstatus;
  gm : option nat;
  lockedm : option nat;
  idlem : option nat;
  readyonstop : bool;
  stackbase : Z;
  stackguard : Z;
  stack0 : Z;
  spine : list Stktop;
  sched_sp : Z;
  gcsp : Z;
  gcstack : Z;
  gcguard : Z
}.

Definition set_status (v : Gstatus) (x : G) : G :=
  mkG v (gm x) (lockedm x) (idlem x) (readyonstop x) (stackbase x) (stackguard
    x) (stack0 x) (spine x) (sched_sp x) (gcsp x) (gcstack x) (gcguard x).
Definition set_gm (v : option nat) (x : G) : G :=
  mkG (status x) v (lockedm x) (idlem x) (readyonstop x) (stackbase x)
    (stackguard x) (stack0 x) (spine x) (sched_sp x) (gcsp x) (gcstack x)
    (gcguard x).
Definition set_lockedm (v : option nat) (x : G) : G :=
  mkG (status x) (gm x) v (idlem x) (readyonstop x) (stackbase x) (stackguard
    x) (stack0 x) (spine x) (sched_sp x) (gcsp x) (gcstack x) (gcguard x).
Definition set_idlem (v : option nat) (x : G) : G :=
  mkG (status x) (gm x) (lockedm x) v (readyonstop x) (stackbase x)
    (stackguard x) (stack0 x) (spine x) (sched_sp x) (gcsp x) (gcstack x)
    (gcguard x).
Definition set_readyonstop (v : bool) (x : G) : G :=
  mkG (status x) (gm x) (lockedm x) (idlem x) v (stackbase x) (stackguard x)
    (stack0 x) (spine x) (sched_sp x) (gcsp x) (gcstack x) (gcguard x).
Definition set_stackbase (v : Z) (x : G) : G :=
  mkG (status x) (gm x) (lockedm x) (idlem x) (readyonstop x) v (stackguard x)
    (stack0 x) (spine x) (sched_sp x) (gcsp x) (gcstack x) (gcguard x).
Definition set_stackguard (v : Z) (x : G) : G :=
  mkG (status x) (gm x) (lockedm x) (idlem x) (readyonstop x) (stackbase x) v
    (stack0 x) (spine x) (sched_sp x) (gcsp x) (gcstack x) (gcguard x).
Definition set_stack0 (v : Z) (x : G) : G :=
  mkG (status x) (gm x) (lockedm x) (idlem x) (readyonstop x) (stackbase x)
    (stackguard x) v (spine x) (sched_sp x) (gcsp x) (gcstack x) (gcguard x).
Definition set_spine (v : list Stktop) (x : G) : G :=
  mkG (status x) (gm x) (lockedm x) (idlem x) (readyonstop x) (stackbase x)
    (stackguard x) (stack0 x) v (sched_sp x) (gcsp x) (gcstack x) (gcguard x).
Definition set_sched_sp (v : Z) (x : G) : G :=
  mkG (status x) (gm x) (lockedm x) (idlem x) (readyonstop x) (stackbase x)
    (stackguard x) (stack0 x) (spine x) v (gcsp x) (gcstack x) (gcguard x).
Definition set_gcsp (v : Z) (x : G) : G :=
  mkG (status x) (gm x) (lockedm x) (idlem x) (readyonstop x) (stackbase x)
    (stackguard x) (stack0 x) (spine x) (sched_sp x) v (gcstack x) (gcguard
    x).
Definition set_gcstack (v : Z) (x : G) : G :=
  mkG (status x) (gm x) (lockedm x) (idlem x) (readyonstop x) (stackbase x)
    (stackguard x) (stack0 x) (spine x) (sched_sp x) (gcsp x) v (gcguard x).
Definition set_gcguard (v : Z) (x : G) : G :=
  mkG (status x) (gm x) (lockedm x) (idlem x) (readyonstop x) (stackbase x)
    (stackguard x) (stack0 x) (spine x) (sched_sp x) (gcsp x) (gcstack x) v.

(** A worker thread.  [m_id] and [m_profilehz] are the fields [id] and
    [profilehz]. *)
Record M : Type := mkM {
  m_id : Z;
  g0 : option nat;
  curg : option nat;
  nextg : option nat;
  waitnextg : bool;
  idleg : option nat;
  lockedg : option nat;
  m_profilehz : Z;
  mallocing : Z;
  gcing : Z;
  locks : Z;
  nomemprof : Z
}.

Definition set_m_id (v : Z) (x : M) : M :=
  mkM v (g0 x) (curg x) (nextg x) (waitnextg x) (idleg x) (lockedg x)
    (m_profilehz x) (mallocing x) (gcing x) (locks x) (nomemprof x).
Definition set_g0 (v : option nat) (x : M) : M :=
  mkM (m_id x) v (curg x) (nextg x) (waitnextg x) (idleg x) (lockedg x)
    (m_profilehz x) (mallocing x) (gcing x) (locks x) (nomemprof x).
Definition set_curg (v : option nat) (x : M) : M :=
  mkM (m_id x) (g0 x) v (nextg x) (waitnextg x) (idleg x) (lockedg x)
    (m_profilehz x) (mallocing x) (gcing x) (locks x) (nomemprof x).
Definition set_nextg (v : option nat) (x : M) : M :=
  mkM (m_id x) (g0 x) (curg x) v (waitnextg x) (idleg x) (lockedg x)
    (m_profilehz x) (mallocing x) (gcing x) (locks x) (nomemprof x).
Definition set_waitnextg (v : bool) (x : M) : M :=
  mkM (m_id x) (g0 x) (curg x) (nextg x) v (idleg x) (lockedg x) (m_profilehz
    x) (mallocing x) (gcing x) (locks x) (nomemprof x).
Definition set_idleg (v : option nat) (x : M) : M :=
  mkM (m_id x) (g0 x) (curg x) (nextg x) (waitnextg x) v (lockedg x)
    (m_profilehz x) (mallocing x) (gcing x) (locks x) (nomemprof x).
Definition set_lockedg (v : option nat) (x : M) : M :=
  mkM (m_id x) (g0 x) (curg x) (nextg x) (waitnextg x) (idleg x) v
    (m_profilehz x) (mallocing x) (gcing x) (locks x) (nomemprof x).
Definition set_m_profilehz (v : Z) (x : M) : M :=
  mkM (m_id x) (g0 x) (curg x) (nextg x) (waitnextg x) (idleg x) (lockedg x) v
    (mallocing x) (gcing x) (locks x) (nomemprof x).
Definition set_nomemprof (v : Z) (x : M) : M :=
  mkM (m_id x) (g0 x) (curg x) (nextg x) (waitnextg x) (idleg x) (lockedg x)
    (m_profilehz x) (mallocing x) (gcing x) (locks x) v.

(** The two kinds of note, and what the platform layer is asked to do. *)
Inductive Note : Type :=
| havenextg (m : nat)
| stopped.

Inductive Event : Type :=
| lock_sched
| unlock_sched
| notewakeup (n : Note)
| noteclear (n : Note)
| notesleep (n : Note)
| newosproc (m : nat)
| cgo_thread_start (m : nat)
| stackfree (stk size : Z)
| resetcpuprofiler (hz : Z).

#[export] Instance Note_eq_dec : EqDecision Note.
Proof. solve_decision. Defined.
#[export] Instance Event_eq_dec : EqDecision Event.
Proof. solve_decision. Defined.

(** [struct Sched] (fields [gfree] to [profilehz]) and the globals
    [mwakeup], [runtime·gomaxprocs], [runtime·singleproc] and
    [runtime·gcwaiting]; [gs] and [ms] are the heap; [trace] records the
    calls into the platform layer, oldest first. *)
Record State : Type := mkState {
  gs : gmap nat G;
  ms : gmap nat M;
  gfree : list nat;
  goidgen : Z;
  ghead : list nat;
  gwait : Z;
  gcount : Z;
  grunning : Z;
  mhead : list nat;
  mwait : Z;
  mcount : Z;
  atomic : Z;
  predawn : Z;
  profilehz : Z;
  mwakeup : option nat;
  gomaxprocs : Z;
  singleproc : bool;
  gcwaiting : Z;
  trace : list Event
}.

Definition set_gs (v : gmap nat G) (x : State) : State :=
  mkState v (ms x) (gfree x) (goidgen x) (ghead x) (gwait x) (gcount x)
    (grunning x) (mhead x) (mwait x) (mcount x) (atomic x) (predawn x)
    (profilehz x) (mwakeup x) (gomaxprocs x) (singleproc x) (gcwaiting x)
    (trace x).
Definition set_ms (v : gmap nat M) (x : State) : State :=
  mkState (gs x) v (gfree x) (goidgen x) (ghead x) (gwait x) (gcount x)
    (grunning x) (mhead x) (mwait x) (mcount x) (atomic x) (predawn x)
    (profilehz x) (mwakeup x) (gomaxprocs x) (singleproc x) (gcwaiting x)
    (trace x).
Definition set_gfree (v : list nat) (x : State) : State :=
  mkState (gs x) (ms x) v (goidgen x) (ghead x) (gwait x) (gcount x) (grunning
    x) (mhead x) (mwait x) (mcount x) (atomic x) (predawn x) (profilehz x)
    (mwakeup x) (gomaxprocs x) (singleproc x) (gcwaiting x) (trace x).
Definition set_ghead (v : list nat) (x : State) : State :=
  mkState (gs x) (ms x) (gfree x) (goidgen x) v (gwait x) (gcount x) (grunning
    x) (mhead x) (mwait x) (mcount x) (atomic x) (predawn x) (profilehz x)
    (mwakeup x) (gomaxprocs x) (singleproc x) (gcwaiting x) (trace x).
Definition set_gwait (v : Z) (x : State) : State :=
  mkState (gs x) (ms x) (gfree x) (goidgen x) (ghead x) v (gcount x) (grunning
    x) (mhead x) (mwait x) (mcount x) (atomic x) (predawn x) (profilehz x)
    (mwakeup x) (gomaxprocs x) (singleproc x) (gcwaiting x) (trace x).
Definition set_gcount (v : Z) (x : State) : State :=
  mkState (gs x) (ms x) (gfree x) (goidgen x) (ghead x) (gwait x) v (grunning
    x) (mhead x) (mwait x) (mcount x) (atomic x) (predawn x) (profilehz x)
    (mwakeup x) (gomaxprocs x) (singleproc x) (gcwaiting x) (trace x).
Definition set_grunning (v : Z) (x : State) : State :=
  mkState (gs x) (ms x) (gfree x) (goidgen x) (ghead x) (gwait x) (gcount x) v
    (mhead x) (mwait x) (mcount x) (atomic x) (predawn x) (profilehz x)
    (mwakeup x) (gomaxprocs x) (singleproc x) (gcwaiting x) (trace x).
Definition set_mhead (v : list nat) (x : State) : State :=
  mkState (gs x) (ms x) (gfree x) (goidgen x) (ghead x) (gwait x) (gcount x)
    (grunning x) v (mwait x) (mcount x) (atomic x) (predawn x) (profilehz x)
    (mwakeup x) (gomaxprocs x) (singleproc x) (gcwaiting x) (trace x).
Definition set_mwait (v : Z) (x : State) : State :=
  mkState (gs x) (ms x) (gfree x) (goidgen x) (ghead x) (gwait x) (gcount x)
    (grunning x) (mhead x) v (mcount x) (atomic x) (predawn x) (profilehz x)
    (mwakeup x) (gomaxprocs x) (singleproc x) (gcwaiting x) (trace x).
Definition set_mcount (v : Z) (x : State) : State :=
  mkState (gs x) (ms x) (gfree x) (goidgen x) (ghead x) (gwait x) (gcount x)
    (grunning x) (mhead x) (mwait x) v (atomic x) (predawn x) (profilehz x)
    (mwakeup x) (gomaxprocs x) (singleproc x) (gcwaiting x) (trace x).
Definition set_atomic (v : Z) (x : State) : State :=
  mkState (gs x) (ms x) (gfree x) (goidgen x) (ghead x) (gwait x) (gcount x)
    (grunning x) (mhead x) (mwait x) (mcount x) v (predawn x) (profilehz x)
    (mwakeup x) (gomaxprocs x) (singleproc x) (gcwaiting x) (trace x).
Definition set_predawn (v : Z) (x : State) : State :=
  mkState (gs x) (ms x) (gfree x) (goidgen x) (ghead x) (gwait x) (gcount x)
    (grunning x) (mhead x) (mwait x) (mcount x) (atomic x) v (profilehz x)
    (mwakeup x) (gomaxprocs x) (singleproc x) (gcwaiting x) (trace x).
Definition set_mwakeup (v : option nat) (x : State) : State :=
  mkState (gs x) (ms x) (gfree x) (goidgen x) (ghead x) (gwait x) (gcount x)
    (grunning x) (mhead x) (mwait x) (mcount x) (atomic x) (predawn x)
    (profilehz x) v (gomaxprocs x) (singleproc x) (gcwaiting x) (trace x).
Definition set_gomaxprocs (v : Z) (x : State) : State :=
  mkState (gs x) (ms x) (gfree x) (goidgen x) (ghead x) (gwait x) (gcount x)
    (grunning x) (mhead x) (mwait x) (mcount x) (atomic x) (predawn x)
    (profilehz x) (mwakeup x) v (singleproc x) (gcwaiting x) (trace x).
Definition set_singleproc (v : bool) (x : State) : State :=
  mkState (gs x) (ms x) (gfree x) (goidgen x) (ghead x) (gwait x) (gcount x)
    (grunning x) (mhead x) (mwait x) (mcount x) (atomic x) (predawn x)
    (profilehz x) (mwakeup x) (gomaxprocs x) v (gcwaiting x) (trace x).
Definition set_gcwaiting (v : Z) (x : State) : State :=
  mkState (gs x) (ms x) (gfree x) (goidgen x) (ghead x) (gwait x) (gcount x)
    (grunning x) (mhead x) (mwait x) (mcount x) (atomic x) (predawn x)
    (profilehz x) (mwakeup x) (gomaxprocs x) (singleproc x) v (trace x).
Definition set_trace (v : list Event) (x : State) : State :=
  mkState (gs x) (ms x) (gfree x) (goidgen x) (ghead x) (gwait x) (gcount x)
    (grunning x) (mhead x) (mwait x) (mcount x) (atomic x) (predawn x)
    (profilehz x) (mwakeup x) (gomaxprocs x) (singleproc x) (gcwaiting x) v.

Definition emit_event (e : Event) (s : State) : State :=
  set_trace (trace s ++ [e]) s.

(** ** Outcomes

    A call returns ([Ok]), dies in [runtime·throw] or [runtime·exit],
    dereferences a pointer that names no object ([Fault]), or leaves its
    stack: [Gogo gp s resume] when the worker switches to goroutine [gp]
    ([resume] is what the caller goes on to do once it is scheduled
    again), [Park s wake] when the worker sleeps on its own [havenextg]
    note ([wake] is what it goes on to do once the note is signalled).
    [Diverge] is a loop that ran out of fuel. *)
Inductive result (A : Type) : Type :=
| Ok (a : A) (s : State)
| Throw (msg : string) (s : State)
| Exit (code : Z) (s : State)
| Fault (s : State)
| Gogo (gp : nat) (s : State) (resume : State -> result A)
| Park (s : State) (wake : State -> result A)
| Diverge.

Arguments Ok {A} a s.
Arguments Throw {A} msg s.
Arguments Exit {A} code s.
Arguments Fault {A} s.
Arguments Gogo {A} gp s resume.
Arguments Park {A} s wake.
Arguments Diverge {A}.

Fixpoint bind {A B : Type} (r : result A) (f : A -> State -> result B)
  : result B :=
  match r with
  | Ok a s => f a s
  | Throw msg s => Throw msg s
  | Exit code s => Exit code s
  | Fault s => Fault s
  | Gogo gp s k => Gogo gp s (fun s' => bind (k s') f)
  | Park s k => Park s (fun s' => bind (k s') f)
  | Diverge => Diverge
  end.

Definition Sch (A : Type) : Type := State -> result A.

#[export] Instance Sch_ret : MRet Sch := fun A a s => Ok a s.
#[export] Instance Sch_bind : MBind Sch := fun A B f c s => bind (c s) f.

Definition get : Sch State := fun s => Ok s s.
Definition modify (f : State -> State) : Sch unit := fun s => Ok tt (f s).
Definition throw {A : Type} (msg : string) : Sch A := fun s => Throw msg s.
Definition emit (e : Event) : Sch unit := modify (emit_event e).
Definition when (b : bool) (c : Sch unit) : Sch unit :=
  if b then c else mret tt.

Definition readG (g : nat) : Sch G := fun s =>
  match gs s !! g with Some x => Ok x s | None => Fault s end.
Definition readM (m : nat) : Sch M := fun s =>
  match ms s !! m with Some x => Ok x s | None => Fault s end.
Definition modifyG (g : nat) (f : G -> G) : Sch unit := fun s =>
  match gs s !! g with
  | Some x => Ok tt (set_gs (<[g := f x]> (gs s)) s)
  | None => Fault s
  end.
Definition modifyM (m : nat) (f : M -> M) : Sch unit := fun s =>
  match ms s !! m with
  | Some x => Ok tt (set_ms (<[m := f x]> (ms s)) s)
  | None => Fault s
  end.

Definition nonzero (z : Z) : bool := negb (z =? 0).
Definition is_nil {A : Type} (p : option A) : bool :=
  match p with None => true | Some _ => false end.

(** ** Atomic operations on [runtime·sched.atomic] *)

Definition atomicload : Sch Z := fun s => Ok (atomic s) s.

Definition xadd_atomic (delta : Z) : Sch Z := fun s =>
  let v := xadd (atomic s) delta in Ok v (set_atomic v s).

Definition setmcpumax (n : Z) : Sch unit :=
  modify (fun s => set_atomic (setmcpumax_loop (uint32 n) [] (atomic s)) s).

Definition canaddmcpu : Sch bool := fun s =>
  let '(b, w) := canaddmcpu_loop [] (atomic s) in Ok b (set_atomic w s).

Section Code.
Context `{Platform}.

(** ** Lock, unlock and the deferred wake-up *)

Definition schedlock : Sch unit := emit lock_sched.

Definition schedunlock : Sch unit :=
  s ← get;
  let m := mwakeup s in
  modify (set_mwakeup None);;
  emit unlock_sched;;
  match m with
  | Some m => emit (notewakeup (havenextg m))
  | None => mret tt
  end.

(** ** Hand-off *)

Definition mnextg (m g : nat) : Sch unit :=
  modify (fun s => set_grunning (int32 (grunning s + 1)) s);;
  modifyM m (set_nextg (Some g));;
  mr ← readM m;
  if waitnextg mr then
    modifyM m (set_waitnextg false);;
    s ← get;
    match mwakeup s with
    | Some w => emit (notewakeup (havenextg w))
    | None => mret tt
    end;;
    modify (set_mwakeup (Some m))
  else mret tt.

(** ** The run queue *)

(** The last branch of [gput]: append to the queue, count, and set the
    [gwaiting] bit when the count leaves zero.  The code links [g]
    behind [gtail] through [g->schedlink]; that is the append for a [g]
    that is on no list ([Inv.unlinked]). *)
Definition gput_fifo (g : nat) : Sch unit :=
  modify (fun s => set_ghead (ghead s ++ [g]) s);;
  s ← get;
  modify (set_gwait (int32 (gwait s + 1)));;
  if gwait s =? 0 then
    _ ← xadd_atomic (Z.shiftl 1 gwaitingShift); mret tt
  else mret tt.

Definition gput_idle (g im : nat) : Sch unit :=
  imr ← readM im;
  match idleg imr with
  | Some _ => throw "runtime: double idle"
  | None => modifyM im (set_idleg (Some g))
  end.

Definition gput (g : nat) : Sch unit :=
  gr ← readG g;
  wired ← match lockedm gr with
          | Some _ => canaddmcpu
          | None => mret false
          end;
  match lockedm gr, wired with
  | Some m, true => mnextg m g
  | _, _ =>
      match idlem gr with
      | Some im => gput_idle g im
      | None => gput_fifo g
      end
  end.

Definition haveg (me : nat) : Sch bool :=
  s ← get;
  match ghead s with
  | _ :: _ => mret true
  | [] => mr ← readM me; mret (negb (is_nil (idleg mr)))
  end.

Definition gget (me : nat) : Sch (option nat) :=
  s ← get;
  match ghead s with
  | g :: rest =>
      modify (set_ghead rest);;
      let n := int32 (gwait s - 1) in
      modify (set_gwait n);;
      (if n =? 0 then
         _ ← xadd_atomic (Z.shiftl (-1) gwaitingShift); mret tt
       else mret tt);;
      mret (Some g)
  | [] =>
      mr ← readM me;
      match idleg mr with
      | Some g => modifyM me (set_idleg None);; mret (Some g)
      | None => mret None
      end
  end.

(** ** The list of idle workers *)

(** [m->schedlink = mhead; mhead = m]: the push for an [m] that is not
    on the list ([Inv.unparked]). *)
Definition mput (m : nat) : Sch unit :=
  modify (fun s => set_mwait (int32 (mwait s + 1)) (set_mhead (m :: mhead s) s)).

Definition mget (g : nat) : Sch (option nat) :=
  gr ← readG g;
  match lockedm gr with
  | Some m => mret (Some m)
  | None =>
      s ← get;
      match mhead s with
      | m :: rest =>
          modify (fun s => set_mwait (int32 (mwait s - 1)) (set_mhead rest s));;
          mret (Some m)
      | [] => mret None
      end
  end.

(** ** New workers *)

Definition zeroG : G := mkG Gidle None None None false 0 0 0 [] 0 0 0 0.
Definition zeroM : M := mkM 0 None None None false None None 0 0 0 0 0.

Definition malg (stacksize : Z) : G :=
  if 0 <=? stacksize then
    let stk := stackalloc (StackSystem + stacksize) in
    set_spine [zeroStktop]
      (set_stackbase (stk + StackSystem + stacksize - sizeof_Stktop)
         (set_stackguard (stk + StackGuard) (set_stack0 stk zeroG)))
  else zeroG.

(** [alllink], [fastrand] and the allocator handle are not modelled. *)
Definition mcommoninit (m : nat) : Sch unit :=
  s ← get;
  modifyM m (set_m_id (mcount s));;
  modify (set_mcount (int32 (mcount s + 1))).

(** The branch of [matchmg] that finds no parked worker: a fresh [M], its
    bootstrap goroutine, and a thread to run it, started by
    [runtime·asmcgocall(libcgo_thread_start, &ts)] under cgo and by
    [runtime·newosproc] otherwise. *)
Definition newm : Sch nat :=
  s ← get;
  let m := fresh (dom (ms s)) in
  modify (set_ms (<[m := zeroM]> (ms s)));;
  mcommoninit m;;
  (if iscgo && negb libcgo_thread_start
   then throw "libcgo_thread_start missing" else mret tt);;
  s ← get;
  let g := fresh (dom (gs s)) in
  modify (set_gs (<[g := malg (if iscgo || Windows then -1 else 8192)]> (gs s)));;
  modifyM m (set_g0 (Some g));;
  (if iscgo then emit (cgo_thread_start m) else emit (newosproc m));;
  mret m.

(** ** Matching *)

Fixpoint matchmg_loop (fuel : nat) (me : nat) : Sch unit :=
  match fuel with
  | O => fun _ => Diverge
  | S fuel =>
      h ← haveg me;
      if negb h then mret tt else
      c ← canaddmcpu;
      if negb c then mret tt else
      og ← gget me;
      match og with
      | None => throw "gget inconsistency"
      | Some g =>
          om ← mget g;
          m ← match om with Some m => mret m | None => newm end;
          mnextg m g;;
          matchmg_loop fuel me
      end
  end.

(** Every turn of the loop adds one to [mcpu], which stays below
    [mcpumax]: the distance between the two bounds the turns. *)
Definition loop_fuel (s : State) : nat :=
  S (Z.to_nat (atomic_mcpumax (atomic s) - atomic_mcpu (atomic s))).

Definition matchmg (me : nat) : Sch unit :=
  mr ← readM me;
  if nonzero (mallocing mr) || nonzero (gcing mr) then mret tt
  else s ← get; matchmg_loop (loop_fuel s) me.

Definition readylocked (me g : nat) : Sch unit :=
  gr ← readG g;
  if negb (is_nil (gm gr)) then modifyG g (set_readyonstop true)
  else if bool_decide (status gr = Grunnable ∨ status gr = Grunning)
  then throw "bad g->status in ready"
  else
    modifyG g (set_status Grunnable);;
    gput g;;
    s ← get;
    when (negb (nonzero (predawn s))) (matchmg me).

Definition ready (me g : nat) : Sch unit :=
  schedlock;; readylocked me g;; schedunlock.

Definition initdone (me : nat) : Sch unit :=
  modify (set_predawn 0);;
  schedlock;; matchmg me;; schedunlock.

Definition starttheworld (me : nat) : Sch unit :=
  schedlock;;
  modify (set_gcwaiting 0);;
  s ← get;
  setmcpumax (gomaxprocs s);;
  matchmg me;;
  schedunlock.

(** ** Parking *)

(** The loop over the global queue in [nextgandunlock]: [Some gp] when it
    returns [gp] from inside the loop, [None] when the loop ends. *)
Fixpoint nextg_loop (fuel : nat) (me : nat) : Sch (option nat) :=
  match fuel with
  | O => fun _ => Diverge
  | S fuel =>
      h ← haveg me;
      if negb h then mret None else
      c ← canaddmcpu;
      if negb c then mret None else
      og ← gget me;
      match og with
      | None => throw "gget inconsistency"
      | Some gp =>
          gr ← readG gp;
          match lockedm gr with
          | Some lm => mnextg lm gp;; nextg_loop fuel me
          | None =>
              modify (fun s => set_grunning (int32 (grunning s + 1)) s);;
              schedunlock;;
              mret (Some gp)
          end
      end
  end.

Definition take_nextg (me : nat) : Sch (option nat) :=
  mr ← readM me;
  match nextg mr with
  | Some gp => modifyM me (set_nextg None);; schedunlock;; mret (Some gp)
  | None => mret None
  end.

Definition sleep_havenextg (me : nat) : Sch unit := fun s =>
  Park (emit_event (notesleep (havenextg me)) s) (fun s' => Ok tt s').

Definition stop_quorum (v : Z) : bool :=
  nonzero (atomic_waitstop v) && (atomic_mcpu v <=? atomic_mcpumax v).

Definition wake_stopped : Sch unit :=
  _ ← xadd_atomic (Z.shiftl (-1) waitstopShift);
  emit (notewakeup stopped).

(** [if(atomic_waitstop(v) && atomic_mcpu(v) <= atomic_mcpumax(v))],
    in [nextgandunlock] and in [entersyscall]. *)
Definition quorum_wake (v : Z) : Sch unit :=
  when (stop_quorum v) wake_stopped.

(** The search of [nextgandunlock] once [m->nextg] was found empty:
    [Some gp] when the function returns [gp], the lock released; [None]
    when the worker has to sleep (it is on the list of idle workers,
    unless it is wired). *)
Definition find_work (me : nat) : Sch (option nat) :=
  mr ← readM me;
  match lockedg mr with
  | Some _ =>
      s ← get;
      if nonzero (gwait s) then matchmg me;; take_nextg me
      else mret None
  | None =>
      s ← get;
      r ← nextg_loop (loop_fuel s) me;
      match r with
      | Some gp => mret (Some gp)
      | None => mput me;; mret None
      end
  end.

(** The end of [nextgandunlock]: sleep until a goroutine is handed over. *)
Definition park (me : nat) : Sch nat :=
  v ← atomicload;
  s ← get;
  if grunning s =? 0
  then throw "all goroutines are asleep - deadlock!" else
  modifyM me (set_nextg None);;
  modifyM me (set_waitnextg true);;
  emit (noteclear (havenextg me));;
  quorum_wake v;;
  schedunlock;;
  sleep_havenextg me;;
  mr ← readM me;
  match nextg mr with
  | None => throw "bad m->nextg in nextgoroutine"
  | Some gp => modifyM me (set_nextg None);; mret gp
  end.

Definition nextgandunlock (me : nat) : Sch nat :=
  s ← get;
  if atomic_mcpu (atomic s) >=? maxgomaxprocs then throw "negative mcpu" else
  r ← take_nextg me;
  match r with
  | Some gp => mret gp
  | None =>
      r ← find_work me;
      match r with
      | Some gp => mret gp
      | None => park me
      end
  end.

(** ** Retiring stack segments *)

Fixpoint unwind_segments (sp base guard : Z) (sp_ine : list Stktop)
  : Z * Z * list Stktop * list Event :=
  match sp_ine with
  | [] => (base, guard, [], [])
  | top :: rest =>
      if (base =? 0) || (top_stackbase top =? 0) then (base, guard, sp_ine, [])
      else
        let stk := guard - StackGuard in
        if (stk <=? sp) && (sp <? base) then (base, guard, sp_ine, [])
        else
          let '(b, g, r, ev) :=
            unwind_segments sp (top_stackbase top) (top_stackguard top) rest in
          (b, g, r,
           (if top_free top =? 0 then [] else [stackfree stk (top_free top)])
             ++ ev)
  end.

(** [g] is the goroutine the caller runs on. *)
Definition unwindstack (g : option nat) (gp : nat) (sp : Z) : Sch unit :=
  if bool_decide (g = Some gp) then throw "unwindstack on self" else
  gr ← readG gp;
  let '(b, gd, r, ev) :=
    unwind_segments sp (stackbase gr) (stackguard gr) (spine gr) in
  modifyG gp (fun x => set_spine r (set_stackguard gd (set_stackbase b x)));;
  modify (fun s => set_trace (trace s ++ ev) s);;
  if nonzero sp && ((sp <? gd - StackGuard) || (b <? sp))
  then throw "bad unwindstack" else mret tt.

(** [g->schedlink = gfree; gfree = g]: the push for a [g] that is on no
    list ([Inv.unlinked]); the run queue uses the same link. *)
Definition gfput (g : nat) : Sch unit :=
  gr ← readG g;
  if negb (stackguard gr - StackGuard =? stack0 gr)
  then throw "invalid stack in gfput"
  else modify (fun s => set_gfree (g :: gfree s) s).

Definition gfget : Sch (option nat) :=
  s ← get;
  match gfree s with
  | g :: rest => modify (set_gfree rest);; mret (Some g)
  | [] => mret None
  end.

(** ** One round of the scheduler *)

Definition exit_process (code : Z) : Sch unit := fun s => Exit code s.

(** The [switch] on [gp->status] in [schedule]. *)
Definition schedule_status (me gp : nat) : Sch unit :=
  gr ← readG gp;
  match status gr with
  | Grunnable | Gdead => throw "bad gp->status in sched"
  | Grunning => modifyG gp (set_status Grunnable);; gput gp
  | Gmoribund =>
      modifyG gp (set_status Gdead);;
      (if negb (is_nil (lockedm gr)) then
         modifyG gp (set_lockedm None);; modifyM me (set_lockedg None)
       else mret tt);;
      modifyG gp (set_idlem None);;
      mr ← readM me;
      unwindstack (g0 mr) gp 0;;
      gfput gp;;
      s ← get;
      let n := int32 (gcount s - 1) in
      modify (set_gcount n);;
      when (n =? 0) (exit_process 0)
  | Gidle | Gsyscall | Gwaiting => mret tt
  end.

(** The end of that block: [if(gp->readyonstop)]. *)
Definition schedule_ready (me gp : nat) : Sch unit :=
  gr ← readG gp;
  when (readyonstop gr)
    (modifyG gp (set_readyonstop false);; readylocked me gp).

(** The block of [schedule] under [if(gp != nil)]. *)
Definition schedule_prev (me gp : nat) : Sch unit :=
  s ← get;
  if nonzero (predawn s) then throw "init rescheduling" else
  modifyG gp (set_gm None);;
  modify (fun s => set_grunning (int32 (grunning s - 1)) s);;
  v ← xadd_atomic (Z.shiftl (-1) mcpuShift);
  if atomic_mcpu v >? maxgomaxprocs
  then throw "negative mcpu in scheduler" else
  schedule_status me gp;;
  schedule_ready me gp.

(** [runtime·gogo] and [runtime·gogocall]: the worker leaves for [gp]. *)
Definition gogo (gp : nat) : Sch unit := fun s =>
  Gogo gp s (fun s' => Ok tt s').

(** The rest of [schedule]: find a goroutine and run it. *)
Definition schedule_dispatch (me : nat) : Sch unit :=
  gp ← nextgandunlock me;
  modifyG gp (set_readyonstop false);;
  modifyG gp (set_status Grunning);;
  modifyM me (set_curg (Some gp));;
  modifyG gp (set_gm (Some me));;
  s ← get;
  mr ← readM me;
  (if negb (m_profilehz mr =? profilehz s)
   then emit (resetcpuprofiler (profilehz s)) else mret tt);;
  gogo gp.

Definition schedule (me : nat) (gp : option nat) : Sch unit :=
  schedlock;;
  match gp with
  | Some gp => schedule_prev me gp
  | None => mret tt
  end;;
  schedule_dispatch me.

(** [runtime·mcall(schedule)] runs [schedule(g)] on the bootstrap stack. *)
Definition gosched (me g : nat) : Sch unit :=
  mr ← readM me;
  if nonzero (locks mr) then throw "gosched holding locks" else
  if bool_decide (Some g = g0 mr) then throw "gosched of g0" else
  schedule me (Some g).

Definition goexit (me g : nat) : Sch unit :=
  modifyG g (set_status Gmoribund);; gosched me g.

(** ** System calls *)

Definition syscall_fast (v : Z) : bool :=
  negb (nonzero (atomic_gwaiting v)) &&
  (negb (nonzero (atomic_waitstop v)) || (atomic_mcpu v >? atomic_mcpumax v)).

(** What the slow path does between [schedlock] and [schedunlock]. *)
Definition entersyscall_slow (me g : nat) (sp : Z) : Sch unit :=
  v ← atomicload;
  v ← (if nonzero (atomic_gwaiting v) then matchmg me;; atomicload
       else mret v);
  quorum_wake v;;
  modifyG g (set_sched_sp sp).

(** [sp] is the stack pointer that [runtime·gosave] stores. *)
Definition entersyscall (me g : nat) (sp : Z) : Sch unit :=
  s ← get;
  if nonzero (predawn s) then mret tt else
  modifyG g (set_sched_sp sp);;
  modifyG g (fun x => set_gcsp (sched_sp x) x);;
  modifyG g (fun x => set_gcstack (stackbase x) x);;
  modifyG g (fun x => set_gcguard (stackguard x) x);;
  modifyG g (set_status Gsyscall);;
  gr ← readG g;
  if (gcsp gr <? gcguard gr - StackGuard) || (gcstack gr <? gcsp gr)
  then throw "entersyscall" else
  v ← xadd_atomic (Z.shiftl (-1) mcpuShift);
  if syscall_fast v then mret tt else
  schedlock;;
  entersyscall_slow me g sp;;
  schedunlock.

Definition exitsyscall (me g : nat) : Sch unit :=
  s ← get;
  if nonzero (predawn s) then mret tt else
  v ← xadd_atomic (Z.shiftl 1 mcpuShift);
  mr ← readM me;
  s ← get;
  if (m_profilehz mr =? profilehz s) && (atomic_mcpu v <=? atomic_mcpumax v)
  then
    modifyG g (set_status Grunning);;
    modifyG g (set_gcstack 0)
  else
    modifyG g (set_readyonstop true);;
    gosched me g;;
    modifyG g (set_gcstack 0).

(** ** The cap *)

Definition gomaxprocsfunc (me g : nat) (n : Z) : Sch Z :=
  schedlock;;
  s ← get;
  let ret := gomaxprocs s in
  let n := if n <=? 0 then ret else n in
  let n := if n >? maxgomaxprocs then maxgomaxprocs else n in
  modify (set_gomaxprocs n);;
  when (n >? 1) (modify (set_singleproc false));;
  s ← get;
  if nonzero (gcwaiting s) then
    if negb (atomic_mcpumax (atomic s) =? 1)
    then throw "invalid mcpumax during gc"
    else schedunlock;; mret ret
  else
    setmcpumax n;;
    v ← atomicload;
    if atomic_mcpu v >? uint32 n then
      schedunlock;; gosched me g;; mret ret
    else
      matchmg me;; schedunlock;; mret ret.

(** [env] is what [runtime·getenv("GOMAXPROCS")] finds, already through
    [runtime·atoi]: [None] when the variable is not set. *)
Definition schedinit (me : nat) (env : option Z) : Sch unit :=
  modifyM me (fun x => set_nomemprof (int32 (nomemprof x + 1)) x);;
  mcommoninit me;;
  modify (set_gomaxprocs 1);;
  match env with
  | Some n =>
      if nonzero n then
        let n := if n >? maxgomaxprocs then maxgomaxprocs else n in
        modify (set_gomaxprocs n)
      else mret tt
  | None => mret tt
  end;;
  s ← get;
  setmcpumax (gomaxprocs s);;
  modify (fun s => set_singleproc (gomaxprocs s =? 1) s);;
  modify (set_predawn 1);;
  modifyM me (fun x => set_nomemprof (int32 (nomemprof x - 1)) x).

(** ** Wiring a goroutine to its thread *)

(** [g] is the goroutine the caller runs on, [me] its worker. *)
Definition LockOSThread (me g : nat) : Sch unit :=
  s ← get;
  if nonzero (predawn s) then throw "cannot wire during init" else
  modifyM me (set_lockedg (Some g));;
  modifyG g (set_lockedm (Some me)).

Definition UnlockOSThread (me g : nat) : Sch unit :=
  modifyM me (set_lockedg None);;
  modifyG g (set_lockedm None).

Definition lockedOSThread (me g : nat) : Sch bool :=
  gr ← readG g;
  if is_nil (lockedm gr) then mret false else
  mr ← readM me;
  mret (negb (is_nil (lockedg mr))).

Definition idlegoroutine (me g : nat) : Sch unit :=
  gr ← readG g;
  if negb (is_nil (idlem gr)) then throw "g is already an idle goroutine"
  else modifyG g (set_idlem (Some me)).

(** ** Stopping the world *)

Definition sleep_stopped : Sch unit := fun s =>
  Park (emit_event (notesleep stopped) s) (fun s' => Ok tt s').

(** The loop of [runtime·stoptheworld].  The word is read and written
    with the lock held and nobody interferes: the [cas] succeeds.  Every
    turn sleeps once on [stopped]; [fuel] bounds the turns. *)
Fixpoint stoptheworld_loop (fuel : nat) : Sch unit :=
  match fuel with
  | O => fun _ => Diverge
  | S fuel =>
      v ← atomicload;
      if atomic_mcpu v <=? 1 then mret tt else
      emit (noteclear stopped);;
      if nonzero (atomic_waitstop v) then throw "invalid waitstop" else
      modify (set_atomic (uint32 (v + Z.shiftl 1 waitstopShift)));;
      schedunlock;;
      sleep_stopped;;
      schedlock;;
      stoptheworld_loop fuel
  end.

Definition stoptheworld (fuel : nat) : Sch unit :=
  schedlock;;
  modify (set_gcwaiting 1);;
  setmcpumax 1;;
  stoptheworld_loop fuel;;
  modify (fun s => set_singleproc (gomaxprocs s =? 1) s);;
  schedunlock.

(** ** New goroutines *)

Definition set_goidgen (v : Z) (x : State) : State :=
  mkState (gs x) (ms x) (gfree x) v (ghead x) (gwait x) (gcount x)
    (grunning x) (mhead x) (mwait x) (mcount x) (atomic x) (predawn x)
    (profilehz x) (mwakeup x) (gomaxprocs x) (singleproc x) (gcwaiting x)
    (trace x).

(** [siz = (narg + nret + 7) & ~7]. *)
Definition newproc_siz (narg nret : Z) : Z :=
  let siz := int32 (narg + nret) in
  Z.land (int32 (siz + 7)) (Z.lnot 7).

(** The goroutine [newproc1] takes: one off the free list, or a fresh
    one from [malg]. *)
Definition newproc_g : Sch nat :=
  og ← gfget;
  match og with
  | Some newg =>
      gr ← readG newg;
      if negb (stackguard gr - StackGuard =? stack0 gr)
      then throw "invalid stack in newg" else mret newg
  | None =>
      s ← get;
      let newg := fresh (dom (gs s)) in
      modify (set_gs (<[newg := malg StackMin]> (gs s)));;
      mret newg
  end.

Definition newprocreadylocked (me g : nat) : Sch unit := readylocked me g.

(** The arguments copied to the new stack, [entry], [gopc], [goid],
    [waitreason] and the list [allg] are not modelled; the result is the
    new goroutine. *)
Definition newproc1 (me : nat) (narg nret : Z) : Sch nat :=
  let siz := newproc_siz narg nret in
  if siz >? StackMin - 1024 then
    throw "runtime.newproc: function arguments too large for new goroutine"
  else
  schedlock;;
  newg ← newproc_g;
  modifyG newg (set_status Gwaiting);;
  gr ← readG newg;
  let sp := stackbase gr - siz in
  let sp := if thechar_5 then sp - sizeof_uintptr else sp in
  modifyG newg (set_sched_sp sp);;
  modify (fun s => set_gcount (int32 (gcount s + 1)) s);;
  modify (fun s => set_goidgen (int32 (goidgen s + 1)) s);;
  newprocreadylocked me newg;;
  schedunlock;;
  mret newg.

Definition newproc (me : nat) (siz : Z) : Sch nat := newproc1 me siz 0.

(** ** The CPU profiler *)

(** [prof]: the handler ([nil] is [None]) and the rate.  The buffer
    [pcbuf] is not modelled, and the lock of [prof], which only the
    signal handler contends for, is not an event of the trace. *)
Record Prof : Type := mkProf {
  prof_fn : option nat;
  prof_hz : Z
}.

Definition set_profilehz (v : Z) (x : State) : State :=
  mkState (gs x) (ms x) (gfree x) (goidgen x) (ghead x) (gwait x) (gcount x)
    (grunning x) (mhead x) (mwait x) (mcount x) (atomic x) (predawn x)
    v (mwakeup x) (gomaxprocs x) (singleproc x) (gcwaiting x) (trace x).

(** [runtime·setcpuprofilerate]; the result is [prof] as it leaves it.
    The scheduler lock is taken with [runtime·lock] and released with
    [runtime·unlock], not with [schedunlock]. *)
Definition setcpuprofilerate (fn : option nat) (hz : Z) : Sch Prof :=
  let hz := if hz <? 0 then 0 else hz in
  let fn := if hz =? 0 then None else fn in
  let hz := if is_nil fn then 0 else hz in
  emit (resetcpuprofiler 0);;
  emit lock_sched;;
  modify (set_profilehz hz);;
  emit unlock_sched;;
  (if nonzero hz then emit (resetcpuprofiler hz) else mret tt);;
  mret (mkProf fn hz).

(** [runtime·sigprof]: the call of the handler it makes, if any, with
    the number of program counters; [n] is what [runtime·gentraceback]
    returns. *)
Definition sigprof (n : Z) (p : Prof) : option (nat * Z) :=
  if is_nil (prof_fn p) || (prof_hz p =? 0) then None else
  match prof_fn p with
  | None => None
  | Some fn => if n >? 0 then Some (fn, n) else None
  end.

End Code.

End Sched.

(** ** Growing the stack *)

Module Stack.

(** What [runtime·newstack] reads: the [more...] fields that the assembly
    stub leaves in [m], and the stack fields of [m->curg]. *)
Record More : Type := mkMore {
  moreframesize : Z;
  moreargsize : Z;
  morebuf : Gobuf;
  moreargp : Z;
  morepc : Z;
  curg : nat
}.

Record Gstack : Type := mkGstack {
  stackbase : Z;
  stackguard : Z;
  ispanic : bool
}.

(** What it leaves behind: the header planted at address [top], the fields
    of [g1], the request made to [runtime·stackalloc] if any, the
    [memmove] of the arguments as (destination, source, length), and the
    context and function given to [runtime·gogocall]. *)
Record Grown : Type := mkGrown {
  top : Z;
  header : Stktop;
  g1 : Gstack;
  allocated : option Z;
  moved : option (Z * Z * Z);
  label : Gobuf;
  called : Z
}.

Inductive outcome : Type :=
| Fatal (msg : string)
| Resumed (r : Grown).

Section Code.
Context `{Platform}.

(** The address of [runtime·lessstack]. *)
Variable lessstack : Z.

Definition uintptr (z : Z) : Z := z mod 2 ^ (8 * sizeof_uintptr).

(** The [else] branch of [newstack]: the size asked of the allocator. *)
Definition segment_size (framesize argsize : Z) : Z :=
  let framesize := int32 (framesize + argsize) in
  let framesize := int32 (framesize + StackExtra) in
  let framesize := if framesize <? StackMin then StackMin else framesize in
  int32 (framesize + StackSystem).

Definition newstack (m : More) (g : Gstack) : outcome :=
  let framesize := moreframesize m in
  let argsize := moreargsize m in
  if gobuf_sp (morebuf m) <? stackguard g - StackGuard
  then Fatal "runtime: split stack overflow" else
  if negb (argsize mod sizeof_uintptr =? 0)
  then Fatal "runtime: stack split argsize" else
  let reflectcall := framesize =? 1 in
  let framesize := if reflectcall then 0 else framesize in
  let '(top, stk, free, alloc) :=
    if reflectcall &&
       (gobuf_sp (morebuf m) - sizeof_Stktop - argsize - 32 >? stackguard g)
    then
      (gobuf_sp (morebuf m) - sizeof_Stktop, stackguard g - StackGuard,
       0, None)
    else
      let framesize := segment_size framesize argsize in
      let stk := stackalloc framesize in
      (stk + framesize - sizeof_Stktop, stk, uintptr framesize,
       Some framesize) in
  let hdr :=
    mkStktop (stackbase g) (stackguard g) (morebuf m) (moreargp m)
      argsize free (ispanic g) in
  let g' := mkGstack top (stk + StackGuard) false in
  let sp := top in
  let '(sp, mv) :=
    if argsize >? 0 then (sp - argsize, Some (sp - argsize, moreargp m, argsize))
    else (sp, None) in
  let sp := if thechar_5 then sp - sizeof_uintptr else sp in
  Resumed (mkGrown top hdr g' alloc mv
             (mkGobuf sp lessstack (Some (curg m))) (morepc m)).

(** What [runtime·oldstack] leaves behind: the fields of [g1], the
    results copied back to the caller's frame as (destination, source,
    length), the segment given to [runtime·stackfree] as (address,
    size), and the context and value given to [runtime·gogo]. *)
Record Shrunk : Type := mkShrunk {
  back : Gstack;
  copied : option (Z * Z * Z);
  released : option (Z * Z);
  resumed : Gobuf;
  returned : Z
}.

(** [hdr] is the header that [g1->stackbase] points to, [cret] is
    [m->cret].  [None] is the fault on [old.gobuf.g->goid] when the
    saved [g] is nil. *)
Definition oldstack (hdr : Stktop) (g : Gstack) (cret : Z) : option Shrunk :=
  let old := hdr in
  let sp := stackbase g in
  let argsize := uint32 (top_argsize old) in
  let cp :=
    if argsize >? 0 then Some (top_argp hdr, sp - argsize, argsize)
    else None in
  match gobuf_g (top_gobuf old) with
  | None => None
  | Some _ =>
      let rel :=
        if negb (top_free old =? 0)
        then Some (stackguard g - StackGuard, top_free old)
        else None in
      Some (mkShrunk
              (mkGstack (top_stackbase old) (top_stackguard old) (ispanic g))
              cp rel (top_gobuf old) cret)
  end.

End Code.

End Stack.

(** ** Deferred calls *)

Module Defer.

(** A [Defer] record; the [link] field is the tail of the list it is on.
    [args] are the bytes copied from the caller's frame. *)
Record Defer : Type := mkDefer {
  fn : Z;
  siz : Z;
  pc : Z;
  argp : Z;
  args : list Z;
  nofree : bool
}.

Inductive Event : Type :=
| reflect_call (fn : Z) (args : list Z) (siz : Z)
| free (d : Defer).

(** The goroutine as the defer code sees it: [g->defer], head first, and
    the calls made so far, oldest first. *)
Record Task : Type := mkTask {
  defer : list Defer;
  done : list Event
}.

Section Code.
Context `{Platform}.

(** The caller's stack, read by [runtime·memmove]. *)
Variable mem : Z -> Z.

Definition read_bytes (p n : Z) : list Z :=
  map (fun i => mem (p + Z.of_nat i)) (seq 0 (Z.to_nat n)).

(** [addr_fn] is [&fn], [callerpc] is [runtime·getcallerpc(&siz)]; the
    result is the task and the value returned. *)
Definition deferproc (siz fn addr_fn callerpc : Z) (g : Task) : Task * Z :=
  let argp :=
    if thechar_5 then addr_fn + 2 * sizeof_uintptr
    else addr_fn + 1 * sizeof_uintptr in
  let d := mkDefer fn siz callerpc argp (read_bytes argp siz) false in
  (mkTask (d :: defer g) (done g), 0).

(** The loop of [rundefer]; [None] when the fuel runs out. *)
Fixpoint rundefer_loop (fuel : nat) (g : Task) : option Task :=
  match fuel with
  | O => None
  | S fuel =>
      match defer g with
      | [] => Some g
      | d :: link =>
          let g := mkTask link (done g) in
          let g := mkTask (defer g)
                     (done g ++ [reflect_call (fn d) (args d) (siz d)]) in
          let g := if nofree d then g
                   else mkTask (defer g) (done g ++ [free d]) in
          rundefer_loop fuel g
      end
  end.

Definition rundefer (g : Task) : option Task :=
  rundefer_loop (S (length (defer g))) g.

(** A function that defers [calls] in turn, each given as
    (siz, fn, &fn, caller pc): the task and the values [deferproc]
    returned. *)
Fixpoint deferprocs (calls : list (Z * Z * Z * Z)) (g : Task)
  : Task * list Z :=
  match calls with
  | [] => (g, [])
  | (siz, fn, addr_fn, callerpc) :: rest =>
      let '(g, ret) := deferproc siz fn addr_fn callerpc g in
      let '(g, rets) := deferprocs rest g in
      (g, ret :: rets)
  end.

(** The deferred functions run so far, in order. *)
Definition calls_of (tr : list Event) : list (Z * list Z * Z) :=
  omap (fun e => match e with
                 | reflect_call f a n => Some (f, a, n)
                 | free _ => None
                 end) tr.

Definition call_of (d : Defer) : Z * list Z * Z := (fn d, args d, siz d).

(** What [deferproc] records of a call. *)
Definition made_by (c : Z * Z * Z * Z) (d : Defer) : Prop :=
  let '(siz, fn, addr_fn, callerpc) := c in
  Defer.fn d = fn /\ Defer.siz d = siz /\ pc d = callerpc /\
  args d = read_bytes (argp d) siz.

(** What [runtime·deferreturn] gives to [runtime·jmpdefer]: the function
    and the frame address, with the argument bytes it has copied there. *)
Record Jump : Type := mkJump {
  jmp_fn : Z;
  jmp_argp : Z;
  jmp_args : list Z
}.

(** [addr_arg0] is [&arg0], the caller's argument frame. *)
Definition deferreturn (addr_arg0 : Z) (g : Task) : Task * option Jump :=
  match defer g with
  | [] => (g, None)
  | d :: link =>
      let a := addr_arg0 in
      if negb (argp d =? a) then (g, None) else
      let moved := firstn (Z.to_nat (siz d)) (args d) in
      let g := mkTask link (done g) in
      let g := if nofree d then g
               else mkTask (defer g) (done g ++ [free d]) in
      (g, Some (mkJump (fn d) a moved))
  end.

End Code.

End Defer.

(** ** Recovering from a panic *)

Module Recover.

(** A [Panic] record; [arg] stands for the interface value. *)
Record Panic : Type := mkPanic {
  arg : Z;
  recovered : bool;
  p_stackbase : Z
}.

(** The goroutine as [runtime·recover] sees it: [g->panic], newest
    first, [g->stackbase] and the segment headers reached from it, the
    one at [stackbase] first. *)
Record Task : Type := mkTask {
  panic : list Panic;
  stackbase : Z;
  spine : list Stktop
}.

(** The task and the value returned, [None] for the nil interface; the
    outer [None] is a header that is not there. *)
Definition recover (argp : Z) (g : Task) : option (Task * option Z) :=
  let nomatch := Some (g, None) in
  match panic g with
  | [] => nomatch
  | p :: link =>
      if recovered p then nomatch else
      match spine g with
      | [] => None
      | top :: rest =>
          let top_addr := stackbase g in
          if (argp <? top_addr - uint32 (top_argsize top)) || (top_addr <? argp)
          then nomatch else
          let oldtop := top_stackbase top in
          let sel :=
            if negb (oldtop =? 0) &&
               (top_argp top =? oldtop - uint32 (top_argsize top))
            then head rest else Some top in
          match sel with
          | None => None
          | Some top =>
              if negb (top_panic top) then nomatch else
              Some (mkTask (mkPanic (arg p) true (p_stackbase p) :: link)
                      (stackbase g) (spine g),
                    Some (arg p))
          end
      end
  end.

End Recover.

(** ** Invariants and frames of the scheduler state *)

Module Inv.
Import Atomic Sched.

(** The bit [gwaiting] of the atomic word says whether [gwait] is
    positive; [gwait] counts the queue. *)
Definition gwaiting_inv (s : State) : Prop :=
  atomic_gwaiting (atomic s) = 1 <-> gwait s > 0.

Definition queue_counted (s : State) : Prop :=
  gwait s = Z.of_nat (length (ghead s)).

(** [g] is on neither list threaded through [g->schedlink], the run
    queue and the free list; [m] is not on the list of idle workers. *)
Definition unlinked (s : State) (g : nat) : Prop :=
  (g ∉ ghead s) /\ (g ∉ gfree s).

Definition unparked (s : State) (m : nat) : Prop := m ∉ mhead s.

(** The events of a hand-off: waking a worker that waits for its next
    goroutine, and starting a thread for a new worker. *)
Definition handoff_event (e : Event) : Prop :=
  match e with
  | notewakeup (havenextg _) | newosproc _ | cgo_thread_start _ => True
  | _ => False
  end.

(** What matching leaves alone: the cap, [waitstop] and
    [runtime·gomaxprocs]; [mcpu] only grows, and only up to the cap; the
    platform is only asked for hand-offs. *)
Record frame (s s' : State) : Prop := mkFrame {
  frame_mcpumax :
    atomic_mcpumax (atomic s') = atomic_mcpumax (atomic s);
  frame_waitstop :
    atomic_waitstop (atomic s') = atomic_waitstop (atomic s);
  frame_mcpu :
    atomic_mcpu (atomic s') = atomic_mcpu (atomic s) \/
    atomic_mcpu (atomic s) < atomic_mcpu (atomic s')
      <= atomic_mcpumax (atomic s);
  frame_gomaxprocs : gomaxprocs s' = gomaxprocs s;
  frame_trace :
    exists tr, trace s' = trace s ++ tr /\ Forall handoff_event tr
}.

(** The same without the trace: what also holds across an unlock. *)
Definition cpu_frame (s s' : State) : Prop :=
  atomic_mcpumax (atomic s') = atomic_mcpumax (atomic s) /\
  atomic_waitstop (atomic s') = atomic_waitstop (atomic s) /\
  (atomic_mcpu (atomic s') = atomic_mcpu (atomic s) \/
   atomic_mcpu (atomic s) < atomic_mcpu (atomic s')
     <= atomic_mcpumax (atomic s)) /\
  gomaxprocs s' = gomaxprocs s.

(** What a whole round of the scheduler leaves alone. *)
Definition cap_frame (s s' : State) : Prop :=
  atomic_mcpumax (atomic s') = atomic_mcpumax (atomic s) /\
  gomaxprocs s' = gomaxprocs s.

(** Notes woken for a worker while the scheduler lock is held, and after
    it was last released; [held] says whether the lock is held where the
    trace starts. *)
Fixpoint wakes_under_lock (held : bool) (tr : list Event) : list nat :=
  match tr with
  | [] => []
  | lock_sched :: tr => wakes_under_lock true tr
  | unlock_sched :: tr => wakes_under_lock false tr
  | notewakeup (havenextg m) :: tr =>
      (if held then [m] else []) ++ wakes_under_lock held tr
  | _ :: tr => wakes_under_lock held tr
  end.

Fixpoint wakes_unlocked (held : bool) (tr : list Event) : list nat :=
  match tr with
  | [] => []
  | lock_sched :: tr => wakes_unlocked true tr
  | unlock_sched :: tr => wakes_unlocked false tr
  | notewakeup (havenextg m) :: tr =>
      (if held then [] else [m]) ++ wakes_unlocked held tr
  | _ :: tr => wakes_unlocked held tr
  end.

(** A critical section that makes the hand-offs [l], each a worker and
    the goroutine it is given. *)
Definition handoffs (l : list (nat * nat)) : Sch unit :=
  foldr (fun p k => mnextg p.1 p.2 ;; k) (mret tt) l.

Definition critical_section (l : list (nat * nat)) : Sch unit :=
  schedlock;; handoffs l;; schedunlock.

(** The workers that the hand-offs [l] find waiting on their note, in
    order; a worker stops waiting once it is handed a goroutine. *)
Fixpoint woken (workers : gmap nat M) (l : list (nat * nat)) : list nat :=
  match l with
  | [] => []
  | (m, g) :: l =>
      match workers !! m with
      | None => []
      | Some mr =>
          if waitnextg mr
          then m :: woken (<[m := set_waitnextg false (set_nextg (Some g) mr)]>
                             workers) l
          else woken (<[m := set_nextg (Some g) mr]> workers) l
      end
  end.

Definition wake (m : nat) : Event := notewakeup (havenextg m).

(** A goroutine that [schedule] has retired, and what keeps it so while
    the list of free goroutines is not touched. *)
Definition is_dead (gp : nat) (s : State) : Prop :=
  status <$> gs s !! gp = Some Gdead.

Definition dead_kept (gp : nat) (s s' : State) : Prop :=
  (is_dead gp s -> is_dead gp s') /\ gfree s' = gfree s /\
  gcount s' = gcount s.

(** The state in which [schedule(gp)] reaches its [switch]: the lock is
    taken, [gp->m] cleared, [grunning] and [mcpu] decremented. *)
Definition at_switch (gp : nat) (gr : G) (s : State) : State :=
  set_atomic (xadd (atomic s) (Z.shiftl (-1) mcpuShift))
    (set_grunning (int32 (grunning s - 1))
       (set_gs (<[gp := set_gm None gr]> (gs s)) (emit_event lock_sched s))).

(** The goroutine as [entersyscall] leaves it: context saved at [sp],
    stack extent recorded for the collector, status [Gsyscall]. *)
Definition in_syscall (sp : Z) (gr : G) : G :=
  set_status Gsyscall
    (set_gcguard (stackguard gr)
       (set_gcstack (stackbase gr) (set_gcsp sp (set_sched_sp sp gr)))).

(** The goroutine that [exitsyscall] could not resume, as [schedule]
    hands it to [gput]: [readyonstop] was set and cleared again, [m] is
    cleared, the status is [Grunnable]. *)
Definition requeued_g (gr : G) : G :=
  set_status Grunnable
    (set_readyonstop false (set_gm None (set_readyonstop true gr))).

(** The state in which [exitsyscall] yields (one added to [mcpu],
    [readyonstop] set), and the state in which [schedule] then calls
    [gput]. *)
Definition yielding (g : nat) (gr : G) (s : State) : State :=
  set_atomic (xadd (atomic s) (Z.shiftl 1 mcpuShift))
    (set_gs (<[g := set_readyonstop true gr]> (gs s)) s).

Definition requeuing (g : nat) (gr : G) (s : State) : State :=
  set_gs (<[g := requeued_g gr]> (gs s))
    (set_atomic
       (xadd (xadd (atomic s) (Z.shiftl 1 mcpuShift)) (Z.shiftl (-1) mcpuShift))
       (set_grunning (int32 (grunning s - 1)) (emit_event lock_sched s))).

(** The queue as a call leaves it when it does not touch it. *)
Definition queue_kept (s s' : State) : Prop :=
  atomic_gwaiting (atomic s') = atomic_gwaiting (atomic s) /\
  gwait s' = gwait s /\ ghead s' = ghead s.

(** What [gput] does to the queue: nothing (the goroutine went to a
    worker), or it appended; the bit flips when [gwait] was 0. *)
Definition gput_post (g : nat) (s s' : State) : Prop :=
  queue_kept s s' \/
  (ghead s' = ghead s ++ [g] /\
   gwait s' = int32 (gwait s + 1) /\
   atomic_gwaiting (atomic s') =
     if gwait s =? 0 then 1 - atomic_gwaiting (atomic s)
     else atomic_gwaiting (atomic s)).

(** What [gget] does: the queue was empty and stays so, or its head is
    returned; the bit flips when [gwait] reaches 0. *)
Definition gget_post (s : State) (og : option nat) (s' : State) : Prop :=
  (ghead s = [] /\ queue_kept s s') \/
  (exists g rest,
     ghead s = g :: rest /\ og = Some g /\ ghead s' = rest /\
     gwait s' = int32 (gwait s - 1) /\
     atomic_gwaiting (atomic s') =
       if int32 (gwait s - 1) =? 0 then 1 - atomic_gwaiting (atomic s)
       else atomic_gwaiting (atomic s)).

(** The distance from [mcpu] to the cap bounds the turns of the loops
    over the run queue. *)
Definition gap (s : State) : Z :=
  atomic_mcpumax (atomic s) - atomic_mcpu (atomic s).

(** [ensures Q E r]: the call returned in a state satisfying [Q], or it
    left its stack (throw, exit, fault, switch, park) in a state
    satisfying [E]; it did not run out of fuel. *)
Definition ensures {A : Type} (Q : A -> State -> Prop) (E : State -> Prop)
    (r : result A) : Prop :=
  match r with
  | Ok a s => Q a s
  | Throw _ s | Exit _ s | Fault s | Gogo _ s _ | Park s _ => E s
  | Diverge => False
  end.

(** [keeps R c]: wherever [c] stops, the state is related by [R] to the
    one it started in. *)
Definition keeps (R : State -> State -> Prop) {A : Type} (c : Sch A) : Prop :=
  forall s, ensures (fun _ s' => R s s') (R s) (c s).

(** [returns P r]: whenever the call returns, at once or after the
    goroutine or the worker was resumed, the value satisfies [P]. *)
Fixpoint returns {A : Type} (P : A -> Prop) (r : result A) : Prop :=
  match r with
  | Ok a _ => P a
  | Gogo _ _ k | Park _ k => forall s, returns P (k s)
  | Throw _ _ | Exit _ _ | Fault _ | Diverge => True
  end.

End Inv.

(** ** Callers of the queue operations *)

Module Client.
Import Atomic Sched.

(** [gput] of each goroutine of a list in turn. *)
Fixpoint gputs (l : list nat) : Sch unit :=
  match l with
  | [] => mret tt
  | g :: l => gput g;; gputs l
  end.

(** [n] calls of [gget] by worker [me], with the goroutines they return;
    the calls stop at the first [nil]. *)
Fixpoint ggets (me : nat) (n : nat) : Sch (list nat) :=
  match n with
  | O => mret []
  | S n =>
      og ← gget me;
      match og with
      | Some g => l ← ggets me n; mret (g :: l)
      | None => mret []
      end
  end.

(** A goroutine that is neither wired nor the idle goroutine of a
    worker. *)
Definition plain (s : State) (g : nat) : Prop :=
  exists gr, gs s !! g = Some gr /\ lockedm gr = None /\ idlem gr = None.

(** The state with the queue [q], counted, over the fields of [s]; [a0]
    is the word while the queue is empty, [a1] while it is not. *)
Definition queued (a0 a1 : Z) (s : State) (q : list nat) : State :=
  set_atomic (match q with [] => a0 | _ => a1 end)
    (set_gwait (Z.of_nat (length q)) (set_ghead q s)).

(** Nothing is left for worker [me] to match: no goroutine waits, on
    the queue or in the worker's idle slot, or no processor is free. *)
Definition saturated (me : nat) (s : State) : Prop :=
  (ghead s = [] /\ forall mr, ms s !! me = Some mr -> idleg mr = None) \/
  atomic_mcpumax (atomic s) <= atomic_mcpu (atomic s).

(** Hand-offs respect wiring: a goroutine waiting in a worker's [nextg]
    is not wired to another worker. *)
Definition wiring_ok (s : State) : Prop :=
  forall m mr g gr lm,
    ms s !! m = Some mr -> nextg mr = Some g ->
    gs s !! g = Some gr -> lockedm gr = Some lm -> lm = m.

(** Worker [me] may run [gp]: it is not wired to another worker. *)
Definition runs_here (me gp : nat) (s : State) : Prop :=
  forall gr lm, gs s !! gp = Some gr -> lockedm gr = Some lm -> lm = me.

(** Steps that make no hand-off: goroutines are only added, unwired;
    no worker gets a new [nextg]. *)
Definition quiet_wiring (s s' : State) : Prop :=
  gs s ⊆ gs s' /\
  (forall m mr',
     ms s' !! m = Some mr' ->
     nextg mr' = None \/
     exists mr, ms s !! m = Some mr /\ nextg mr = nextg mr') /\
  (forall g gr,
     gs s' !! g = Some gr -> gs s !! g = Some gr \/ lockedm gr = None).

(** [stops_in Q E r]: like [Inv.ensures], but a loop out of fuel is not
    counted against the property. *)
Definition stops_in {A : Type} (Q : A -> State -> Prop) (E : State -> Prop)
    (r : result A) : Prop :=
  match r with
  | Ok a s => Q a s
  | Throw _ s | Exit _ s | Fault s | Gogo _ s _ | Park s _ => E s
  | Diverge => True
  end.

(** The settings that matching and unlocking leave alone. *)
Definition settings_kept (s s' : State) : Prop :=
  gomaxprocs s' = gomaxprocs s /\ gcwaiting s' = gcwaiting s /\
  predawn s' = predawn s /\ singleproc s' = singleproc s.

(** Steps that change no goroutine and keep the counts of goroutines:
    goroutines are only added. *)
Definition grows (s s' : State) : Prop :=
  gs s ⊆ gs s' /\ gcount s' = gcount s /\ goidgen s' = goidgen s /\
  gfree s' = gfree s.

(** Worker ids are below [mcount] and no two workers share one. *)
Definition ids_ok (s : State) : Prop :=
  (forall m mr, ms s !! m = Some mr -> 0 <= m_id mr < mcount s) /\
  (forall m1 m2 r1 r2,
     ms s !! m1 = Some r1 -> ms s !! m2 = Some r2 ->
     m_id r1 = m_id r2 -> m1 = m2).

Section Segments.
Context `{Platform}.

(** A stack grown by the segments whose headers are [hs], newest first,
    above its first segment: what [runtime·stackfree] is asked when they
    are released in turn ([guard] is the [stackguard] of the newest), and
    the bounds found in the oldest header, those of the first segment. *)
Fixpoint frees (guard : Z) (hs : list Stktop) : list Event :=
  match hs with
  | [] => []
  | h :: hs =>
      (if top_free h =? 0 then []
       else [stackfree (guard - StackGuard) (top_free h)])
        ++ frees (top_stackguard h) hs
  end.

Fixpoint first_bounds (base guard : Z) (hs : list Stktop) : Z * Z :=
  match hs with
  | [] => (base, guard)
  | h :: hs => first_bounds (top_stackbase h) (top_stackguard h) hs
  end.

(** The headers link segments that exist, at addresses above
    [StackGuard]. *)
Definition linked (hs : list Stktop) : Prop :=
  Forall (fun h => top_stackbase h <> 0 /\ StackGuard < top_stackguard h) hs.

(** The goroutine that [schedule] retires: dead, unwired, no longer an
    idle goroutine, its stack back on the first segment. *)
Definition retired (hs : list Stktop) (gr : G) : G :=
  let b := first_bounds (stackbase gr) (stackguard gr) hs in
  set_spine [zeroStktop]
    (set_stackguard b.2
       (set_stackbase b.1
          (set_idlem None (set_lockedm None (set_status Gdead gr))))).

End Segments.

End Client.

(** ** A platform and some states to run the code on *)

(** The constants of [stack.h] on a 64-bit Unix; the allocator always
    answers with the same address. *)
#[export] Instance unix64 : Platform := {|
  StackGuard := 256;
  StackSystem := 0;
  StackMin := 4096;
  StackExtra := 1024;
  sizeof_Stktop := 72;
  sizeof_uintptr := 8;
  thechar_5 := false;
  stackalloc := fun _ => 1048576;
  Windows := false;
  iscgo := false;
  libcgo_thread_start := false
|}.

Import Atomic Sched Inv.

Definition word (mcpu mcpumax waitstop gwaiting : Z) : Z :=
  mcpu + 2 ^ 15 * mcpumax + 2 ^ 30 * waitstop + 2 ^ 31 * gwaiting.

(** A goroutine on its first segment, as [malg(StackMin)] lays it out at
    address 4096. *)
Definition task (st : Gstatus) (m : option nat) : G :=
  set_gm m
    (set_status st
       (set_spine [zeroStktop]
          (set_stackbase 8120 (set_stackguard 4352 (set_stack0 4096 zeroG))))).

Definition worker (g0 : nat) (cur : option nat) (waiting : bool) : M :=
  set_waitnextg waiting (set_curg cur (set_g0 (Some g0) zeroM)).

(** Worker 0 runs goroutine 1; goroutines 2 and 3 are queued; workers 1
    and 2 are parked, each asleep on its note; the cap is 4. *)
Definition three_tasks : gmap nat G :=
  <[1%nat := task Grunning (Some 0%nat)]>
    (<[2%nat := task Grunnable None]>
       (<[3%nat := task Grunnable None]>
          (<[10%nat := zeroG]> (<[11%nat := zeroG]> (<[12%nat := zeroG]> ∅))))).

Definition three_workers : gmap nat M :=
  <[0%nat := worker 10 (Some 1%nat) false]>
    (<[1%nat := worker 11 None true]> (<[2%nat := worker 12 None true]> ∅)).

Definition busy : State :=
  mkState three_tasks three_workers [] 3 [2%nat; 3%nat] 2 3 1
    [1%nat; 2%nat] 2 3 (word 1 4 0 1) 0 0 None 4 false 0 [].

(** The same after [stoptheworld]: the cap is lowered to 1. *)
Definition after_gc : State :=
  set_gcwaiting 1 (set_atomic (word 1 1 0 1) busy).

(** The same with goroutine 1 about to block: it set its status to
    [Gwaiting] before it calls [gosched]. *)
Definition blocking : State :=
  set_gs (<[1%nat := task Gwaiting (Some 0%nat)]> three_tasks) busy.

(** Goroutine 1 comes back from a system call during a collection: the
    cap is 1 and another goroutine holds the only slot. *)
Definition in_call : State :=
  set_grunning 2
    (set_gs (<[1%nat := task Gsyscall (Some 0%nat)]> three_tasks) after_gc).

(** The program before [schedinit]: the bootstrap worker alone. *)
Definition boot : State :=
  mkState (<[0%nat := zeroG]> ∅) (<[0%nat := worker 0 None false]> ∅)
    [] 0 [] 0 0 0 [] 0 0 0 0 0 None 0 false 0 [].

(** The same with nothing to run: goroutines 2 and 3 wait on a channel,
    the queue is empty. *)
Definition drained : State :=
  set_ghead [] (set_gwait 0 (set_atomic (word 1 4 0 0)
    (set_gs (<[2%nat := task Gwaiting None]>
               (<[3%nat := task Gwaiting None]> three_tasks)) busy))).

(** Two goroutines run, on workers 0 and 1; worker 2 is parked. *)
Definition two_busy : State :=
  set_grunning 2 (set_mwait 1 (set_mhead [2%nat] (set_atomic (word 2 4 0 0)
    (set_ms (<[1%nat := worker 11 (Some 2%nat) false]> three_workers)
       (set_gs (<[2%nat := task Grunning (Some 1%nat)]> (gs drained))
          drained))))).

(** Before [initdone]: goroutine 1 runs [main·init], which started
    goroutine 2. *)
Definition starting : State := set_predawn 1 drained.

(** The workers of [busy] with the ids that [mcommoninit] gave them. *)
Definition numbered : State :=
  set_ms (<[0%nat := set_m_id 0 (worker 10 (Some 1%nat) false)]>
            (<[1%nat := set_m_id 1 (worker 11 None true)]>
               (<[2%nat := set_m_id 2 (worker 12 None true)]> ∅))) busy.

(** A goroutine whose stack grew by one segment of 4096 bytes at
    address 1048576: the header of the new segment holds the bounds of
    the first. *)
Definition second_segment : Stktop :=
  mkStktop 8120 4352 (mkGobuf 5000 0 (Some 1%nat)) 5008 0 4096 false.

Definition tall_task (st : Gstatus) (m : option nat) : G :=
  set_spine [second_segment; zeroStktop]
    (set_stackbase 1052600 (set_stackguard 1048832 (task st m))).

(** Goroutine 1, on two segments, called [goexit]. *)
Definition leaving : State :=
  set_gs (<[1%nat := tall_task Gmoribund (Some 0%nat)]> three_tasks) busy.

(** Goroutine 1 still runs, on two segments. *)
Definition climbing : State :=
  set_gs (<[1%nat := tall_task Grunning (Some 0%nat)]> three_tasks) busy.

(** Goroutine 2 is wired to worker 1, which was handed it and has it in
    its [nextg]; goroutine 3, wired to the parked worker 2, is on the
    queue. *)
Definition wired_tasks : gmap nat G :=
  <[1%nat := task Grunning (Some 0%nat)]>
    (<[2%nat := set_lockedm (Some 1%nat) (task Grunnable None)]>
       (<[3%nat := set_lockedm (Some 2%nat) (task Grunnable None)]>
          (<[10%nat := zeroG]> (<[11%nat := zeroG]> (<[12%nat := zeroG]> ∅))))).

Definition wired_workers : gmap nat M :=
  <[0%nat := worker 10 (Some 1%nat) false]>
    (<[1%nat :=
        set_lockedg (Some 2%nat)
          (set_nextg (Some 2%nat) (worker 11 None false))]>
       (<[2%nat := set_lockedg (Some 3%nat) (worker 12 None true)]> ∅)).

Definition wired : State :=
  mkState wired_tasks wired_workers [] 3 [3%nat] 1 3 2
    [2%nat] 1 3 (word 2 4 0 1) 0 0 None 4 false 0 [].

(** * Facts about the atomic word *)

Import Atomic.

Lemma mcpu_mod v : atomic_mcpu v = v mod 2 ^ 15.
Proof.
  unfold atomic_mcpu, mcpuShift, mcpuMask, mcpuWidth.
  rewrite Z.shiftr_0_r. change (Z.shiftl 1 15 - 1) with (Z.ones 15).
  now rewrite Z.land_ones.
Qed.

Lemma mcpumax_mod v : atomic_mcpumax v = (v / 2 ^ 15) mod 2 ^ 15.
Proof.
  unfold atomic_mcpumax, mcpumaxShift, mcpuShift, mcpuMask, mcpuWidth.
  change (Z.shiftl 1 15 - 1) with (Z.ones 15).
  rewrite Z.land_ones, Z.shiftr_div_pow2; [reflexivity | lia | lia].
Qed.

Lemma land_1 x : Z.land x 1 = x mod 2.
Proof. apply (Z.land_ones x 1). lia. Qed.

Lemma waitstop_mod v : atomic_waitstop v = (v / 2 ^ 30) mod 2.
Proof.
  unfold atomic_waitstop. rewrite land_1, Z.shiftr_div_pow2; [reflexivity |].
  now compute.
Qed.

Lemma gwaiting_mod v : atomic_gwaiting v = (v / 2 ^ 31) mod 2.
Proof.
  unfold atomic_gwaiting. rewrite land_1, Z.shiftr_div_pow2; [reflexivity |].
  now compute.
Qed.

Ltac fields :=
  rewrite ?mcpu_mod, ?mcpumax_mod, ?waitstop_mod, ?gwaiting_mod in *.

Ltac divmod :=
  unfold xadd, uint32, is_uint32 in *; Z.div_mod_to_equations; lia.

Lemma uint32_range z : is_uint32 (uint32 z).
Proof. unfold is_uint32, uint32. apply Z.mod_pos_bound. lia. Qed.

Lemma uint32_id z : is_uint32 z -> uint32 z = z.
Proof. unfold is_uint32, uint32. intros. now apply Z.mod_small. Qed.

Lemma mcpu_range v : 0 <= atomic_mcpu v < 2 ^ 15.
Proof. fields. apply Z.mod_pos_bound. lia. Qed.

Lemma mcpumax_range v : 0 <= atomic_mcpumax v < 2 ^ 15.
Proof. fields. apply Z.mod_pos_bound. lia. Qed.

Lemma gwaiting_bit v : atomic_gwaiting v = 0 \/ atomic_gwaiting v = 1.
Proof. fields. divmod. Qed.

Lemma waitstop_bit v : atomic_waitstop v = 0 \/ atomic_waitstop v = 1.
Proof. fields. divmod. Qed.

(** The fields of a word decomposed once and for all: every [xadd] of the
    scheduler is then linear arithmetic. *)
Lemma word_split v :
  exists a b c d e,
    v = a + 2 ^ 15 * b + 2 ^ 30 * c + 2 ^ 31 * d + 2 ^ 32 * e /\
    0 <= a < 2 ^ 15 /\ 0 <= b < 2 ^ 15 /\ 0 <= c < 2 /\ 0 <= d < 2 /\
    atomic_mcpu v = a /\ atomic_mcpumax v = b /\
    atomic_waitstop v = c /\ atomic_gwaiting v = d.
Proof.
  exists (v mod 2 ^ 15), ((v / 2 ^ 15) mod 2 ^ 15), ((v / 2 ^ 30) mod 2),
    ((v / 2 ^ 31) mod 2), (v / 2 ^ 32).
  fields. repeat split; try reflexivity; divmod.
Qed.

Lemma word_fields a b c d e :
  0 <= a < 2 ^ 15 -> 0 <= b < 2 ^ 15 -> 0 <= c < 2 -> 0 <= d < 2 ->
  let v := a + 2 ^ 15 * b + 2 ^ 30 * c + 2 ^ 31 * d + 2 ^ 32 * e in
  atomic_mcpu v = a /\ atomic_mcpumax v = b /\
  atomic_waitstop v = c /\ atomic_gwaiting v = d /\
  uint32 v = a + 2 ^ 15 * b + 2 ^ 30 * c + 2 ^ 31 * d.
Proof.
  intros Ha Hb Hc Hd v. subst v. fields. repeat split; divmod.
Qed.

Lemma uint32_fields a b c d e :
  0 <= a < 2 ^ 15 -> 0 <= b < 2 ^ 15 -> 0 <= c < 2 -> 0 <= d < 2 ->
  let w := uint32 (a + 2 ^ 15 * b + 2 ^ 30 * c + 2 ^ 31 * d + 2 ^ 32 * e) in
  atomic_mcpu w = a /\ atomic_mcpumax w = b /\
  atomic_waitstop w = c /\ atomic_gwaiting w = d.
Proof.
  intros Ha Hb Hc Hd w.
  destruct (word_fields a b c d e Ha Hb Hc Hd) as (_ & _ & _ & _ & Hw).
  destruct (word_fields a b c d 0 Ha Hb Hc Hd) as (Ea & Eb & Ec & Ed & _).
  subst w. rewrite Hw.
  replace (a + 2 ^ 15 * b + 2 ^ 30 * c + 2 ^ 31 * d)
    with (a + 2 ^ 15 * b + 2 ^ 30 * c + 2 ^ 31 * d + 2 ^ 32 * 0) by lia.
  auto.
Qed.

(** How a field reads after [xadd]; [same_fields] lists the three fields
    an operation leaves alone. *)
Ltac split_word v :=
  let a := fresh "a" in let b := fresh "b" in let c := fresh "c" in
  let d := fresh "d" in let e := fresh "e" in
  destruct (word_split v) as
    (a & b & c & d & e & ? & ? & ? & ? & ? & ? & ? & ? & ?).

Lemma xadd_incr v :
  atomic_mcpu v < 2 ^ 15 - 1 ->
  let w := xadd v (Z.shiftl 1 mcpuShift) in
  atomic_mcpu w = atomic_mcpu v + 1 /\
  atomic_mcpumax w = atomic_mcpumax v /\
  atomic_waitstop w = atomic_waitstop v /\
  atomic_gwaiting w = atomic_gwaiting v.
Proof.
  intros Hlt w. subst w. unfold xadd. change (Z.shiftl 1 mcpuShift) with 1.
  split_word v.
  replace (v + 1)
    with ((a + 1) + 2 ^ 15 * b + 2 ^ 30 * c + 2 ^ 31 * d + 2 ^ 32 * e) by lia.
  destruct (uint32_fields (a + 1) b c d e) as (-> & -> & -> & ->); lia.
Qed.

Lemma xadd_decr v :
  1 <= atomic_mcpu v ->
  let w := xadd v (Z.shiftl (-1) mcpuShift) in
  atomic_mcpu w = atomic_mcpu v - 1 /\
  atomic_mcpumax w = atomic_mcpumax v /\
  atomic_waitstop w = atomic_waitstop v /\
  atomic_gwaiting w = atomic_gwaiting v.
Proof.
  intros Hlt w. subst w. unfold xadd. change (Z.shiftl (-1) mcpuShift) with (-1).
  split_word v.
  replace (v + -1)
    with ((a - 1) + 2 ^ 15 * b + 2 ^ 30 * c + 2 ^ 31 * d + 2 ^ 32 * e) by lia.
  destruct (uint32_fields (a - 1) b c d e) as (-> & -> & -> & ->); lia.
Qed.

Lemma xadd_gwaiting_up v :
  let w := xadd v (Z.shiftl 1 gwaitingShift) in
  atomic_mcpu w = atomic_mcpu v /\
  atomic_mcpumax w = atomic_mcpumax v /\
  atomic_waitstop w = atomic_waitstop v /\
  atomic_gwaiting w = 1 - atomic_gwaiting v.
Proof.
  intros w. subst w. unfold xadd.
  change (Z.shiftl 1 gwaitingShift) with (2 ^ 31).
  split_word v.
  replace (v + 2 ^ 31)
    with (a + 2 ^ 15 * b + 2 ^ 30 * c + 2 ^ 31 * (1 - d) + 2 ^ 32 * (e + d))
    by lia.
  destruct (uint32_fields a b c (1 - d) (e + d)) as (-> & -> & -> & ->); lia.
Qed.

Lemma xadd_gwaiting_down v :
  let w := xadd v (Z.shiftl (-1) gwaitingShift) in
  atomic_mcpu w = atomic_mcpu v /\
  atomic_mcpumax w = atomic_mcpumax v /\
  atomic_waitstop w = atomic_waitstop v /\
  atomic_gwaiting w = 1 - atomic_gwaiting v.
Proof.
  intros w. subst w. unfold xadd.
  change (Z.shiftl (-1) gwaitingShift) with (- 2 ^ 31).
  split_word v.
  replace (v + - 2 ^ 31)
    with (a + 2 ^ 15 * b + 2 ^ 30 * c + 2 ^ 31 * (1 - d) + 2 ^ 32 * (e + d - 1))
    by lia.
  destruct (uint32_fields a b c (1 - d) (e + d - 1)) as (-> & -> & -> & ->);
    lia.
Qed.

Lemma xadd_waitstop_down v :
  atomic_waitstop v = 1 ->
  let w := xadd v (Z.shiftl (-1) waitstopShift) in
  atomic_mcpu w = atomic_mcpu v /\
  atomic_mcpumax w = atomic_mcpumax v /\
  atomic_waitstop w = 0 /\
  atomic_gwaiting w = atomic_gwaiting v.
Proof.
  intros Hw w. subst w. unfold xadd.
  change (Z.shiftl (-1) waitstopShift) with (- 2 ^ 30).
  split_word v.
  replace (v + - 2 ^ 30)
    with (a + 2 ^ 15 * b + 2 ^ 30 * 0 + 2 ^ 31 * d + 2 ^ 32 * e) by lia.
  destruct (uint32_fields a b 0 d e) as (-> & -> & -> & ->); lia.
Qed.

Lemma xadd_uint32 v delta : is_uint32 (xadd v delta).
Proof. apply uint32_range. Qed.

Lemma xadd_incr_decr v :
  is_uint32 v ->
  xadd (xadd v (Z.shiftl 1 mcpuShift)) (Z.shiftl (-1) mcpuShift) = v.
Proof.
  intros Hv. change (Z.shiftl 1 mcpuShift) with 1.
  change (Z.shiftl (-1) mcpuShift) with (-1). divmod.
Qed.

(** *** [setmcpumax], bit by bit *)

Lemma setmcpumax_word_testbit n v i :
  0 <= i ->
  Z.testbit (setmcpumax_word n v) i =
  (Z.testbit v i && negb ((15 <=? i) && (i <? 30)))
  || ((15 <=? i) && (i <? 32) && Z.testbit n (i - 15)).
Proof.
  intros Hi. unfold setmcpumax_word, uint32.
  change (2 ^ 32) with (2 ^ 32). rewrite <- Z.land_ones by lia.
  rewrite Z.lor_spec, !Z.land_spec, Z.lnot_spec by lia.
  change mcpuMask with (Z.ones 15). change mcpumaxShift with 15.
  rewrite Z.testbit_ones by lia.
  destruct (Z.leb_spec 15 i) as [H15 | H15].
  - rewrite !Z.shiftl_spec by lia. rewrite Z.testbit_ones by lia.
    destruct (Z.ltb_spec i 30), (Z.ltb_spec i 32), (Z.leb_spec 0 i),
      (Z.leb_spec 0 (i - 15)), (Z.ltb_spec (i - 15) 15),
      (Z.testbit v i), (Z.testbit n (i - 15)); simpl; try reflexivity; lia.
  - rewrite !(Z.shiftl_spec_low _ 15 i) by lia.
    destruct (Z.testbit v i), (Z.leb_spec 0 i), (Z.ltb_spec i 32);
      simpl; try reflexivity; lia.
Qed.

Lemma field_testbit v sh w i :
  0 <= sh -> 0 <= w -> 0 <= i ->
  Z.testbit (Z.land (Z.shiftr v sh) (Z.ones w)) i =
  Z.testbit v (i + sh) && (i <? w).
Proof.
  intros Hs Hw Hi. rewrite Z.land_spec, Z.shiftr_spec, Z.testbit_ones by lia.
  destruct (Z.leb_spec 0 i); [reflexivity | lia].
Qed.

Lemma setmcpumax_word_mcpumax n v :
  atomic_mcpumax (setmcpumax_word n v) = n mod 2 ^ 15.
Proof.
  rewrite <- Z.land_ones by lia.
  apply Z.bits_inj'. intros i Hi. unfold atomic_mcpumax.
  change mcpuMask with (Z.ones 15). change mcpumaxShift with 15.
  rewrite field_testbit, setmcpumax_word_testbit by lia.
  rewrite Z.land_spec, Z.testbit_ones by lia.
  replace (i + 15 - 15) with i by lia.
  destruct (Z.ltb_spec i 15), (Z.leb_spec 15 (i + 15)), (Z.leb_spec 0 i),
    (Z.ltb_spec (i + 15) 30), (Z.ltb_spec (i + 15) 32),
    (Z.testbit v (i + 15)), (Z.testbit n i); simpl; try reflexivity; lia.
Qed.

Lemma setmcpumax_word_mcpu n v :
  atomic_mcpu (setmcpumax_word n v) = atomic_mcpu v.
Proof.
  apply Z.bits_inj'. intros i Hi. unfold atomic_mcpu.
  change mcpuMask with (Z.ones 15). change mcpuShift with 0.
  rewrite !field_testbit, setmcpumax_word_testbit by lia.
  destruct (Z.ltb_spec i 15), (Z.leb_spec 15 (i + 0)),
    (Z.ltb_spec (i + 0) 30), (Z.ltb_spec (i + 0) 32),
    (Z.testbit v (i + 0)), (Z.testbit n (i + 0 - 15));
    simpl; try reflexivity; lia.
Qed.

(** A cap that fits the field leaves the two flags alone. *)
Lemma setmcpumax_word_flags n v :
  0 <= n < 2 ^ 15 ->
  atomic_waitstop (setmcpumax_word n v) = atomic_waitstop v /\
  atomic_gwaiting (setmcpumax_word n v) = atomic_gwaiting v.
Proof.
  intros Hn.
  assert (Hhi : forall j, 15 <= j -> Z.testbit n j = false).
  { intros j Hj. destruct (Z.eq_dec n 0) as [-> | Hne].
    - apply Z.testbit_0_l.
    - apply Z.bits_above_log2; [lia |].
      assert (Z.log2 n < 15) by (apply Z.log2_lt_pow2; lia). lia. }
  split; apply Z.bits_inj'; intros i Hi;
    unfold atomic_waitstop, atomic_gwaiting;
    change 1 with (Z.ones 1);
    change waitstopShift with 30; change gwaitingShift with 31;
    rewrite !field_testbit, setmcpumax_word_testbit by lia;
    destruct (Z.ltb_spec i 1); rewrite ?andb_false_r; try reflexivity;
    replace i with 0 by lia; cbn -[Z.testbit]; rewrite Hhi by lia;
    now rewrite ?andb_true_r, ?orb_false_r.
Qed.

(** A negative cap, converted to [uint32], spills into both flags. *)
Lemma setmcpumax_word_negative n v :
  - 2 ^ 15 <= n < 0 ->
  atomic_waitstop (setmcpumax_word (uint32 n) v) = 1 /\
  atomic_gwaiting (setmcpumax_word (uint32 n) v) = 1.
Proof.
  intros Hn.
  assert (Hhi : forall j, 15 <= j < 32 -> Z.testbit (uint32 n) j = true).
  { intros j Hj. unfold uint32. rewrite <- Z.land_ones by lia.
    rewrite Z.land_spec, Z.testbit_ones by lia.
    replace (Z.testbit n j) with true.
    - destruct (Z.leb_spec 0 j), (Z.ltb_spec j 32); simpl; try reflexivity; lia.
    - symmetry. apply Z.bits_above_log2_neg; [lia |].
      assert (Z.log2 (Z.pred (- n)) < 15); [| lia].
      destruct (Z.eq_dec (Z.pred (- n)) 0) as [-> | Hne]; [simpl; lia |].
      apply Z.log2_lt_pow2; lia. }
  split; apply Z.bits_inj'; intros i Hi;
    unfold atomic_waitstop, atomic_gwaiting;
    change 1 with (Z.ones 1);
    change waitstopShift with 30; change gwaitingShift with 31;
    rewrite !field_testbit, setmcpumax_word_testbit by lia;
    rewrite Z.testbit_ones by lia;
    destruct (Z.ltb_spec i 1), (Z.leb_spec 0 i); simpl;
    rewrite ?andb_false_r; try reflexivity; try lia;
    replace i with 0 by lia; cbn -[Z.testbit uint32]; rewrite Hhi by lia;
    now rewrite ?orb_true_r.
Qed.

Lemma setmcpumax_word_range n v :
  is_uint32 v -> is_uint32 (setmcpumax_word n v).
Proof.
  intros Hv. unfold is_uint32.
  assert (H0 : 0 <= setmcpumax_word n v).
  { unfold setmcpumax_word. apply Z.lor_nonneg. split.
    - apply Z.land_nonneg. left. apply Hv.
    - apply Z.mod_pos_bound. lia. }
  split; [exact H0 |].
  destruct (Z.eq_dec (setmcpumax_word n v) 0) as [-> | Hne]; [lia |].
  apply Z.log2_lt_pow2; [lia |].
  assert (Hb : forall j, 32 <= j -> Z.testbit (setmcpumax_word n v) j = false).
  { intros j Hj. rewrite setmcpumax_word_testbit by lia.
    replace (Z.testbit v j) with false.
    - destruct (Z.leb_spec 15 j), (Z.ltb_spec j 32); simpl; try reflexivity; lia.
    - symmetry. destruct (Z.eq_dec v 0) as [-> | Hv0]; [apply Z.testbit_0_l |].
      unfold is_uint32 in Hv.
      apply Z.bits_above_log2; [lia |].
      assert (Z.log2 v < 32) by (apply Z.log2_lt_pow2; lia). lia. }
  destruct (Z.lt_ge_cases (Z.log2 (setmcpumax_word n v)) 32) as [? | Hge];
    [assumption |].
  specialize (Hb _ Hge). rewrite Z.bit_log2 in Hb by lia. discriminate.
Qed.

(** * Reasoning about the scheduler code *)

Import Sched Inv.

Lemma ensures_bind {A B : Type} (r : result A) (f : A -> Sch B)
    (Q1 : A -> State -> Prop) (Q : B -> State -> Prop) (E : State -> Prop) :
  ensures Q1 E r ->
  (forall a s', Q1 a s' -> ensures Q E (f a s')) ->
  ensures Q E (bind r f).
Proof.
  intros Hc Hf. destruct r; cbn [bind ensures] in *; auto; contradiction.
Qed.

Lemma ensures_weaken {A : Type} (Q Q' : A -> State -> Prop)
    (E E' : State -> Prop) (r : result A) :
  ensures Q E r ->
  (forall a s, Q a s -> Q' a s) -> (forall s, E s -> E' s) ->
  ensures Q' E' r.
Proof. destruct r; cbn; auto. Qed.

Lemma ensures_when (b : bool) (c : Sch unit) s Q E :
  (b = true -> ensures Q E (c s)) ->
  (b = false -> Q tt s) ->
  ensures Q E (when b c s).
Proof. destruct b; cbn; auto. Qed.

(** A call that returns: [ensures] with nothing allowed but [Ok]. *)
Lemma ensures_ok {A : Type} (Q : A -> State -> Prop) (r : result A) :
  ensures Q (fun _ => False) r -> exists a s, r = Ok a s /\ Q a s.
Proof. destruct r; cbn; try contradiction. eauto. Qed.

(** Evaluation of the straight-line part of a function. *)
Ltac state :=
  cbn [gs ms gfree goidgen ghead gwait gcount grunning mhead mwait mcount
       atomic predawn profilehz mwakeup gomaxprocs singleproc gcwaiting trace
       set_gs set_ms set_gfree set_ghead set_gwait set_gcount set_grunning
       set_mhead set_mwait set_mcount set_atomic set_predawn set_mwakeup
       set_gomaxprocs set_singleproc set_gcwaiting set_trace emit_event
       status gm lockedm idlem readyonstop stackbase stackguard stack0 spine
       sched_sp gcsp gcstack gcguard
       set_status set_gm set_lockedm set_idlem set_readyonstop set_stackbase
       set_stackguard set_stack0 set_spine set_sched_sp set_gcsp set_gcstack
       set_gcguard
       m_id g0 curg nextg waitnextg idleg lockedg m_profilehz mallocing gcing
       locks nomemprof
       set_m_id set_g0 set_curg set_nextg set_waitnextg set_idleg set_lockedg
       set_m_profilehz set_nomemprof].

Ltac state_in H :=
  cbn [gs ms gfree goidgen ghead gwait gcount grunning mhead mwait mcount
       atomic predawn profilehz mwakeup gomaxprocs singleproc gcwaiting trace
       set_gs set_ms set_gfree set_ghead set_gwait set_gcount set_grunning
       set_mhead set_mwait set_mcount set_atomic set_predawn set_mwakeup
       set_gomaxprocs set_singleproc set_gcwaiting set_trace emit_event
       status gm lockedm idlem readyonstop stackbase stackguard stack0 spine
       sched_sp gcsp gcstack gcguard
       set_status set_gm set_lockedm set_idlem set_readyonstop set_stackbase
       set_stackguard set_stack0 set_spine set_sched_sp set_gcsp set_gcstack
       set_gcguard
       m_id g0 curg nextg waitnextg idleg lockedg m_profilehz mallocing gcing
       locks nomemprof
       set_m_id set_g0 set_curg set_nextg set_waitnextg set_idleg set_lockedg
       set_m_profilehz set_nomemprof] in H.

(** Two states built from the same one by different chains of writes. *)
Ltac same_state s :=
  destruct s;
  cbv [gs ms gfree goidgen ghead gwait gcount grunning mhead mwait mcount
       atomic predawn profilehz mwakeup gomaxprocs singleproc gcwaiting trace
       set_gs set_ms set_gfree set_ghead set_gwait set_gcount set_grunning
       set_mhead set_mwait set_mcount set_atomic set_predawn set_mwakeup
       set_gomaxprocs set_singleproc set_gcwaiting set_trace emit_event];
  f_equal.

Ltac run1 :=
  unfold mbind, Sch_bind, mret, Sch_ret;
  cbn [bind get modify throw emit when atomicload xadd_atomic setmcpumax
       exit_process ensures negb andb orb is_nil].

Ltac run := run1; run1; state; try (progress run1; state).

Lemma readG_some g x s : gs s !! g = Some x -> readG g s = Ok x s.
Proof. unfold readG. now intros ->. Qed.

Lemma readM_some m x s : ms s !! m = Some x -> readM m s = Ok x s.
Proof. unfold readM. now intros ->. Qed.

Lemma modifyG_some g x f s :
  gs s !! g = Some x -> modifyG g f s = Ok tt (set_gs (<[g := f x]> (gs s)) s).
Proof. unfold modifyG. now intros ->. Qed.

Lemma modifyM_some m x f s :
  ms s !! m = Some x -> modifyM m f s = Ok tt (set_ms (<[m := f x]> (ms s)) s).
Proof. unfold modifyM. now intros ->. Qed.

Lemma ensures_readG g s (Q : G -> State -> Prop) E :
  (forall x, gs s !! g = Some x -> Q x s) ->
  (gs s !! g = None -> E s) ->
  ensures Q E (readG g s).
Proof. unfold readG. destruct (gs s !! g); cbn; auto. Qed.

Lemma ensures_readM m s (Q : M -> State -> Prop) E :
  (forall x, ms s !! m = Some x -> Q x s) ->
  (ms s !! m = None -> E s) ->
  ensures Q E (readM m s).
Proof. unfold readM. destruct (ms s !! m); cbn; auto. Qed.

Lemma ensures_modifyG g f s (Q : unit -> State -> Prop) E :
  (forall x, gs s !! g = Some x -> Q tt (set_gs (<[g := f x]> (gs s)) s)) ->
  (gs s !! g = None -> E s) ->
  ensures Q E (modifyG g f s).
Proof. unfold modifyG. destruct (gs s !! g); cbn; auto. Qed.

Lemma ensures_modifyM m f s (Q : unit -> State -> Prop) E :
  (forall x, ms s !! m = Some x -> Q tt (set_ms (<[m := f x]> (ms s)) s)) ->
  (ms s !! m = None -> E s) ->
  ensures Q E (modifyM m f s).
Proof. unfold modifyM. destruct (ms s !! m); cbn; auto. Qed.

Lemma set_gs_idem x y s : set_gs x (set_gs y s) = set_gs x s.
Proof. reflexivity. Qed.

Lemma set_ms_idem x y s : set_ms x (set_ms y s) = set_ms x s.
Proof. reflexivity. Qed.

(** Reads and writes through pointers known to be valid. *)
Ltac lookup :=
  state;
  first [ eassumption
        | apply lookup_insert_eq
        | rewrite lookup_insert_ne by congruence; lookup ].

Ltac deref :=
  match goal with
  | |- context [modifyM ?m ?f ?S] => erewrite (modifyM_some m _ f S) by lookup
  | |- context [modifyG ?g ?f ?S] => erewrite (modifyG_some g _ f S) by lookup
  | |- context [readM ?m ?S] => erewrite (readM_some m _ S) by lookup
  | |- context [readG ?g ?S] => erewrite (readG_some g _ S) by lookup
  end.

Ltac runs :=
  run; repeat (deref; run; rewrite ?set_gs_idem, ?set_ms_idem).

(** [uint32] after [int32] and the like. *)
Lemma uint32_mod15 n : uint32 n mod 2 ^ 15 = n mod 2 ^ 15.
Proof. unfold uint32. Z.div_mod_to_equations. lia. Qed.

Lemma int32_id z : is_int32 z -> int32 z = z.
Proof. unfold is_int32, int32. intros. Z.div_mod_to_equations. lia. Qed.

(** * Frames *)

Import Inv.

Section Keeps.
Context (R : State -> State -> Prop) `{!PreOrder R}.

Let R_refl : forall s, R s s := fun s => reflexivity s.
Let R_trans : forall s1 s2 s3, R s1 s2 -> R s2 s3 -> R s1 s3 :=
  fun s1 s2 s3 H12 H23 => transitivity H12 H23.

Lemma keeps_bind {A B : Type} (c : Sch A) (f : A -> Sch B) :
  keeps R c -> (forall a, keeps R (f a)) -> keeps R (c ≫= f).
Proof.
  intros Hc Hf s. unfold mbind, Sch_bind.
  eapply ensures_bind; [apply Hc |]. cbn beta. intros a s' Hs.
  eapply ensures_weaken; [apply Hf | |]; cbn beta; eauto.
Qed.

Lemma keeps_ret {A : Type} (a : A) : keeps R (mret a).
Proof. intros s. cbn. apply R_refl. Qed.

Lemma keeps_get : keeps R get.
Proof. intros s. cbn. apply R_refl. Qed.

Lemma keeps_throw {A : Type} msg : keeps R (@throw A msg).
Proof. intros s. cbn. apply R_refl. Qed.

Lemma keeps_modify (f : State -> State) :
  (forall s, R s (f s)) -> keeps R (modify f).
Proof. intros Hf s. cbn. apply Hf. Qed.

Lemma keeps_readG g : keeps R (readG g).
Proof. intros s. apply ensures_readG; intros; apply R_refl. Qed.

Lemma keeps_readM m : keeps R (readM m).
Proof. intros s. apply ensures_readM; intros; apply R_refl. Qed.

Lemma keeps_modifyG g f :
  (forall s x, R s (set_gs x s)) -> keeps R (modifyG g f).
Proof. intros Hf s. apply ensures_modifyG; intros; auto. Qed.

Lemma keeps_modifyM m f :
  (forall s x, R s (set_ms x s)) -> keeps R (modifyM m f).
Proof. intros Hf s. apply ensures_modifyM; intros; auto. Qed.

Lemma keeps_when (b : bool) (c : Sch unit) :
  keeps R c -> keeps R (when b c).
Proof. intros Hc. destruct b; [exact Hc | apply keeps_ret]. Qed.

Lemma keeps_atomicload : keeps R atomicload.
Proof. intros s. cbn. apply R_refl. Qed.

(** Carrying a relation to the state a block started in through a
    sequence. *)
Lemma ensures_keeps_bind {A B : Type} (c : Sch A) (f : A -> Sch B)
    (s0 s : State) (Q : B -> State -> Prop) (E : State -> Prop) :
  R s0 s -> keeps R c ->
  (forall s', R s0 s' -> E s') ->
  (forall a s', R s0 s' -> ensures Q E (f a s')) ->
  ensures Q E (bind (c s) f).
Proof.
  intros Hs Hc HE Hf. eapply ensures_bind.
  - eapply ensures_weaken; [apply Hc | |]; cbn beta.
    + intros a s' Hs'. instantiate (1 := fun _ s' => R s0 s'). cbn beta.
      eapply R_trans; eassumption.
    + intros s' Hs'. apply HE. eapply R_trans; eassumption.
  - cbn beta. exact Hf.
Qed.

End Keeps.

(** One step of a structural proof that a function keeps a relation
    that the heap does not enter. *)
Ltac keeps_step :=
  lazymatch goal with
  | |- keeps _ (mbind _ _) => apply keeps_bind; [exact _ | | intros ?]
  | |- keeps _ (mret _) => apply keeps_ret; exact _
  | |- keeps _ get => apply keeps_get; exact _
  | |- keeps _ (throw _) => apply keeps_throw; exact _
  | |- keeps _ (readG _) => apply keeps_readG; exact _
  | |- keeps _ (readM _) => apply keeps_readM; exact _
  | |- keeps _ atomicload => apply keeps_atomicload; exact _
  | |- keeps _ (when _ _) => apply keeps_when; [exact _ |]
  | |- keeps _ (match ?x with _ => _ end) => destruct x
  end.

Lemma frame_refl s : frame s s.
Proof.
  split; auto. exists []. split; [now rewrite app_nil_r | constructor].
Qed.

Lemma frame_trans s1 s2 s3 : frame s1 s2 -> frame s2 s3 -> frame s1 s3.
Proof.
  intros [A1 B1 C1 D1 (t1 & E1 & F1)] [A2 B2 C2 D2 (t2 & E2 & F2)].
  split; try congruence.
  - rewrite A1 in C2. lia.
  - exists (t1 ++ t2). split.
    + now rewrite E2, E1, app_assoc.
    + apply Forall_app. auto.
Qed.

#[export] Instance frame_preorder : PreOrder frame.
Proof. split; [exact frame_refl | exact frame_trans]. Qed.

Lemma cap_frame_refl s : cap_frame s s.
Proof. now split. Qed.

Lemma cap_frame_trans s1 s2 s3 :
  cap_frame s1 s2 -> cap_frame s2 s3 -> cap_frame s1 s3.
Proof. unfold cap_frame. intuition congruence. Qed.

#[export] Instance cap_frame_preorder : PreOrder cap_frame.
Proof. split; [exact cap_frame_refl | exact cap_frame_trans]. Qed.

Lemma frame_cap s s' : frame s s' -> cap_frame s s'.
Proof. intros []. now split. Qed.

(** A change that touches neither the atomic word, the cap nor the
    trace. *)
Lemma frame_quiet s s' :
  atomic s' = atomic s -> gomaxprocs s' = gomaxprocs s ->
  trace s' = trace s -> frame s s'.
Proof.
  intros Ha Hg Ht. split; rewrite ?Ha; auto.
  exists []. split; [now rewrite Ht, app_nil_r | constructor].
Qed.

Lemma frame_emit s e : handoff_event e -> frame s (emit_event e s).
Proof.
  intros He. split; state; auto. exists [e]. split; [reflexivity |].
  now constructor.
Qed.

Lemma frame_gwaiting_flip s delta :
  delta = Z.shiftl 1 gwaitingShift \/ delta = Z.shiftl (-1) gwaitingShift ->
  frame s (set_atomic (xadd (atomic s) delta) s).
Proof.
  intros [-> | ->];
    [destruct (xadd_gwaiting_up (atomic s)) as (Ha & Hb & Hc & _)
    | destruct (xadd_gwaiting_down (atomic s)) as (Ha & Hb & Hc & _)];
    split; state; auto;
    exists []; (split; [now rewrite app_nil_r | constructor]).
Qed.

Lemma xadd_gwaiting_frame delta :
  delta = Z.shiftl 1 gwaitingShift \/ delta = Z.shiftl (-1) gwaitingShift ->
  keeps frame (xadd_atomic delta).
Proof. intros Hd s. cbn. now apply frame_gwaiting_flip. Qed.

(** Writes that a relation on the scheduler fields does not see. *)
Ltac keeps_write tac :=
  lazymatch goal with
  | |- keeps _ (modify _) => apply keeps_modify; tac
  | |- keeps _ (emit _) => apply keeps_modify; tac
  | |- keeps _ (modifyG _ _) => apply keeps_modifyG; [exact _ | tac]
  | |- keeps _ (modifyM _ _) => apply keeps_modifyM; [exact _ | tac]
  end.

Ltac quiet := intros; apply frame_quiet; reflexivity.
Ltac keeps_frame := repeat keeps_step; try keeps_write quiet.

(** ** Matching keeps the frame *)

Section MatchFrame.
Context `{Platform}.

Lemma canaddmcpu_frame : keeps frame canaddmcpu.
Proof.
  intros s. unfold canaddmcpu. cbn [canaddmcpu_loop].
  destruct (Z.geb_spec (atomic_mcpu (atomic s)) (atomic_mcpumax (atomic s)))
    as [Hge | Hlt]; cbn.
  - apply frame_quiet; reflexivity.
  - destruct (xadd_incr (atomic s)) as (Ha & Hb & Hc & Hd).
    { pose proof (mcpumax_range (atomic s)). lia. }
    unfold xadd in *. split; state; auto.
    + right. lia.
    + exists []. split; [now rewrite app_nil_r | constructor].
Qed.

(** A successful [canaddmcpu] found [mcpu] below the cap and added one. *)
Lemma canaddmcpu_true s :
  ensures
    (fun b s' =>
       frame s s' /\
       (b = true ->
        atomic_mcpu (atomic s) < atomic_mcpumax (atomic s) /\
        atomic_mcpu (atomic s') = atomic_mcpu (atomic s) + 1))
    (frame s) (canaddmcpu s).
Proof.
  pose proof (canaddmcpu_frame s) as Hf.
  unfold canaddmcpu in *. cbn [canaddmcpu_loop] in *.
  destruct (Z.geb_spec (atomic_mcpu (atomic s)) (atomic_mcpumax (atomic s)))
    as [Hge | Hlt]; cbn in *.
  - split; [exact Hf | discriminate].
  - split; [exact Hf |]. intros _. split; [lia |].
    destruct (xadd_incr (atomic s)) as (Ha & _).
    { pose proof (mcpumax_range (atomic s)). lia. }
    exact Ha.
Qed.

Lemma mnextg_frame m g : keeps frame (mnextg m g).
Proof.
  unfold mnextg. keeps_frame.
  apply keeps_modify. intros. now apply frame_emit.
Qed.

Lemma haveg_frame me : keeps frame (haveg me).
Proof. unfold haveg. repeat keeps_step. Qed.

Lemma gget_frame me : keeps frame (gget me).
Proof.
  unfold gget. keeps_frame.
  apply xadd_gwaiting_frame. now right.
Qed.

Lemma mget_frame g : keeps frame (mget g).
Proof. unfold mget. keeps_frame. Qed.

Lemma mput_frame m : keeps frame (mput m).
Proof. unfold mput. keeps_frame. Qed.

Lemma newm_frame : keeps frame newm.
Proof.
  unfold newm, mcommoninit. keeps_frame;
    apply keeps_modify; intros; now apply frame_emit.
Qed.

Lemma gput_frame g : keeps frame (gput g).
Proof.
  unfold gput, gput_idle, gput_fifo. keeps_frame;
    try apply canaddmcpu_frame; try apply mnextg_frame;
    apply xadd_gwaiting_frame; now left.
Qed.

End MatchFrame.

Section MatchLoop.
Context `{Platform}.

Lemma frame_gap s s' : frame s s' -> gap s' <= gap s.
Proof. intros [A _ C _ _]. unfold gap. lia. Qed.

Lemma loop_fuel_enough s : Z.max 0 (gap s) < Z.of_nat (loop_fuel s).
Proof. unfold loop_fuel, gap. lia. Qed.

Lemma matchmg_loop_frame (me : nat) (fuel : nat) (s : State) :
  Z.max 0 (gap s) < Z.of_nat fuel ->
  ensures (fun _ s' => frame s s') (frame s) (matchmg_loop fuel me s).
Proof.
  revert s. induction fuel as [| fuel IH]; intros s Hfuel; [lia |].
  cbn [matchmg_loop]. unfold mbind at 1, Sch_bind at 1.
  eapply ensures_bind; [apply haveg_frame |]. cbn beta.
  intros [|] s1 F1; cbn [negb]; [| exact F1].
  unfold mbind at 1, Sch_bind at 1.
  eapply ensures_bind.
  { eapply ensures_weaken; [apply canaddmcpu_true | |]; cbn beta.
    - intros b s2 [F2 Hb]. instantiate (1 := fun b s2 =>
        frame s s2 /\ (b = true -> gap s2 <= gap s - 1 /\ 0 < gap s)).
      cbn beta. split; [etransitivity; eassumption |].
      intros Hb'. destruct (Hb Hb') as [Hlt Hinc].
      pose proof (frame_gap _ _ F1). destruct F2 as [A _ _ _ _].
      unfold gap in *. lia.
    - intros s2 F2. etransitivity; eassumption. }
  cbn beta. intros [|] s2 [F2 Hgap]; cbn [negb]; [| exact F2].
  destruct (Hgap eq_refl) as [Hle Hpos].
  assert (Hrest : forall s3, frame s2 s3 ->
            ensures (fun _ s' => frame s s') (frame s)
              (matchmg_loop fuel me s3)).
  { intros s3 F3. eapply ensures_weaken.
    - apply IH. pose proof (frame_gap _ _ F3). lia.
    - cbn beta. intros _ s4 F4. etransitivity; [exact F2 |].
      etransitivity; eassumption.
    - cbn beta. intros s4 F4. etransitivity; [exact F2 |].
      etransitivity; eassumption. }
  assert (Hkeep : forall s3, frame s2 s3 -> frame s s3).
  { intros s3 F3. etransitivity; eassumption. }
  unfold mbind at 1, Sch_bind at 1.
  eapply ensures_bind.
  { eapply ensures_weaken; [apply gget_frame | |]; cbn beta.
    - intros og s3 F3. instantiate (1 := fun _ s3 => frame s2 s3). exact F3.
    - auto. }
  cbn beta. intros [g |] s3 F3; [| cbn; auto].
  unfold mbind at 1, Sch_bind at 1.
  eapply ensures_bind.
  { eapply ensures_weaken; [apply mget_frame | |]; cbn beta.
    - intros om s4 F4. instantiate (1 := fun _ s4 => frame s2 s4).
      cbn beta. etransitivity; eassumption.
    - intros s4 F4. apply Hkeep. etransitivity; eassumption. }
  cbn beta. intros om s4 F4.
  unfold mbind at 1, Sch_bind at 1.
  eapply ensures_bind.
  { instantiate (1 := fun _ s5 => frame s2 s5).
    destruct om as [m |].
    - cbn. exact F4.
    - eapply ensures_weaken; [apply newm_frame | |]; cbn beta.
      + intros m s5 F5. etransitivity; eassumption.
      + intros s5 F5. apply Hkeep. etransitivity; eassumption. }
  cbn beta. intros m s5 F5.
  unfold mbind at 1, Sch_bind at 1.
  eapply ensures_bind.
  { eapply ensures_weaken; [apply mnextg_frame | |]; cbn beta.
    - intros u s6 F6. instantiate (1 := fun _ s6 => frame s2 s6).
      cbn beta. etransitivity; eassumption.
    - intros s6 F6. apply Hkeep. etransitivity; eassumption. }
  cbn beta. intros _ s6 F6. now apply Hrest.
Qed.

Lemma matchmg_frame (me : nat) : keeps frame (matchmg me).
Proof.
  intros s. unfold matchmg. unfold mbind at 1, Sch_bind at 1.
  eapply ensures_bind; [apply keeps_readM; exact _ |]. cbn beta.
  intros mr s1 F1.
  destruct (nonzero (mallocing mr) || nonzero (gcing mr)); [exact F1 |].
  run. eapply ensures_weaken.
  - apply matchmg_loop_frame, loop_fuel_enough.
  - cbn beta. intros _ s2 F2. etransitivity; eassumption.
  - cbn beta. intros s2 F2. etransitivity; eassumption.
Qed.

Lemma readylocked_frame (me g : nat) : keeps frame (readylocked me g).
Proof.
  unfold readylocked. keeps_frame;
    first [apply gput_frame | apply matchmg_frame].
Qed.

End MatchLoop.

(** * [canaddmcpu] *)

(** C4.  Whatever other threads store between the loads and the [cas] of
    [canaddmcpu], let [d] be the word it decides on (the last one it
    loads).  When [mcpu d < mcpumax d] the call reports success and
    stores a word whose [mcpu] is one more than that of [d], with
    [mcpumax], [waitstop] and [gwaiting] as in [d]; when
    [mcpu d >= mcpumax d] it reports failure and leaves [d] in place.
    With [env = []] this is the call of a thread that runs alone. *)
Theorem canaddmcpu_decides (env : list Z) (v : Z) :
  let d := canaddmcpu_decision env v in
  (atomic_mcpu d < atomic_mcpumax d ->
   exists w, canaddmcpu_loop env v = (true, w) /\
     w = xadd d 1 /\
     atomic_mcpu w = atomic_mcpu d + 1 /\
     atomic_mcpumax w = atomic_mcpumax d /\
     atomic_waitstop w = atomic_waitstop d /\
     atomic_gwaiting w = atomic_gwaiting d) /\
  (atomic_mcpu d >= atomic_mcpumax d -> canaddmcpu_loop env v = (false, d)).
Proof.
  revert v. induction env as [| c env IH]; intros v; cbn zeta.
  - cbn [canaddmcpu_decision canaddmcpu_loop].
    destruct (Z.geb_spec (atomic_mcpu v) (atomic_mcpumax v)) as [Hge | Hlt].
    + split; [lia | reflexivity].
    + split; [| lia]. intros _. eexists. split; [reflexivity |].
      split; [reflexivity |].
      apply xadd_incr. pose proof (mcpumax_range v). lia.
  - cbn [canaddmcpu_decision canaddmcpu_loop].
    destruct (Z.geb_spec (atomic_mcpu v) (atomic_mcpumax v)) as [Hge | Hlt].
    + split; [lia | reflexivity].
    + destruct (Z.eqb_spec c v) as [-> | Hne].
      * split; [| lia]. intros _. eexists. split; [reflexivity |].
        split; [reflexivity |].
        apply xadd_incr. pose proof (mcpumax_range v). lia.
      * apply IH.
Qed.

(** The same call on the scheduler state, for a thread that runs alone. *)
Lemma canaddmcpu_ok (s : Sched.State) :
  atomic_mcpu (Sched.atomic s) < atomic_mcpumax (Sched.atomic s) ->
  Sched.canaddmcpu s =
  Sched.Ok true (Sched.set_atomic (xadd (Sched.atomic s) 1) s).
Proof.
  intros Hlt. unfold Sched.canaddmcpu. cbn [canaddmcpu_loop].
  destruct (Z.geb_spec (atomic_mcpu (Sched.atomic s))
              (atomic_mcpumax (Sched.atomic s))); [lia | reflexivity].
Qed.

Lemma canaddmcpu_full (s : Sched.State) :
  atomic_mcpu (Sched.atomic s) >= atomic_mcpumax (Sched.atomic s) ->
  Sched.canaddmcpu s = Sched.Ok false s.
Proof.
  intros Hge. unfold Sched.canaddmcpu. cbn [canaddmcpu_loop].
  destruct (Z.geb_spec (atomic_mcpu (Sched.atomic s))
              (atomic_mcpumax (Sched.atomic s))); [| lia].
  now destruct s.
Qed.

(** * [schedinit] *)

Section Schedinit.
Context `{Platform}.


End Schedinit.

(** * [newstack] *)

Section Newstack.
Context `{Platform}.
Variable lessstack : Z.

Import Stack.

(** C7, as the code has it.  When [newstack] allocates (it does not throw
    and is not in the in-place case of a reflect call), the size it asks
    of the allocator is [max StackMin (frame + args + StackExtra) +
    StackSystem], where [frame] is the requested frame size, read as 0
    when it is the reflect-call mark 1; the [free] field of the header
    records that size.  [StackExtra] is inside the maximum. *)
Theorem newstack_segment_size (m : More) (g : Gstack) :
  let frame := if moreframesize m =? 1 then 0 else moreframesize m in
  let args := moreargsize m in
  let size := Z.max StackMin (frame + args + StackExtra) + StackSystem in
  stackguard g - StackGuard <= gobuf_sp (morebuf m) ->
  args mod sizeof_uintptr = 0 ->
  ~ (moreframesize m = 1 /\
     gobuf_sp (morebuf m) - sizeof_Stktop - args - 32 > stackguard g) ->
  0 <= frame -> 0 <= args -> 0 <= StackExtra -> 0 <= StackSystem ->
  0 <= StackMin -> size < 2 ^ 31 -> 4 <= sizeof_uintptr ->
  exists r,
    newstack lessstack m g = Resumed r /\
    allocated r = Some size /\
    top_free (header r) = size /\
    top r = stackalloc size + size - sizeof_Stktop.
Proof.
  intros frame args size Hsp Hal Hin Hf Ha He Hs Hm Hlt Hw.
  assert (Hsz : segment_size frame args = size).
  { unfold segment_size, size.
    rewrite (int32_id (frame + args)) by (unfold is_int32; lia).
    rewrite (int32_id (frame + args + StackExtra)) by (unfold is_int32; lia).
    destruct (Z.ltb_spec (frame + args + StackExtra) StackMin).
    - rewrite Z.max_l by lia. apply int32_id. unfold is_int32. lia.
    - rewrite Z.max_r by lia. apply int32_id. unfold is_int32. lia. }
  assert (Hup : uintptr size = size).
  { unfold uintptr. apply Z.mod_small. split; [lia |].
    apply Z.lt_le_trans with (2 ^ 32); [lia |].
    apply Z.pow_le_mono_r; lia. }
  unfold newstack. fold args.
  destruct (Z.ltb_spec (gobuf_sp (morebuf m)) (stackguard g - StackGuard));
    [lia |].
  rewrite Hal. cbn [Z.eqb negb].
  assert (Hbr :
    (moreframesize m =? 1) &&
    (gobuf_sp (morebuf m) - sizeof_Stktop - args - 32 >? stackguard g)
    = false).
  { destruct (Z.eqb_spec (moreframesize m) 1); [| reflexivity].
    destruct (Z.gtb_spec (gobuf_sp (morebuf m) - sizeof_Stktop - args - 32)
                (stackguard g)); [| reflexivity].
    exfalso. apply Hin. split; [assumption | lia]. }
  rewrite Hbr. fold frame. rewrite Hsz, Hup.
  destruct (args >? 0); eexists; (split; [reflexivity |]); cbn; auto.
Qed.

End Newstack.

(** C7 as the specification words it fails: a frame of 64 bytes without
    arguments gets a segment of [StackMin] = 4096 bytes on [unix64], not
    [max StackMin 64 + StackExtra + StackSystem] = 5120. *)
Lemma newstack_size_counterexample :
  let m := Stack.mkMore 64 0 (mkGobuf 9000 0 (Some 1%nat)) 9008 0 1%nat in
  let g := Stack.mkGstack 12000 8448 false in
  exists r,
    Stack.newstack 0 m g = Stack.Resumed r /\
    Stack.allocated r = Some 4096 /\
    top_free (Stack.header r) = 4096 /\
    Z.max StackMin (Stack.moreframesize m + Stack.moreargsize m)
      + StackExtra + StackSystem = 5120.
Proof. cbv zeta. eexists. repeat split; reflexivity. Qed.

Lemma newstack_segment_size_witness :
  exists r,
    Stack.newstack 0
      (Stack.mkMore 64 16 (mkGobuf 9000 0 (Some 1%nat)) 9008 0 1%nat)
      (Stack.mkGstack 12000 8448 false) = Stack.Resumed r /\
    Stack.allocated r = Some 4096 /\
    top_free (Stack.header r) = 4096 /\
    Stack.top r = 1048576 + 4096 - 72.
Proof.
  refine (newstack_segment_size 0
            (Stack.mkMore 64 16 (mkGobuf 9000 0 (Some 1%nat)) 9008 0 1%nat)
            (Stack.mkGstack 12000 8448 false) _ _ _ _ _ _ _ _ _ _);
    now vm_compute.
Defined.

(** * Deferred calls *)

Section DeferFacts.
Context `{Platform}.
Variable mem : Z -> Z.

Import Defer.

Lemma rundefer_loop_runs (fuel : nat) (g : Task) :
  (length (defer g) < fuel)%nat ->
  exists g',
    rundefer_loop fuel g = Some g' /\
    defer g' = [] /\
    calls_of (done g') = calls_of (done g) ++ map call_of (defer g).
Proof.
  revert g. induction fuel as [| fuel IH]; intros [ds tr] Hlen; [cbn in Hlen; lia |].
  destruct ds as [| d link]; cbn [rundefer_loop defer done] in *.
  - exists (mkTask [] tr). cbn. now rewrite app_nil_r.
  - destruct (IH (if nofree d
                  then mkTask link (tr ++ [reflect_call (fn d) (args d) (siz d)])
                  else mkTask link
                         ((tr ++ [reflect_call (fn d) (args d) (siz d)])
                            ++ [free d])))
      as (g' & Hrun & Hnil & Hcalls).
    { destruct (nofree d); cbn in *; lia. }
    exists g'. split; [exact Hrun |]. split; [exact Hnil |].
    rewrite Hcalls. unfold calls_of.
    destruct (nofree d); cbn [done defer]; rewrite !omap_app; cbn;
      rewrite <- ?app_assoc; cbn; rewrite ?app_nil_r; reflexivity.
Qed.

(** C8.  A task that defers the calls [c1 .. cN] in turn gets 0 from every
    [deferproc], each record goes to the head of [g->defer], and
    [rundefer] then calls the deferred functions in the order
    [cN .. c1], followed by those that were deferred before, and leaves
    the list empty. *)
Theorem defer_lifo (calls : list (Z * Z * Z * Z)) (g : Task) :
  exists g1 rets ds,
    deferprocs mem calls g = (g1, rets) /\
    Forall (eq 0) rets /\ length rets = length calls /\
    Forall2 (made_by mem) calls ds /\
    defer g1 = rev ds ++ defer g /\
    done g1 = done g /\
    exists g2,
      rundefer g1 = Some g2 /\
      defer g2 = [] /\
      calls_of (done g2) =
        calls_of (done g) ++ map call_of (rev ds ++ defer g).
Proof.
  assert (Hput : forall calls g, exists g1 rets ds,
    deferprocs mem calls g = (g1, rets) /\
    Forall (eq 0) rets /\ length rets = length calls /\
    Forall2 (made_by mem) calls ds /\
    defer g1 = rev ds ++ defer g /\ done g1 = done g).
  { clear. induction calls as [| [[[siz fn] addr] cpc] rest IH]; intros g.
    - exists g, [], []. cbn. repeat split; constructor.
    - cbn [deferprocs deferproc].
      set (ap := if thechar_5 then addr + 2 * sizeof_uintptr
                 else addr + 1 * sizeof_uintptr).
      set (d := mkDefer fn siz cpc ap (read_bytes mem ap siz) false).
      destruct (IH (mkTask (d :: defer g) (done g)))
        as (g1 & rets & ds & Hrun & Hz & Hlen & Hmade & Hd & Hdone).
      rewrite Hrun. cbn [defer done] in Hd, Hdone.
      exists g1, (0 :: rets), (d :: ds).
      split; [reflexivity |]. split; [now constructor |].
      split; [cbn; now rewrite Hlen |].
      split; [constructor; [now cbn | exact Hmade] |].
      split; [| exact Hdone].
      rewrite Hd. cbn [rev]. now rewrite <- app_assoc. }
  destruct (Hput calls g) as (g1 & rets & ds & Hrun & Hz & Hlen & Hm & Hd & Hdone).
  exists g1, rets, ds. repeat (split; [assumption |]).
  destruct (rundefer_loop_runs (S (length (defer g1))) g1) as (g2 & Hr & Hn & Hc);
    [lia |].
  exists g2. split; [exact Hr |]. split; [exact Hn |].
  now rewrite Hc, Hdone, Hd.
Qed.

End DeferFacts.

(** * The run queue and the [gwaiting] bit *)

Section Queue.
Context `{Platform}.

#[local] Instance queue_kept_preorder : PreOrder queue_kept.
Proof.
  split.
  - intros s. now repeat split.
  - intros s1 s2 s3 (A1 & B1 & C1) (A2 & B2 & C2). repeat split; congruence.
Qed.

Ltac kept := intros; repeat split; reflexivity.

Lemma canaddmcpu_queue : keeps queue_kept canaddmcpu.
Proof.
  intros s. unfold canaddmcpu. cbn [canaddmcpu_loop].
  destruct (Z.geb_spec (atomic_mcpu (atomic s)) (atomic_mcpumax (atomic s)))
    as [Hge | Hlt]; cbn; [kept |].
  destruct (xadd_incr (atomic s)) as (_ & _ & _ & Hd).
  { pose proof (mcpumax_range (atomic s)). lia. }
  repeat split. exact Hd.
Qed.

Lemma mnextg_queue m g : keeps queue_kept (mnextg m g).
Proof. unfold mnextg. repeat keeps_step; keeps_write kept. Qed.

Lemma gput_idle_queue g im : keeps queue_kept (gput_idle g im).
Proof. unfold gput_idle. repeat keeps_step; keeps_write kept. Qed.

(** The last branch of [gput], run. *)
Lemma gput_fifo_run g s :
  gput_fifo g s =
  Ok tt
    (let s1 := set_gwait (int32 (gwait s + 1)) (set_ghead (ghead s ++ [g]) s) in
     if gwait s =? 0
     then set_atomic (xadd (atomic s) (Z.shiftl 1 gwaitingShift)) s1
     else s1).
Proof. unfold gput_fifo. run. now destruct (gwait s =? 0). Qed.

Lemma gput_fifo_post g s s0 :
  queue_kept s0 s ->
  ensures (fun _ s' => gput_post g s0 s') (queue_kept s0) (gput_fifo g s).
Proof.
  intros (A & B & C). rewrite gput_fifo_run. cbn. right.
  destruct (gwait s =? 0) eqn:E; state; rewrite <- ?A, <- ?B, <- ?C, ?E;
    repeat split.
  apply xadd_gwaiting_up.
Qed.

Lemma gput_effect g s :
  ensures (fun _ s' => gput_post g s s') (queue_kept s) (gput g s).
Proof.
  unfold gput. unfold mbind at 1, Sch_bind at 1.
  eapply ensures_bind; [apply (keeps_readG queue_kept); exact _ |]. cbn beta.
  intros gr s1 K1.
  assert (Hrest : forall s2, queue_kept s s2 ->
    ensures (fun _ s' => gput_post g s s') (queue_kept s)
      (match idlem gr with
       | Some im => gput_idle g im
       | None => gput_fifo g
       end s2)).
  { intros s2 K2. destruct (idlem gr) as [im |].
    - eapply ensures_weaken; [apply gput_idle_queue | |]; cbn beta.
      + intros _ s3 K3. left. etransitivity; eassumption.
      + intros s3 K3. etransitivity; eassumption.
    - now apply gput_fifo_post. }
  unfold mbind at 1, Sch_bind at 1.
  destruct (lockedm gr) as [m |].
  - eapply ensures_bind.
    { eapply ensures_weaken; [apply canaddmcpu_queue | |]; cbn beta.
      - intros b s2 K2. instantiate (1 := fun _ s2 => queue_kept s s2).
        cbn beta. etransitivity; eassumption.
      - intros s2 K2. etransitivity; eassumption. }
    cbn beta. intros [|] s2 K2; [| now apply Hrest].
    eapply ensures_weaken; [apply mnextg_queue | |]; cbn beta.
    + intros _ s3 K3. left. etransitivity; eassumption.
    + intros s3 K3. etransitivity; eassumption.
  - cbn [bind mret Sch_ret]. now apply Hrest.
Qed.

Lemma gget_effect me s :
  ensures (gget_post s) (queue_kept s) (gget me s).
Proof.
  unfold gget. run. destruct (ghead s) as [| g rest] eqn:Hq.
  - eapply ensures_bind; [apply (keeps_readM queue_kept); exact _ |].
    cbn beta. intros mr s1 K1. destruct (idleg mr) as [g |]; run.
    + eapply ensures_bind.
      * apply ensures_modifyM; intros;
          [instantiate (1 := fun _ s2 => queue_kept s s2) |]; cbn beta.
        -- destruct K1 as (A & B & C). repeat split; state; assumption.
        -- exact K1.
      * cbn beta. intros _ s2 K2. cbn. left. now split.
    + left. now split.
  - destruct (int32 (gwait s - 1) =? 0) eqn:E; run; right; exists g, rest;
      rewrite ?E; repeat split; try assumption.
    apply xadd_gwaiting_down.
Qed.

Lemma int32_succ z : - 2 ^ 31 <= z < 2 ^ 31 - 1 -> int32 (z + 1) = z + 1.
Proof. intros. apply int32_id. unfold is_int32. lia. Qed.

Lemma int32_pred z : - 2 ^ 31 < z < 2 ^ 31 -> int32 (z - 1) = z - 1.
Proof. intros. apply int32_id. unfold is_int32. lia. Qed.

Lemma gput_unwired (g : nat) (gr : G) (s : State) :
  gs s !! g = Some gr -> lockedm gr = None -> idlem gr = None ->
  gput g s = gput_fifo g s.
Proof.
  intros Hg Hl Hi. unfold gput. run. rewrite (readG_some _ _ _ Hg). run.
  rewrite Hl. run. now rewrite Hi.
Qed.

(** C1.  [gput] and [gget] maintain [gwaiting = 1 <-> gwait > 0], in every
    state where it holds and [gwait] is not at the end of its range,
    whatever their argument and whichever branch they take.  Where
    [gwait] counts the queue: [gput] of a goroutine that is on no list
    and is neither wired nor an idle goroutine appends it at the tail
    and adds one to [gwait]; it sets the bit, with one [xadd], exactly
    when the queue was empty, and leaves the word alone otherwise.
    [gget] on a non-empty queue returns the head and takes one from
    [gwait]; it clears the bit, with one [xadd], exactly when the queue
    is empty afterwards.  On an empty queue [gget] changes neither the
    queue, nor [gwait], nor the word. *)
Theorem gwaiting_maintained (me g : nat) (s : State) :
  gwaiting_inv s -> - 2 ^ 31 < gwait s < 2 ^ 31 - 1 ->
  ensures (fun _ s' => gwaiting_inv s') gwaiting_inv (gput g s) /\
  ensures (fun _ s' => gwaiting_inv s') gwaiting_inv (gget me s) /\
  (forall gr,
     queue_counted s -> unlinked s g ->
     gs s !! g = Some gr -> lockedm gr = None -> idlem gr = None ->
     gput g s =
       Ok tt
         (set_atomic
            (match ghead s with
             | [] => xadd (atomic s) (Z.shiftl 1 gwaitingShift)
             | _ :: _ => atomic s
             end)
            (set_gwait (gwait s + 1) (set_ghead (ghead s ++ [g]) s))) /\
     (ghead s = [] ->
      atomic_gwaiting (atomic s) = 0 /\
      atomic_gwaiting (xadd (atomic s) (Z.shiftl 1 gwaitingShift)) = 1) /\
     (ghead s <> [] -> atomic_gwaiting (atomic s) = 1)) /\
  (forall g' rest,
     queue_counted s -> ghead s = g' :: rest ->
     gget me s =
       Ok (Some g')
         (set_atomic
            (match rest with
             | [] => xadd (atomic s) (Z.shiftl (-1) gwaitingShift)
             | _ :: _ => atomic s
             end)
            (set_gwait (gwait s - 1) (set_ghead rest s))) /\
     atomic_gwaiting (atomic s) = 1 /\
     (rest = [] ->
      atomic_gwaiting (xadd (atomic s) (Z.shiftl (-1) gwaitingShift)) = 0)) /\
  (queue_counted s -> ghead s = [] ->
   ensures
     (fun _ s' => ghead s' = [] /\ gwait s' = gwait s /\ atomic s' = atomic s)
     (fun _ => True) (gget me s)).
Proof.
  intros Hinv Hrange. unfold gwaiting_inv in *.
  pose proof (gwaiting_bit (atomic s)) as Hbit.
  assert (Hkept : forall s', queue_kept s s' ->
            (atomic_gwaiting (atomic s') = 1 <-> gwait s' > 0)).
  { intros s' (A & B & C). now rewrite A, B. }
  split; [| split; [| split; [| split]]].
  - eapply ensures_weaken; [apply gput_effect | | exact Hkept]. cbn beta.
    intros _ s' [K | (Hq & Hw & Hb)]; [now apply Hkept |].
    rewrite Hw, Hb, int32_succ by lia.
    destruct (Z.eqb_spec (gwait s) 0); lia.
  - eapply ensures_weaken; [apply gget_effect | | exact Hkept]. cbn beta.
    intros og s' [[_ K] | (g' & rest & Hq & _ & Hq' & Hw & Hb)];
      [now apply Hkept |].
    rewrite Hw, Hb, int32_pred by lia.
    destruct (Z.eqb_spec (gwait s - 1) 0); lia.
  - intros gr Hcount _ Hg Hl Hi. unfold queue_counted in Hcount.
    rewrite (gput_unwired g gr s Hg Hl Hi), gput_fifo_run.
    rewrite int32_succ by lia. cbv zeta.
    destruct (xadd_gwaiting_up (atomic s)) as (_ & _ & _ & Hup).
    cbv zeta in Hup.
    destruct (ghead s) as [| g1 q] eqn:Hq; cbn [length] in Hcount.
    + change (Z.of_nat 0) with 0 in Hcount. rewrite Hcount.
      cbn [Z.eqb]. split; [reflexivity |].
      split; [| intros Hne; now contradiction Hne].
      intros _. assert (atomic_gwaiting (atomic s) = 0) by lia.
      split; [assumption | lia].
    + destruct (Z.eqb_spec (gwait s) 0) as [E | _]; [lia |].
      split; [f_equal; now destruct s |].
      split; [discriminate | intros _; lia].
  - intros g' rest Hcount Hq. unfold queue_counted in Hcount.
    rewrite Hq in Hcount. cbn [length] in Hcount.
    destruct (xadd_gwaiting_down (atomic s)) as (_ & _ & _ & Hdown).
    cbv zeta in Hdown.
    assert (Hone : atomic_gwaiting (atomic s) = 1) by (apply Hinv; lia).
    unfold gget. run. rewrite Hq. run. rewrite int32_pred by lia.
    destruct rest as [| g2 rest]; cbn [length] in Hcount.
    + replace (gwait s - 1) with 0 by lia. cbn [Z.eqb]. run.
      split; [reflexivity |]. split; [exact Hone |]. intros _. lia.
    + destruct (Z.eqb_spec (gwait s - 1) 0) as [E | _]; [lia |]. run.
      split; [f_equal; destruct s; cbn in *; now subst |].
      split; [exact Hone | discriminate].
  - intros _ Hq. unfold gget. run. rewrite Hq.
    unfold readM. destruct (ms s !! me) as [mr |] eqn:Hm; run; [| exact I].
    destruct (idleg mr); run; [| now repeat split].
    rewrite (modifyM_some _ _ _ _ Hm). run. now repeat split.
Qed.

End Queue.

(** * The deferred wake-up *)

Section Wakeup.

Lemma mnextg_run m g mr s :
  ms s !! m = Some mr ->
  exists s',
    mnextg m g s = Ok tt s' /\
    ms s' =
      <[m := if waitnextg mr
             then set_waitnextg false (set_nextg (Some g) mr)
             else set_nextg (Some g) mr]> (ms s) /\
    mwakeup s' = (if waitnextg mr then Some m else mwakeup s) /\
    trace s' =
      trace s ++
      (if waitnextg mr
       then match mwakeup s with Some w => [wake w] | None => [] end
       else []).
Proof.
  intros Hm. unfold mnextg. runs. destruct (waitnextg mr) eqn:Hw; runs.
  - destruct (mwakeup s) as [w |]; run; eexists;
      (split; [reflexivity |]); state;
      rewrite insert_insert_eq, ?app_nil_r; auto.
  - eexists. split; [reflexivity |]. state. now rewrite app_nil_r.
Qed.

Lemma removelast_cons2 {A : Type} (a b : A) l :
  removelast (a :: b :: l) = a :: removelast (b :: l).
Proof. reflexivity. Qed.

(** Hand-offs starting with any content of the register: every worker
    but the last one found waiting has been woken, the last one is in
    the register. *)
Lemma handoffs_run (l : list (nat * nat)) (s : State) :
  Forall (fun p => is_Some (ms s !! p.1)) l ->
  exists s',
    handoffs l s = Ok tt s' /\
    let all := option_list (mwakeup s) ++ woken (ms s) l in
    trace s' = trace s ++ map wake (removelast all) /\
    mwakeup s' = last all.
Proof.
  revert s. induction l as [| [m g] l IH]; intros s Hval.
  - exists s. split; [reflexivity |]. cbn [woken]. rewrite app_nil_r.
    destruct (mwakeup s); cbn; now rewrite app_nil_r.
  - inversion Hval as [| ? ? [mr Hm] Hval']; subst. cbn [fst] in Hm.
    destruct (mnextg_run m g mr s Hm) as (s1 & Hrun & Hms & Hmw & Htr).
    destruct (IH s1) as (s2 & Hrun2 & Htr2 & Hmw2).
    { rewrite Hms. eapply Forall_impl; [exact Hval' |]. cbn beta.
      intros p Hp. apply lookup_insert_is_Some'. now right. }
    exists s2. split.
    { cbn [handoffs foldr fst snd]. unfold mbind, Sch_bind.
      rewrite Hrun. cbn [bind]. exact Hrun2. }
    cbn zeta in *. cbn [woken]. rewrite Hm.
    rewrite Htr2, Hmw2, Htr, Hmw, Hms.
    destruct (waitnextg mr).
    + destruct (mwakeup s) as [w |]; cbn -[woken].
      * rewrite <- app_assoc. split; reflexivity.
      * now rewrite app_nil_r.
    + now rewrite app_nil_r.
Qed.

Lemma wakes_under_lock_held l tr :
  wakes_under_lock true (map wake l ++ tr) = l ++ wakes_under_lock true tr.
Proof. induction l as [| m l IH]; cbn; [reflexivity | now rewrite IH]. Qed.

Lemma wakes_unlocked_held l tr :
  wakes_unlocked true (map wake l ++ tr) = wakes_unlocked true tr.
Proof. induction l as [| m l IH]; cbn; [reflexivity | now rewrite IH]. Qed.

Lemma wakes_free l :
  wakes_under_lock false (map wake l) = [] /\
  wakes_unlocked false (map wake l) = l.
Proof.
  induction l as [| m l [IH1 IH2]]; cbn; [now split |]. now rewrite IH1, IH2.
Qed.

(** C5, as the code has it.  A critical section that starts with an empty
    register and makes the hand-offs [l] wakes the workers it found
    waiting, [w]: all but the last while the lock is held (each at the
    hand-off that takes its place in [mwakeup]), the last one after the
    unlock.  At most one wake follows the unlock; wakes under the lock
    are absent exactly when at most one worker was found waiting. *)
Theorem deferred_wakeup (l : list (nat * nat)) (s : State) :
  mwakeup s = None ->
  Forall (fun p => is_Some (ms s !! p.1)) l ->
  let w := woken (ms s) l in
  exists s' tr,
    critical_section l s = Ok tt s' /\
    trace s' = trace s ++ tr /\
    tr = lock_sched :: map wake (removelast w)
           ++ unlock_sched :: map wake (option_list (last w)) /\
    wakes_under_lock false tr = removelast w /\
    wakes_unlocked false tr = option_list (last w) /\
    (length (wakes_unlocked false tr) <= 1)%nat /\
    (wakes_under_lock false tr = [] <-> (length w <= 1)%nat) /\
    mwakeup s' = None.
Proof.
  intros Hreg Hval w.
  destruct (handoffs_run l (emit_event lock_sched s)) as (s1 & Hrun & Htr & Hmw);
    [exact Hval |].
  cbn zeta in Htr, Hmw. state_in Htr. state_in Hmw. rewrite Hreg in Htr, Hmw.
  cbn -[woken removelast last] in Htr, Hmw. fold w in Htr, Hmw.
  unfold critical_section, schedlock, schedunlock. run. rewrite Hrun. run.
  rewrite Hmw.
  assert (Hu : wakes_under_lock false
                 (lock_sched :: map wake (removelast w)
                    ++ unlock_sched :: map wake (option_list (last w)))
               = removelast w).
  { cbn [wakes_under_lock]. rewrite wakes_under_lock_held.
    cbn [wakes_under_lock].
    rewrite (proj1 (wakes_free _)). apply app_nil_r. }
  assert (Hf : wakes_unlocked false
                 (lock_sched :: map wake (removelast w)
                    ++ unlock_sched :: map wake (option_list (last w)))
               = option_list (last w)).
  { cbn [wakes_unlocked]. rewrite wakes_unlocked_held. cbn [wakes_unlocked].
    apply wakes_free. }
  assert (Hlen : wakes_under_lock false
                 (lock_sched :: map wake (removelast w)
                    ++ unlock_sched :: map wake (option_list (last w))) = []
                 <-> (length w <= 1)%nat).
  { rewrite Hu. destruct w as [| a [| b w']]; cbn; split; intros; try lia;
      try reflexivity; discriminate. }
  set (tr := lock_sched :: map wake (removelast w)
                ++ unlock_sched :: map wake (option_list (last w))) in *.
  assert (Hend : exists s',
    match last w with
    | Some m => emit (notewakeup (havenextg m))
    | None => fun s => Ok tt s
    end (emit_event unlock_sched (set_mwakeup None s1)) = Ok tt s' /\
    trace s' = trace s ++ tr /\ mwakeup s' = None).
  { subst tr. destruct (last w) as [m |]; run; eexists;
      (split; [reflexivity |]); state; rewrite Htr, <- !app_assoc;
      split; reflexivity. }
  destruct Hend as (s' & Hs' & Htr' & Hmw').
  exists s', tr. rewrite Hu, Hf.
  split; [exact Hs' |]. split; [exact Htr' |]. split; [reflexivity |].
  split; [reflexivity |]. split; [reflexivity |].
  split; [destruct (last w); cbn; lia |].
  split; [rewrite <- Hu; exact Hlen | exact Hmw'].
Qed.

End Wakeup.

(** * [schedule] and the status of the goroutine it is given *)

Section Schedule.
Context `{Platform}.

Lemma schedule_reaches_switch (me gp : nat) (gr : G) (s : State) :
  gs s !! gp = Some gr -> predawn s = 0 ->
  1 <= atomic_mcpu (atomic s) <= maxgomaxprocs + 1 ->
  schedule me (Some gp) s =
  bind (bind (schedule_status me gp (at_switch gp gr s))
          (fun _ => schedule_ready me gp))
       (fun _ => schedule_dispatch me).
Proof.
  intros Hg Hdawn Hcpu. unfold schedule, schedule_prev, schedlock. run.
  rewrite Hdawn. cbn [nonzero Z.eqb negb]. runs.
  destruct (xadd_decr (atomic s)) as (Hdec & _); [lia |].
  rewrite Hdec.
  destruct (Z.gtb_spec (atomic_mcpu (atomic s) - 1) maxgomaxprocs); [lia |].
  reflexivity.
Qed.

#[local] Instance dead_kept_preorder gp : PreOrder (dead_kept gp).
Proof.
  split.
  - intros s. now repeat split.
  - intros s1 s2 s3 (A1 & B1 & C1) (A2 & B2 & C2).
    repeat split; [auto | congruence | congruence].
Qed.

Lemma dead_modifyG gp g f :
  (forall x, status (f x) = status x) -> keeps (dead_kept gp) (modifyG g f).
Proof.
  intros Hf s. apply ensures_modifyG; [| now repeat split].
  intros x Hx. repeat split; state; try reflexivity.
  unfold is_dead. state. destruct (decide (g = gp)) as [-> | Hne].
  - rewrite lookup_insert_eq, Hx. cbn. now rewrite Hf.
  - now rewrite lookup_insert_ne.
Qed.

Ltac dead := intros; repeat split; auto.

Lemma unwindstack_dead gp g sp : keeps (dead_kept gp) (unwindstack g gp sp).
Proof.
  unfold unwindstack. repeat keeps_step.
  - now apply dead_modifyG.
  - keeps_write dead.
Qed.

Lemma gfput_dead gp g s0 s :
  dead_kept gp s0 s ->
  ensures
    (fun _ s' =>
       (is_dead gp s0 -> is_dead gp s') /\ gfree s' = g :: gfree s0 /\
       gcount s' = gcount s0)
    (dead_kept gp s0) (gfput g s).
Proof.
  intros (A & B & C). unfold gfput. run.
  eapply ensures_bind; [apply ensures_readG; intros |]; cbn beta.
  - instantiate (1 := fun _ s' => s' = s). reflexivity.
  - now repeat split.
  - intros gr _ ->.
    destruct (negb (stackguard gr - StackGuard =? stack0 gr)); run.
    + now repeat split.
    + rewrite B. now repeat split.
Qed.

Lemma schedule_status_moribund (me gp : nat) (gr : G) (s : State) :
  gs s !! gp = Some gr -> status gr = Gmoribund ->
  ensures
    (fun _ s' =>
       is_dead gp s' /\ gfree s' = gp :: gfree s /\
       gcount s' = int32 (gcount s - 1))
    (is_dead gp) (schedule_status me gp s).
Proof.
  intros Hg Hst. unfold schedule_status. runs. rewrite Hst. runs.
  set (s0 := set_gs (<[gp:=set_status Gdead gr]> (gs s)) s).
  assert (Hdead : is_dead gp s0).
  { unfold is_dead, s0. state. now rewrite lookup_insert_eq. }
  assert (HE : forall s', dead_kept gp s0 s' -> is_dead gp s').
  { intros s' (A & _). auto. }
  eapply ensures_bind.
  { instantiate (1 := fun _ s1 => dead_kept gp s0 s1).
    destruct (lockedm gr); cbn [is_nil negb]; [| cbn; reflexivity].
    eapply (ensures_keeps_bind (dead_kept gp));
      [reflexivity | now apply dead_modifyG | exact HE |].
    intros _ s1 K1. eapply ensures_weaken.
    - apply (keeps_modifyM (dead_kept gp)). dead.
    - cbn beta. intros _ s2 K2. etransitivity; eassumption.
    - cbn beta. intros s2 K2. apply HE. etransitivity; eassumption. }
  cbn beta. intros _ s1 K1.
  eapply (ensures_keeps_bind (dead_kept gp));
    [exact K1 | now apply dead_modifyG | exact HE |].
  intros _ s2 K2.
  eapply (ensures_keeps_bind (dead_kept gp));
    [exact K2 | apply keeps_readM; exact _ | exact HE |].
  intros mr s3 K3.
  eapply (ensures_keeps_bind (dead_kept gp));
    [exact K3 | apply unwindstack_dead | exact HE |].
  intros _ s4 K4.
  eapply ensures_bind.
  { eapply ensures_weaken; [apply gfput_dead; exact K4 | |]; cbn beta.
    - intros u t5 K5. instantiate (1 := fun _ t =>
        is_dead gp t /\ gfree t = gp :: gfree s0 /\ gcount t = gcount s0).
      cbn beta. destruct K5 as (A5 & B5 & C5). auto.
    - exact HE. }
  cbn beta. intros _ s5 (A5 & B5 & C5). run.
  destruct (int32 (gcount s5 - 1) =? 0); run; [exact A5 |].
  rewrite B5, C5. repeat split. exact A5.
Qed.


End Schedule.

(** * Entering and leaving a system call *)

Section Syscall.
Context `{Platform}.

Lemma syscall_fast_iff v :
  syscall_fast v = true <->
  atomic_gwaiting v = 0 /\
  ~ (atomic_waitstop v = 1 /\ atomic_mcpu v <= atomic_mcpumax v).
Proof.
  unfold syscall_fast, nonzero.
  pose proof (waitstop_bit v) as Hw.
  destruct (Z.eqb_spec (atomic_gwaiting v) 0) as [Hg | Hg];
    destruct (Z.eqb_spec (atomic_waitstop v) 0) as [Hs | Hs];
    destruct (Z.gtb_spec (atomic_mcpu v) (atomic_mcpumax v));
    cbn; split; try (intros; discriminate); try tauto; try lia;
    intros [Hg' Hq]; try contradiction; exfalso; apply Hq; lia.
Qed.

Lemma stop_quorum_iff v :
  stop_quorum v = true <->
  atomic_waitstop v = 1 /\ atomic_mcpu v <= atomic_mcpumax v.
Proof.
  unfold stop_quorum, nonzero.
  pose proof (waitstop_bit v) as Hw.
  destruct (Z.eqb_spec (atomic_waitstop v) 0);
    destruct (Z.leb_spec (atomic_mcpu v) (atomic_mcpumax v));
    cbn; split; try (intros; discriminate); try lia; auto.
Qed.

(** Matching does not change whether the stop-the-world quorum holds. *)
Lemma frame_quorum s s' :
  frame s s' -> stop_quorum (atomic s') = stop_quorum (atomic s).
Proof.
  intros [A B C _ _]. apply eq_true_iff_eq. rewrite !stop_quorum_iff.
  rewrite A, B. lia.
Qed.

Lemma quorum_wake_run s :
  exists s',
    quorum_wake (atomic s) s = Ok tt s' /\
    gs s' = gs s /\
    trace s' =
      trace s ++ (if stop_quorum (atomic s) then [notewakeup stopped] else []) /\
    atomic_waitstop (atomic s') =
      (if stop_quorum (atomic s) then 0 else atomic_waitstop (atomic s)) /\
    atomic_mcpu (atomic s') = atomic_mcpu (atomic s) /\
    atomic_mcpumax (atomic s') = atomic_mcpumax (atomic s) /\
    atomic_gwaiting (atomic s') = atomic_gwaiting (atomic s).
Proof.
  unfold quorum_wake, wake_stopped.
  destruct (stop_quorum (atomic s)) eqn:Hq; run.
  - apply stop_quorum_iff in Hq. destruct Hq as [Hw _].
    destruct (xadd_waitstop_down (atomic s) Hw) as (A & B & C & D).
    eexists. split; [reflexivity |]. state. repeat split; assumption.
  - eexists. split; [reflexivity |]. rewrite app_nil_r. repeat split.
Qed.

(** C2.  Outside the predawn phase and on a consistent stack,
    [entersyscall] decrements [mcpu] with one [xadd] (a goroutine that
    runs is counted, so [mcpu] is at least one and no other field is
    touched); let [v] be the word after it.  It returns at once, without
    the lock (nothing is added to the trace), exactly when in [v] the bit
    [gwaiting] is clear and it is not the case that [waitstop] is set
    with [mcpu <= mcpumax].
    Otherwise it takes the lock, runs the slow part and unlocks; the slow
    part runs [matchmg] when [gwaiting] is set in [v] (and asks nothing of
    the platform but hand-offs), then clears [waitstop] and wakes the
    note [stopped] exactly when [waitstop] is set with
    [mcpu <= mcpumax] in [v], which matching does not change. *)
Theorem entersyscall_paths (me g : nat) (gr : G) (sp : Z) (s : State) :
  gs s !! g = Some gr -> predawn s = 0 ->
  stackguard gr - StackGuard <= sp <= stackbase gr ->
  let v := xadd (atomic s) (Z.shiftl (-1) mcpuShift) in
  let s1 := set_atomic v (set_gs (<[g := in_syscall sp gr]> (gs s)) s) in
  let s2 := emit_event lock_sched s1 in
  (1 <= atomic_mcpu (atomic s) ->
   atomic_mcpu v = atomic_mcpu (atomic s) - 1 /\
   atomic_mcpumax v = atomic_mcpumax (atomic s)) /\
  (syscall_fast v = true <->
   atomic_gwaiting v = 0 /\
   ~ (atomic_waitstop v = 1 /\ atomic_mcpu v <= atomic_mcpumax v)) /\
  (syscall_fast v = true ->
   entersyscall me g sp s = Ok tt s1 /\ trace s1 = trace s) /\
  (syscall_fast v = false ->
   entersyscall me g sp s =
   bind (entersyscall_slow me g sp s2) (fun _ => schedunlock)) /\
  entersyscall_slow me g sp s2 =
    (if nonzero (atomic_gwaiting v)
     then bind (bind (matchmg me s2) (fun _ => atomicload))
            (fun v' => quorum_wake v';; modifyG g (set_sched_sp sp))
     else (quorum_wake v;; modifyG g (set_sched_sp sp)) s2) /\
  ensures
    (fun _ s' =>
       exists tr,
         trace s' =
           trace s2 ++ tr
             ++ (if stop_quorum v then [notewakeup stopped] else []) /\
         Forall handoff_event tr /\
         (atomic_gwaiting v = 0 -> tr = []) /\
         atomic_waitstop (atomic s') =
           (if stop_quorum v then 0 else atomic_waitstop v))
    (fun _ => True) (entersyscall_slow me g sp s2).
Proof.
  intros Hg Hdawn Hsp v s1 s2.
  assert (Hpre : entersyscall me g sp s =
    (if syscall_fast v then mret tt
     else schedlock;; entersyscall_slow me g sp;; schedunlock) s1).
  { unfold entersyscall. run. rewrite Hdawn. cbn [nonzero Z.eqb negb].
    runs. rewrite !insert_insert_eq.
    destruct (Z.ltb_spec sp (stackguard gr - StackGuard)); [lia |].
    destruct (Z.ltb_spec (stackbase gr) sp); [lia |].
    run. reflexivity. }
  split.
  { intros Hc. destruct (xadd_decr (atomic s) Hc) as (A & B & _).
    split; assumption. }
  split; [apply syscall_fast_iff |].
  split; [intros Hf; rewrite Hpre, Hf; split; reflexivity |].
  split; [intros Hf; rewrite Hpre, Hf; reflexivity |].
  assert (Hslow : entersyscall_slow me g sp s2 =
    (if nonzero (atomic_gwaiting v)
     then bind (bind (matchmg me s2) (fun _ => atomicload))
            (fun v' => quorum_wake v';; modifyG g (set_sched_sp sp))
     else (quorum_wake v;; modifyG g (set_sched_sp sp)) s2)).
  { unfold entersyscall_slow. run. change (atomic s2) with v.
    now destruct (nonzero (atomic_gwaiting v)). }
  split; [exact Hslow |]. rewrite Hslow.
  assert (Htail : forall s3 tr,
    trace s3 = trace s2 ++ tr -> Forall handoff_event tr ->
    (atomic_gwaiting v = 0 -> tr = []) ->
    stop_quorum (atomic s3) = stop_quorum v ->
    atomic_waitstop (atomic s3) = atomic_waitstop v ->
    ensures
      (fun _ s' =>
         exists tr,
           trace s' =
             trace s2 ++ tr
               ++ (if stop_quorum v then [notewakeup stopped] else []) /\
           Forall handoff_event tr /\
           (atomic_gwaiting v = 0 -> tr = []) /\
           atomic_waitstop (atomic s') =
             (if stop_quorum v then 0 else atomic_waitstop v))
      (fun _ => True)
      ((quorum_wake (atomic s3);; modifyG g (set_sched_sp sp)) s3)).
  { intros s3 tr Htr Hev Hnil Hq Hw.
    destruct (quorum_wake_run s3) as (s4 & Hrun & _ & Htr4 & Hw4 & _).
    run. rewrite Hrun. run.
    apply ensures_modifyG; [| auto]. intros x _. exists tr. state.
    rewrite Htr4, Htr, Hw4, Hq, Hw, <- app_assoc. auto. }
  unfold nonzero. destruct (Z.eqb_spec (atomic_gwaiting v) 0) as [Hgw | Hgw];
    cbn [negb].
  - apply (Htail s2 []); auto.
    + now rewrite app_nil_r.
  - eapply ensures_bind.
    { eapply ensures_bind.
      - eapply ensures_weaken; [apply matchmg_frame | |]; cbn beta.
        + intros u s3 F3. instantiate (1 := fun _ s3 => frame s2 s3).
          exact F3.
        + auto.
      - cbn beta. intros _ s3 F3. cbn.
        instantiate (1 := fun v' s3 => frame s2 s3 /\ v' = atomic s3).
        now split. }
    cbn beta. intros v' s3 [F3 ->].
    destruct (frame_trace _ _ F3) as (tr & Htr & Hev).
    apply (Htail s3 tr); auto.
    + intros; contradiction.
    + apply (frame_quorum _ _ F3).
    + apply (frame_waitstop _ _ F3).
Qed.

End Syscall.

Section Exitsyscall.
Context `{Platform}.


End Exitsyscall.

(** * The cap across a round of the scheduler *)

Section Cap.
Context `{Platform}.

#[local] Instance cpu_frame_preorder : PreOrder cpu_frame.
Proof.
  split.
  - intros s. repeat split; auto.
  - intros s1 s2 s3 (A1 & B1 & C1 & D1) (A2 & B2 & C2 & D2).
    repeat split; try congruence. rewrite A1 in C2. lia.
Qed.

Lemma frame_cpu s s' : frame s s' -> cpu_frame s s'.
Proof. intros [A B C D _]. now repeat split. Qed.

Lemma cpu_cap s s' : cpu_frame s s' -> cap_frame s s'.
Proof. intros (A & _ & _ & D). now split. Qed.

Lemma keeps_weaken (R R' : State -> State -> Prop) {A : Type} (c : Sch A) :
  (forall s s', R s s' -> R' s s') -> keeps R c -> keeps R' c.
Proof.
  intros HR Hc s. eapply ensures_weaken; [apply Hc | |]; cbn beta; auto.
Qed.

Ltac cpu_quiet := intros; repeat split; auto.
Ltac keeps_cpu := repeat keeps_step; try keeps_write cpu_quiet.

Lemma schedunlock_cpu : keeps cpu_frame schedunlock.
Proof. unfold schedunlock. keeps_cpu. Qed.

Lemma mnextg_cpu m g : keeps cpu_frame (mnextg m g).
Proof. eapply keeps_weaken; [apply frame_cpu | apply mnextg_frame]. Qed.

Lemma matchmg_cpu me : keeps cpu_frame (matchmg me).
Proof. eapply keeps_weaken; [apply frame_cpu | apply matchmg_frame]. Qed.

Lemma take_nextg_cpu me : keeps cpu_frame (take_nextg me).
Proof. unfold take_nextg. keeps_cpu. apply schedunlock_cpu. Qed.

Lemma cpu_gap s s' : cpu_frame s s' -> gap s' <= gap s.
Proof. intros (A & _ & C & _). unfold gap. lia. Qed.

Lemma nextg_loop_cpu (me : nat) (fuel : nat) (s : State) :
  Z.max 0 (gap s) < Z.of_nat fuel ->
  ensures (fun _ s' => cpu_frame s s') (cpu_frame s) (nextg_loop fuel me s).
Proof.
  revert s. induction fuel as [| fuel IH]; intros s Hfuel; [lia |].
  cbn [nextg_loop]. unfold mbind at 1, Sch_bind at 1.
  eapply (ensures_keeps_bind cpu_frame);
    [reflexivity
    | eapply keeps_weaken; [apply frame_cpu | apply haveg_frame]
    | auto |].
  intros [|] s1 F1; cbn [negb]; [| exact F1].
  unfold mbind at 1, Sch_bind at 1.
  eapply ensures_bind.
  { eapply ensures_weaken; [apply canaddmcpu_true | |]; cbn beta.
    - intros b s2 [F2 Hb]. instantiate (1 := fun b s2 =>
        cpu_frame s s2 /\ (b = true -> gap s2 <= gap s - 1 /\ 0 < gap s)).
      cbn beta. apply frame_cpu in F2.
      split; [etransitivity; eassumption |].
      intros Hb'. destruct (Hb Hb') as [Hlt Hinc].
      pose proof (cpu_gap _ _ F1). destruct F2 as (A & _).
      unfold gap in *. lia.
    - intros s2 F2. apply frame_cpu in F2. etransitivity; eassumption. }
  cbn beta. intros [|] s2 [F2 Hgap]; cbn [negb]; [| exact F2].
  destruct (Hgap eq_refl) as [Hle Hpos].
  eapply ensures_weaken with
    (Q := fun _ s' => cpu_frame s2 s') (E := cpu_frame s2);
    [| cbn beta; intros; etransitivity; eassumption
     | cbn beta; intros; etransitivity; eassumption].
  unfold mbind at 1, Sch_bind at 1.
  eapply (ensures_keeps_bind cpu_frame);
    [reflexivity
    | eapply keeps_weaken; [apply frame_cpu | apply gget_frame]
    | auto |].
  intros [gp |] s3 F3; [| exact F3].
  unfold mbind at 1, Sch_bind at 1.
  eapply (ensures_keeps_bind cpu_frame);
    [exact F3 | apply keeps_readG; exact _ | auto |].
  intros gr s4 F4. destruct (lockedm gr) as [lm |].
  - unfold mbind at 1, Sch_bind at 1.
    eapply (ensures_keeps_bind cpu_frame);
      [exact F4 | apply mnextg_cpu | auto |].
    intros _ s5 F5. eapply ensures_weaken.
    + apply IH. pose proof (cpu_gap _ _ F5). lia.
    + cbn beta. intros _ s6 F6. etransitivity; eassumption.
    + cbn beta. intros s6 F6. etransitivity; eassumption.
  - unfold mbind at 1, Sch_bind at 1.
    eapply (ensures_keeps_bind cpu_frame); [exact F4 | | auto |].
    { apply keeps_modify. cpu_quiet. }
    intros _ s5 F5. unfold mbind at 1, Sch_bind at 1.
    eapply (ensures_keeps_bind cpu_frame);
      [exact F5 | apply schedunlock_cpu | auto |].
    intros _ s6 F6. exact F6.
Qed.

Lemma find_work_cpu me : keeps cpu_frame (find_work me).
Proof.
  intros s. unfold find_work. unfold mbind at 1, Sch_bind at 1.
  eapply (ensures_keeps_bind cpu_frame);
    [reflexivity | apply keeps_readM; exact _ | auto |].
  intros mr s1 F1. destruct (lockedg mr) as [lg |].
  - eapply ensures_weaken.
    + assert (Hk : keeps cpu_frame
        (s ← get;
         if nonzero (gwait s) then matchmg me;; take_nextg me
         else mret None)).
      { keeps_cpu; [apply matchmg_cpu | apply take_nextg_cpu]. }
      apply Hk.
    + cbn beta. intros a s2 F2. etransitivity; eassumption.
    + cbn beta. intros s2 F2. etransitivity; eassumption.
  - run. eapply ensures_bind.
    { eapply ensures_weaken;
        [apply nextg_loop_cpu, loop_fuel_enough | |]; cbn beta.
      - intros r s2 F2. instantiate (1 := fun _ s2 => cpu_frame s s2).
        cbn beta. etransitivity; eassumption.
      - intros s2 F2. etransitivity; eassumption. }
    cbn beta. intros [gp |] s2 F2; run; exact F2.
Qed.

Ltac cap_quiet := intros; split; reflexivity.
Ltac keeps_cap := repeat keeps_step; try keeps_write cap_quiet.

Lemma quorum_wake_gomaxprocs v s s' :
  quorum_wake v s = Ok tt s' -> gomaxprocs s' = gomaxprocs s.
Proof.
  unfold quorum_wake, wake_stopped. destruct (stop_quorum v); run;
    intros [= <-]; reflexivity.
Qed.

Lemma park_cap me : keeps cap_frame (park me).
Proof.
  intros s. unfold park. run.
  destruct (grunning s =? 0); run; [reflexivity |].
  destruct (ms s !! me) as [mr |] eqn:Hm;
    [| unfold modifyM at 1; rewrite Hm; run; reflexivity].
  runs.
  match goal with
  | |- context [quorum_wake _ ?S] =>
      destruct (quorum_wake_run S) as (s3 & Hrun & _ & _ & _ & _ & Hmax & _);
      state_in Hrun; state_in Hmax; rewrite Hrun
  end.
  apply quorum_wake_gomaxprocs in Hrun. state_in Hrun.
  assert (F3 : cap_frame s s3) by now split.
  run. eapply (ensures_keeps_bind cap_frame);
    [exact F3
    | eapply keeps_weaken; [apply cpu_cap | apply schedunlock_cpu]
    | auto |].
  intros _ s4 F4. unfold sleep_havenextg. cbn [ensures].
  destruct F4 as [A B]. split; state; assumption.
Qed.

Lemma nextgandunlock_cap me : keeps cap_frame (nextgandunlock me).
Proof.
  intros s. unfold nextgandunlock. run.
  destruct (atomic_mcpu (atomic s) >=? maxgomaxprocs); run; [reflexivity |].
  eapply (ensures_keeps_bind cap_frame);
    [reflexivity
    | eapply keeps_weaken; [apply cpu_cap | apply take_nextg_cpu]
    | auto |].
  intros [gp |] s1 F1; run; [exact F1 |].
  eapply (ensures_keeps_bind cap_frame);
    [exact F1
    | eapply keeps_weaken; [apply cpu_cap | apply find_work_cpu]
    | auto |].
  intros [gp |] s2 F2; run; [exact F2 |].
  eapply ensures_weaken; [apply park_cap | |]; cbn beta; intros;
    etransitivity; eassumption.
Qed.

Lemma gput_cap g : keeps cap_frame (gput g).
Proof. eapply keeps_weaken; [apply frame_cap | apply gput_frame]. Qed.

Lemma readylocked_cap me g : keeps cap_frame (readylocked me g).
Proof. eapply keeps_weaken; [apply frame_cap | apply readylocked_frame]. Qed.

Lemma unwindstack_cap g gp sp : keeps cap_frame (unwindstack g gp sp).
Proof. unfold unwindstack. keeps_cap. Qed.

Lemma gfput_cap g : keeps cap_frame (gfput g).
Proof. unfold gfput. keeps_cap. Qed.

Lemma exit_process_cap code : keeps cap_frame (exit_process code).
Proof. intros s. cbn. reflexivity. Qed.

Lemma schedule_status_cap me gp : keeps cap_frame (schedule_status me gp).
Proof.
  unfold schedule_status. keeps_cap;
    first [apply gput_cap | apply unwindstack_cap | apply gfput_cap
          | apply exit_process_cap].
Qed.

Lemma schedule_ready_cap me gp : keeps cap_frame (schedule_ready me gp).
Proof. unfold schedule_ready. keeps_cap. apply readylocked_cap. Qed.

Lemma gogo_cap gp : keeps cap_frame (gogo gp).
Proof. intros s. cbn. reflexivity. Qed.

Lemma schedule_dispatch_cap me : keeps cap_frame (schedule_dispatch me).
Proof.
  unfold schedule_dispatch. keeps_cap;
    first [apply nextgandunlock_cap | apply gogo_cap].
Qed.

(** A round of the scheduler entered with [mcpu] at least one, as it is
    by a goroutine that runs, leaves the cap alone. *)
Lemma schedule_cap (me gp : nat) (s : State) :
  1 <= atomic_mcpu (atomic s) ->
  ensures (fun _ s' => cap_frame s s') (cap_frame s)
    (schedule me (Some gp) s).
Proof.
  intros Hcpu. unfold schedule, schedlock, schedule_prev. run.
  destruct (nonzero (predawn s)); run; [now split |].
  destruct (xadd_decr (atomic s) Hcpu) as (_ & Hmax & _).
  set (v := xadd (atomic s) (Z.shiftl (-1) mcpuShift)) in *.
  destruct (gs s !! gp) as [gr |] eqn:Hg;
    [| unfold modifyG at 1; state; rewrite Hg; run; now split].
  runs.
  fold v.
  match goal with
  | |- context [set_atomic v ?S] => set (s1 := set_atomic v S)
  end.
  assert (F1 : cap_frame s s1) by (split; [exact Hmax | reflexivity]).
  destruct (atomic_mcpu v >? maxgomaxprocs); run; [exact F1 |].
  eapply ensures_bind with (Q1 := fun _ s' => cap_frame s s').
  { eapply (ensures_keeps_bind cap_frame);
      [exact F1 | apply schedule_status_cap | auto |].
    intros _ s2 F2.
    eapply ensures_weaken; [apply schedule_ready_cap | |]; cbn beta; intros;
      etransitivity; eassumption. }
  cbn beta. intros _ s2 F2.
  eapply ensures_weaken; [apply schedule_dispatch_cap | |]; cbn beta; intros;
    etransitivity; eassumption.
Qed.

Lemma gosched_cap (me g : nat) (s : State) :
  1 <= atomic_mcpu (atomic s) ->
  ensures (fun _ s' => cap_frame s s') (cap_frame s) (gosched me g s).
Proof.
  intros Hcpu. unfold gosched. unfold mbind at 1, Sch_bind at 1.
  eapply ensures_bind;
    [apply ensures_readM; intros;
       [instantiate (1 := fun _ s' => s' = s) |]; reflexivity |].
  cbn beta. intros mr _ ->.
  destruct (nonzero (locks mr)); run; [reflexivity |].
  destruct (bool_decide (Some g = g0 mr)); run; [reflexivity |].
  now apply schedule_cap.
Qed.

End Cap.

(** * [runtime·gomaxprocsfunc] *)

Section Gomaxprocs.
Context `{Platform}.

Lemma returns_bind {A B : Type} (P : B -> Prop) (r : result A)
    (f : A -> Sch B) :
  (forall a s, returns P (f a s)) -> returns P (bind r f).
Proof. intros Hf. induction r; cbn [bind returns]; auto. Qed.

(** C9.  Outside a collection ([gcwaiting] is 0), in a state where the
    cap is what the scheduler keeps it to be ([runtime·gomaxprocs] at
    most [maxgomaxprocs], and its low 15 bits in the [mcpumax] field),
    [gomaxprocsfunc n] with [n <= 0] changes neither
    [runtime·gomaxprocs] nor the [mcpumax] field, wherever the call
    stops: at its return, or where the goroutine leaves the processor
    because more goroutines run than the cap allows.  Whenever it
    returns, at once or after the goroutine was resumed, the value is the
    [runtime·gomaxprocs] it found.  With nothing to run it returns at
    once.  The loops do not run out of fuel. *)
Theorem gomaxprocsfunc_query (me g : nat) (n : Z) (s : State) :
  n <= 0 ->
  gcwaiting s = 0 ->
  gomaxprocs s <= maxgomaxprocs ->
  atomic_mcpumax (atomic s) = gomaxprocs s mod 2 ^ 15 ->
  ensures
    (fun ret s' =>
       ret = gomaxprocs s /\
       gomaxprocs s' = gomaxprocs s /\
       atomic_mcpumax (atomic s') = atomic_mcpumax (atomic s))
    (fun s' =>
       gomaxprocs s' = gomaxprocs s /\
       atomic_mcpumax (atomic s') = atomic_mcpumax (atomic s))
    (gomaxprocsfunc me g n s) /\
  returns (fun ret => ret = gomaxprocs s) (gomaxprocsfunc me g n s) /\
  (forall mr,
     ms s !! me = Some mr -> ghead s = [] -> idleg mr = None ->
     atomic_mcpu (atomic s) <= uint32 (gomaxprocs s) ->
     exists s', gomaxprocsfunc me g n s = Ok (gomaxprocs s) s').
Proof.
  intros Hn Hgc Hle Hcap.
  unfold gomaxprocsfunc, schedlock. run.
  destruct (Z.leb_spec n 0) as [_ | ?]; [| lia].
  destruct (Z.gtb_spec (gomaxprocs s) maxgomaxprocs) as [? | _]; [lia |].
  set (ret := gomaxprocs s) in *.
  assert (Hs1 : exists s1,
    when (ret >? 1) (modify (set_singleproc false))
      (set_gomaxprocs ret (emit_event lock_sched s)) = Ok tt s1 /\
    atomic s1 = atomic s /\ gomaxprocs s1 = ret /\ gcwaiting s1 = 0 /\
    ms s1 = ms s /\ ghead s1 = ghead s).
  { destruct (ret >? 1); run; eexists; (split; [reflexivity |]); state;
      now repeat split. }
  destruct Hs1 as (s1 & -> & Ha1 & Hg1 & Hgc1 & Hms1 & Hq1).
  cbn [bind]. rewrite Hgc1. cbn [nonzero Z.eqb negb].
  change (setmcpumax_loop ?a [] ?v) with (setmcpumax_word a v).
  rewrite Ha1, setmcpumax_word_mcpu.
  set (s2 := set_atomic (setmcpumax_word (uint32 ret) (atomic s)) s1).
  assert (F2 : cap_frame s s2).
  { split; subst s2; state; [| exact Hg1].
    now rewrite setmcpumax_word_mcpumax, uint32_mod15. }
  assert (Hcf : forall s', cap_frame s s' ->
    gomaxprocs s' = ret /\
    atomic_mcpumax (atomic s') = atomic_mcpumax (atomic s)).
  { intros s' [A B]. now split. }
  assert (Hu : 0 <= uint32 ret) by (apply Z.mod_pos_bound; lia).
  destruct (Z.gtb_spec (atomic_mcpu (atomic s)) (uint32 ret)) as [Hgt | Hngt].
  - split; [| split].
    + eapply ensures_bind.
      { eapply ensures_weaken; [apply (schedunlock_cpu s2) | |]; cbn beta.
        - intros u s3 F3.
          instantiate (1 := fun _ s3 =>
            cap_frame s s3 /\ 1 <= atomic_mcpu (atomic s3)).
          cbn beta. split.
          + etransitivity; [exact F2 | now apply cpu_cap].
          + destruct F3 as (_ & _ & C & _). subst s2. state_in C.
            rewrite setmcpumax_word_mcpu in C. lia.
        - intros s3 F3. apply Hcf.
          etransitivity; [exact F2 | now apply cpu_cap]. }
      cbn beta. intros _ s3 [F3 Hcpu].
      eapply ensures_bind.
      { eapply ensures_weaken; [apply (gosched_cap me g s3 Hcpu) | |];
          cbn beta.
        - intros u s4 F4. instantiate (1 := fun _ s4 => cap_frame s s4).
          cbn beta. etransitivity; eassumption.
        - intros s4 F4. apply Hcf. etransitivity; eassumption. }
      cbn beta. intros _ s4 F4. cbn [ensures]. split; [reflexivity |].
      now apply Hcf.
    + apply returns_bind. intros _ s3. apply returns_bind. intros _ s4.
      reflexivity.
    + intros; lia.
  - split; [| split].
    + eapply (ensures_keeps_bind cap_frame);
        [exact F2
        | eapply keeps_weaken; [apply frame_cap | apply matchmg_frame]
        | auto |].
      intros _ s3 F3.
      eapply (ensures_keeps_bind cap_frame);
        [exact F3
        | eapply keeps_weaken; [apply cpu_cap | apply schedunlock_cpu]
        | auto |].
      intros _ s4 F4. cbn [ensures]. split; [reflexivity |]. now apply Hcf.
    + apply returns_bind. intros _ s3. apply returns_bind. intros _ s4.
      reflexivity.
    + intros mr Hm Hq Hidle _.
      assert (Hmatch : matchmg me s2 = Ok tt s2).
      { assert (Hm2 : ms s2 !! me = Some mr) by (subst s2; state; congruence).
        assert (Hq2 : ghead s2 = []) by (subst s2; state; congruence).
        clearbody s2. unfold matchmg. run.
        rewrite (readM_some me mr) by exact Hm2. run.
        destruct (nonzero (mallocing mr) || nonzero (gcing mr));
          [reflexivity |].
        cbn [loop_fuel matchmg_loop]. unfold haveg. run.
        rewrite Hq2. run. rewrite (readM_some me mr) by exact Hm2. run.
        now rewrite Hidle. }
      rewrite Hmatch. cbn [bind]. unfold schedunlock. run.
      destruct (mwakeup s2); run; eexists; reflexivity.
Qed.

End Gomaxprocs.

(** * [setmcpumax] *)

Section Setmcpumax.

Lemma flag_testbit v sh :
  0 <= sh -> Z.land (Z.shiftr v sh) 1 = Z.b2z (Z.testbit v sh).
Proof.
  intros Hs. rewrite land_1, <- Z.bit0_mod, Z.shiftr_spec by lia.
  now rewrite Z.add_0_l.
Qed.

Lemma setmcpumax_loop_loaded n env : forall cur,
  setmcpumax_loop n env cur = setmcpumax_word n (setmcpumax_loaded env cur).
Proof.
  induction env as [| c env IH]; intros cur;
    cbn [setmcpumax_loop setmcpumax_loaded]; [reflexivity |].
  destruct (c =? cur); [reflexivity | apply IH].
Qed.

Lemma setmcpumax_loaded_in env : forall cur,
  setmcpumax_loaded env cur = cur \/ In (setmcpumax_loaded env cur) env.
Proof.
  induction env as [| c env IH]; intros cur; cbn [setmcpumax_loaded];
    [now left |].
  destruct (c =? cur); [now left |].
  destruct (IH c) as [-> | Hin]; right; cbn; auto.
Qed.

(** X16.  [setmcpumax] replaces the [mcpumax] field and nothing else it
    is meant to touch, whatever other threads do meanwhile.  The word it
    finally stores is computed from the word it loaded last,
    [setmcpumax_loaded]: the initial one when the first [cas] finds it
    still in memory, otherwise the word that made the [cas] fail, loaded
    for the next round.  So [mcpu] is what the other thread left, never
    a stale value; [mcpumax] holds the low 15 bits of the argument.  The
    argument is not masked: its bits 15 and 16 are or-ed into
    [waitstop] and [gwaiting], which stay as they were only for an
    argument below [2^15]. *)
Theorem setmcpumax_fields (n : Z) (env : list Z) (cur : Z) :
  let v := setmcpumax_loaded env cur in
  let w := setmcpumax_loop n env cur in
  w = setmcpumax_word n v /\
  (v = cur \/ In v env) /\
  (env = [] -> v = cur) /\
  (forall c env', env = c :: env' ->
     (c = cur -> v = cur) /\
     (c <> cur -> v = setmcpumax_loaded env' c) /\
     (c <> cur -> env' = [] -> v = c)) /\
  atomic_mcpumax w = n mod 2 ^ 15 /\
  atomic_mcpu w = atomic_mcpu v /\
  atomic_waitstop w =
    (if Z.testbit n 15 then 1 else atomic_waitstop v) /\
  atomic_gwaiting w =
    (if Z.testbit n 16 then 1 else atomic_gwaiting v) /\
  (0 <= n < 2 ^ 15 ->
   atomic_waitstop w = atomic_waitstop v /\
   atomic_gwaiting w = atomic_gwaiting v).
Proof.
  cbv zeta. rewrite setmcpumax_loop_loaded.
  split; [reflexivity |].
  split; [apply setmcpumax_loaded_in |].
  split; [now intros -> |].
  split.
  { intros c env' ->. cbn [setmcpumax_loaded].
    destruct (Z.eqb_spec c cur) as [-> | Hne].
    - split; [reflexivity |]. split; intros Hc; now destruct Hc.
    - split; [intros Hc; now destruct Hne |].
      split; [reflexivity |]. now intros _ ->. }
  generalize (setmcpumax_loaded env cur). intros v.
  split; [apply setmcpumax_word_mcpumax |].
  split; [apply setmcpumax_word_mcpu |].
  assert (Hflag : forall i, 30 <= i < 32 ->
    Z.land (Z.shiftr (setmcpumax_word n v) i) 1 =
    if Z.testbit n (i - 15) then 1 else Z.land (Z.shiftr v i) 1).
  { intros i Hi. rewrite !flag_testbit, setmcpumax_word_testbit by lia.
    destruct (Z.leb_spec 15 i); [| lia].
    destruct (Z.ltb_spec i 30); [lia |].
    destruct (Z.ltb_spec i 32); [| lia].
    cbn [andb negb]. rewrite andb_true_r.
    destruct (Z.testbit n (i - 15)); [now rewrite orb_true_r |].
    now rewrite orb_false_r. }
  split; [apply (Hflag 30); lia |].
  split; [apply (Hflag 31); compute; split; congruence |].
  intros Hn. now apply setmcpumax_word_flags.
Qed.

End Setmcpumax.

(** * The run queue, the idle workers and the free goroutines as lists *)

Section Lists.
Context `{Platform}.
Import Client.

Lemma xadd_gwaiting_up_down v :
  is_uint32 v ->
  xadd (xadd v (Z.shiftl 1 gwaitingShift)) (Z.shiftl (-1) gwaitingShift) = v.
Proof.
  intros Hv. change (Z.shiftl 1 gwaitingShift) with (2 ^ 31).
  change (Z.shiftl (-1) gwaitingShift) with (- 2 ^ 31). divmod.
Qed.

Lemma xadd_gwaiting_down_up v :
  is_uint32 v ->
  xadd (xadd v (Z.shiftl (-1) gwaitingShift)) (Z.shiftl 1 gwaitingShift) = v.
Proof.
  intros Hv. change (Z.shiftl 1 gwaitingShift) with (2 ^ 31).
  change (Z.shiftl (-1) gwaitingShift) with (- 2 ^ 31). divmod.
Qed.

Lemma gput_queued a0 a1 s q g :
  a1 = xadd a0 (Z.shiftl 1 gwaitingShift) ->
  Z.of_nat (length q) + 1 < 2 ^ 31 ->
  plain s g ->
  gput g (queued a0 a1 s q) = Ok tt (queued a0 a1 s (q ++ [g])).
Proof.
  intros Ha Hlen (gr & Hg & Hl & Hi).
  rewrite (gput_unwired g gr) by assumption. rewrite gput_fifo_run.
  f_equal. unfold queued. state. rewrite length_app, Nat2Z.inj_add.
  cbn [length]. rewrite int32_succ by lia.
  change (Z.of_nat 1) with 1.
  destruct q as [| g1 q]; cbn [length app Z.of_nat Z.eqb].
  - rewrite Ha. same_state s; try reflexivity.
  - destruct (Z.eqb_spec (Z.of_nat (S (length q))) 0) as [E | _]; [lia |].
    same_state s; try reflexivity.
Qed.

Lemma gget_queued me a0 a1 s q g :
  a0 = xadd a1 (Z.shiftl (-1) gwaitingShift) ->
  Z.of_nat (length q) + 1 < 2 ^ 31 ->
  gget me (queued a0 a1 s (g :: q)) = Ok (Some g) (queued a0 a1 s q).
Proof.
  intros Ha Hlen. unfold gget, queued. run. cbn [length].
  rewrite Nat2Z.inj_succ.
  replace (Z.succ (Z.of_nat (length q)) - 1) with (Z.of_nat (length q)) by lia.
  rewrite int32_id by (unfold is_int32; lia).
  destruct q as [| g1 q].
  - cbn [length Z.of_nat Z.eqb]. run. f_equal. rewrite Ha.
    same_state s; try reflexivity.
  - destruct (Z.eqb_spec (Z.of_nat (length (g1 :: q))) 0) as [E | _];
      [cbn [length] in E; lia |].
    run. reflexivity.
Qed.

Lemma gputs_queued a0 a1 s l : forall q,
  a1 = xadd a0 (Z.shiftl 1 gwaitingShift) ->
  Z.of_nat (length q + length l) < 2 ^ 31 ->
  Forall (plain s) l ->
  gputs l (queued a0 a1 s q) = Ok tt (queued a0 a1 s (q ++ l)).
Proof.
  induction l as [| g l IH]; intros q Ha Hlen Hl; cbn [gputs].
  - now rewrite app_nil_r.
  - inversion_clear Hl as [| ? ? Hg Hl']. cbn [length] in Hlen. run.
    rewrite gput_queued by (auto; lia). cbn [bind].
    rewrite IH; auto.
    + now rewrite <- app_assoc.
    + rewrite length_app. cbn [length]. lia.
Qed.

Lemma ggets_queued me a0 a1 s n : forall q,
  a0 = xadd a1 (Z.shiftl (-1) gwaitingShift) ->
  (n <= length q)%nat -> Z.of_nat (length q) < 2 ^ 31 ->
  ggets me n (queued a0 a1 s q) =
  Ok (take n q) (queued a0 a1 s (drop n q)).
Proof.
  induction n as [| n IH]; intros q Ha Hn Hlen; cbn [ggets].
  - now rewrite take_0, drop_0.
  - destruct q as [| g q]; cbn [length] in *; [lia |]. run.
    rewrite gget_queued by (auto; lia). cbn [bind].
    rewrite IH by (auto; lia). reflexivity.
Qed.

(** X1.  The run queue is first in, first out.  Distinct goroutines
    that are on neither list threaded through [schedlink] (the run queue
    and the free list) and are neither wired nor idle goroutines, put on
    the queue one after the other, come back from as many calls of
    [gget] after those that waited before them, in the order they were
    put; the counter [gwait] and the atomic word are then what they
    were.  On an empty queue the calls return exactly the goroutines
    put, and the state is the one before. *)
Theorem run_queue_fifo (me : nat) (l : list nat) (s : State) :
  queue_counted s -> is_uint32 (atomic s) ->
  Z.of_nat (length (ghead s) + length l) < 2 ^ 31 ->
  Forall (plain s) l ->
  NoDup l -> Forall (unlinked s) l ->
  bind (gputs l s) (fun _ => ggets me (length l)) =
    Ok (take (length l) (ghead s ++ l))
       (set_ghead (drop (length l) (ghead s ++ l)) s) /\
  (ghead s = [] ->
   bind (gputs l s) (fun _ => ggets me (length l)) = Ok l s).
Proof.
  intros Hcount Hword Hlen Hl _ _.
  set (a0 := match ghead s with
             | [] => atomic s
             | _ => xadd (atomic s) (Z.shiftl (-1) gwaitingShift)
             end).
  set (a1 := match ghead s with
             | [] => xadd (atomic s) (Z.shiftl 1 gwaitingShift)
             | _ => atomic s
             end).
  assert (Hup : a1 = xadd a0 (Z.shiftl 1 gwaitingShift)).
  { subst a0 a1. destruct (ghead s); [reflexivity |].
    now rewrite xadd_gwaiting_down_up. }
  assert (Hdown : a0 = xadd a1 (Z.shiftl (-1) gwaitingShift)).
  { subst a0 a1. destruct (ghead s); [| reflexivity].
    now rewrite xadd_gwaiting_up_down. }
  assert (Hs : forall q, length q = length (ghead s) ->
    queued a0 a1 s q = set_ghead q s).
  { intros q Hq. unfold queued. rewrite Hq, <- Hcount.
    replace (match q with [] => a0 | _ => a1 end) with (atomic s).
    - same_state s; try reflexivity.
    - subst a0 a1. destruct q, (ghead s); cbn in Hq; congruence. }
  assert (Hrun :
    bind (gputs l s) (fun _ => ggets me (length l)) =
    Ok (take (length l) (ghead s ++ l))
       (set_ghead (drop (length l) (ghead s ++ l)) s)).
  { rewrite <- (Hs (drop (length l) (ghead s ++ l)))
      by (rewrite length_drop, length_app; lia).
    replace (gputs l s) with (gputs l (queued a0 a1 s (ghead s))).
    - rewrite gputs_queued by auto. cbn [bind].
      apply ggets_queued; auto; rewrite length_app; lia.
    - f_equal. rewrite Hs by reflexivity. same_state s; try reflexivity. }
  split; [exact Hrun |].
  intros Hq. rewrite Hrun, Hq. cbn [app length].
  rewrite take_ge, drop_ge by lia. f_equal.
  rewrite <- Hq. same_state s; try reflexivity.
Qed.

Lemma int32_succ_pred z :
  - 2 ^ 31 <= z < 2 ^ 31 - 1 -> int32 (int32 (z + 1) - 1) = z.
Proof.
  intros Hz. rewrite int32_succ by lia.
  replace (z + 1 - 1) with z by lia. apply int32_id. unfold is_int32. lia.
Qed.

(** X2.  The idle workers form a stack, and a wired goroutine never
    takes from it.  For a wired goroutine [mget] answers its own worker
    and leaves the list alone; for another one it answers [nil] on an
    empty list, and the worker that [mput] pushed last, when that worker
    was not on the list already: the list and the counter [mwait] are
    then what they were before the push. *)
Theorem idle_workers_stack (m g : nat) (gr : G) (s : State) :
  gs s !! g = Some gr ->
  (forall lm, lockedm gr = Some lm -> mget g s = Ok (Some lm) s) /\
  (lockedm gr = None -> mhead s = [] -> mget g s = Ok None s) /\
  (lockedm gr = None -> - 2 ^ 31 <= mwait s < 2 ^ 31 - 1 ->
   is_Some (ms s !! m) -> unparked s m ->
   bind (mput m s) (fun _ => mget g) = Ok (Some m) s /\
   exists s1,
     mput m s = Ok tt s1 /\ mhead s1 = m :: mhead s /\
     mwait s1 = mwait s + 1).
Proof.
  intros Hg. split; [| split].
  - intros lm Hl. unfold mget. run. rewrite (readG_some _ _ _ Hg). run.
    now rewrite Hl.
  - intros Hl Hq. unfold mget. run. rewrite (readG_some _ _ _ Hg). run.
    now rewrite Hl, Hq.
  - intros Hl Hw _ _. split.
    + unfold mput, mget. run.
      rewrite (readG_some g gr) by (state; exact Hg). run. rewrite Hl. run.
      rewrite int32_succ_pred by exact Hw. f_equal.
      same_state s; try reflexivity.
    + unfold mput. run. eexists. split; [reflexivity |].
      state. split; [reflexivity |]. apply int32_succ. lia.
Qed.

(** X3.  The list of free goroutines takes only goroutines whose stack
    is back on its first segment, and gives back the one put last.
    [gfput] throws when [stackguard - StackGuard] is not [stack0]; a
    goroutine straight from [malg] always passes; for a goroutine that
    is on neither list threaded through [schedlink], [gfput] pushes it
    at the head of the free list and [gfget] after it returns the
    goroutine and restores the list; on an empty list [gfget] returns
    [nil]. *)
Theorem free_list_round_trip (g : nat) (gr : G) (s : State) :
  gs s !! g = Some gr ->
  (stackguard gr - StackGuard = stack0 gr -> unlinked s g ->
   gfput g s = Ok tt (set_gfree (g :: gfree s) s) /\
   bind (gfput g s) (fun _ => gfget) = Ok (Some g) s) /\
  (stackguard gr - StackGuard <> stack0 gr ->
   gfput g s = Throw "invalid stack in gfput" s) /\
  (gfree s = [] -> gfget s = Ok None s) /\
  (forall n, 0 <= n -> stackguard (malg n) - StackGuard = stack0 (malg n)).
Proof.
  intros Hg. split; [| split; [| split]].
  - intros Hstk _. split.
    { unfold gfput. run. rewrite (readG_some _ _ _ Hg).
      run. destruct (Z.eqb_spec (stackguard gr - StackGuard) (stack0 gr));
        [| contradiction].
      reflexivity. }
    unfold gfput, gfget. run. rewrite (readG_some _ _ _ Hg).
    run. destruct (Z.eqb_spec (stackguard gr - StackGuard) (stack0 gr));
      [| contradiction].
    run. f_equal. same_state s; try reflexivity.
  - intros Hstk. unfold gfput. run. rewrite (readG_some _ _ _ Hg). run.
    destruct (Z.eqb_spec (stackguard gr - StackGuard) (stack0 gr));
      [contradiction | reflexivity].
  - intros Hq. unfold gfget. run. now rewrite Hq.
  - intros n Hn. unfold malg. destruct (Z.leb_spec 0 n); [| lia].
    state. lia.
Qed.

(** X4.  The idle goroutine of a worker waits in the worker's [idleg]
    slot, not on the run queue, and runs only when the queue is empty.
    [idlegoroutine] marks the goroutine once and throws the second time;
    [gput] then stores it in the slot without touching the queue, and
    throws when the slot is taken; [gget] by that worker returns it, and
    empties the slot, only on an empty queue: otherwise the head of the
    queue comes first and the slot is kept. *)
Theorem idle_goroutine_slot (im g : nat) (gr : G) (imr : M) (s : State) :
  gs s !! g = Some gr -> ms s !! im = Some imr ->
  lockedm gr = None -> idlem gr = None -> idleg imr = None ->
  let s1 := set_gs (<[g := set_idlem (Some im) gr]> (gs s)) s in
  let s2 := set_ms (<[im := set_idleg (Some g) imr]> (ms s)) s1 in
  idlegoroutine im g s = Ok tt s1 /\
  idlegoroutine im g s1 = Throw "g is already an idle goroutine" s1 /\
  gput g s1 = Ok tt s2 /\
  gput g s2 = Throw "runtime: double idle" s2 /\
  (ghead s = [] -> gget im s2 = Ok (Some g) s1) /\
  (forall g1 rest,
     ghead s = g1 :: rest ->
     exists s3,
       gget im s2 = Ok (Some g1) s3 /\ ghead s3 = rest /\
       ms s3 !! im = Some (set_idleg (Some g) imr)).
Proof.
  intros Hg Hm Hl Hi Hslot s1 s2.
  assert (Hg1 : gs s1 !! g = Some (set_idlem (Some im) gr))
    by (subst s1; state; apply lookup_insert_eq).
  assert (Hm2 : ms s2 !! im = Some (set_idleg (Some g) imr))
    by (subst s2; state; apply lookup_insert_eq).
  repeat split.
  - unfold idlegoroutine. run. rewrite (readG_some _ _ _ Hg). run.
    rewrite Hi. run. now rewrite (modifyG_some _ _ _ _ Hg).
  - unfold idlegoroutine. run. now rewrite (readG_some _ _ _ Hg1).
  - unfold gput, gput_idle. run. rewrite (readG_some _ _ _ Hg1). run.
    rewrite Hl. run.
    rewrite (readM_some im imr) by (subst s1; state; exact Hm). run.
    rewrite Hslot.
    now rewrite (modifyM_some im imr) by (subst s1; state; exact Hm).
  - unfold gput, gput_idle. run.
    rewrite (readG_some g (set_idlem (Some im) gr))
      by (subst s2; state; exact Hg1).
    run. rewrite Hl. run. now rewrite (readM_some _ _ _ Hm2).
  - intros Hq. unfold gget. run.
    replace (ghead s2) with (ghead s) by reflexivity. rewrite Hq.
    rewrite (readM_some _ _ _ Hm2). run.
    rewrite (modifyM_some _ _ _ _ Hm2). f_equal.
    subst s2 s1. state. rewrite insert_insert_eq.
    replace (set_idleg None (set_idleg (Some g) imr)) with imr
      by (destruct imr; cbn in Hslot; subst; reflexivity).
    rewrite (insert_id _ _ _ Hm). same_state s; try reflexivity.
  - intros g1 rest Hq. unfold gget. run.
    replace (ghead s2) with (ghead s) by reflexivity. rewrite Hq. run.
    destruct (int32 (gwait s2 - 1) =? 0); run;
      (eexists; split; [reflexivity |]); state; (split; [reflexivity |]);
      exact Hm2.
Qed.

End Lists.

(** * Returning through deferred calls, and recovering *)

Section Deferreturn.
Context `{Platform}.
Variable mem : Z -> Z.

Import Defer.

Lemma read_bytes_length p n : length (read_bytes mem p n) = Z.to_nat n.
Proof. unfold read_bytes. now rewrite length_map, length_seq. Qed.

(** X17.  [deferreturn] runs the call that [deferproc] recorded last,
    and only for the frame that deferred it.  After a [deferproc], a
    [deferreturn] from the same frame takes the record off the list,
    which is then what it was before, frees it, and jumps to the
    deferred function with the argument bytes that were in the frame
    when [deferproc] ran.  From any other frame, or with nothing
    deferred, it does nothing. *)
Theorem deferreturn_round_trip (n f addr_fn callerpc : Z) (g : Task) :
  let a :=
    if thechar_5 then addr_fn + 2 * sizeof_uintptr
    else addr_fn + 1 * sizeof_uintptr in
  let g1 := (deferproc mem n f addr_fn callerpc g).1 in
  (exists d,
     made_by mem (n, f, addr_fn, callerpc) d /\
     deferreturn a g1 =
     (mkTask (defer g) (done g ++ [free d]),
      Some (mkJump f a (read_bytes mem a n)))) /\
  (forall b, b <> a -> deferreturn b g1 = (g1, None)) /\
  (forall b tr, deferreturn b (mkTask [] tr) = (mkTask [] tr, None)).
Proof.
  cbv zeta. unfold deferproc. cbn [fst].
  set (a := if thechar_5 then addr_fn + 2 * sizeof_uintptr
            else addr_fn + 1 * sizeof_uintptr).
  split; [| split].
  - exists (mkDefer f n callerpc a (read_bytes mem a n) false). split;
      [| unfold deferreturn; cbn [defer argp nofree siz args fn done]].
    + cbn. repeat split; reflexivity.
    + rewrite Z.eqb_refl. cbn [negb].
      now rewrite <- (read_bytes_length a n), firstn_all.
  - intros b Hb. unfold deferreturn. cbn [defer argp].
    destruct (Z.eqb_spec a b); [congruence | reflexivity].
  - reflexivity.
Qed.

End Deferreturn.

Section Recovering.
Context `{Platform}.
Variable lessstack : Z.

Import Recover.

Lemma recover_selects (argp : Z) (p : Panic) (link : list Panic)
    (base : Z) (top : Stktop) (rest : list Stktop) :
  recovered p = false ->
  base - uint32 (top_argsize top) <= argp <= base ->
  recover argp (mkTask (p :: link) base (top :: rest)) =
    match
      (if negb (top_stackbase top =? 0) &&
          (top_argp top =? top_stackbase top - uint32 (top_argsize top))
       then head rest else Some top)
    with
    | None => None
    | Some seg =>
        if top_panic seg
        then Some (mkTask (mkPanic (arg p) true (p_stackbase p) :: link)
                     base (top :: rest), Some (arg p))
        else Some (mkTask (p :: link) base (top :: rest), None)
    end.
Proof.
  intros Hr Hin. unfold recover. cbn [panic spine stackbase]. rewrite Hr.
  destruct (Z.ltb_spec argp (base - uint32 (top_argsize top))); [lia |].
  destruct (Z.ltb_spec base argp); [lia |].
  cbn [orb].
  destruct (if negb (top_stackbase top =? 0) && _ then _ else _) as [seg |];
    [| reflexivity].
  now destruct (top_panic seg).
Qed.

Lemma backs_up_spec (oldtop argp' argsize : Z) :
  negb (oldtop =? 0) && (argp' =? oldtop - argsize) = true <->
  oldtop <> 0 /\ argp' = oldtop - argsize.
Proof.
  destruct (Z.eqb_spec oldtop 0), (Z.eqb_spec argp' (oldtop - argsize));
    cbn; intuition congruence.
Qed.

(** X18.  [recover] returns the panic value only to the frame at the top
    of a segment made for a deferred call that a panic runs, and only
    once.  It returns nil, and changes nothing, when no panic is in
    progress, when the panic was recovered already, or when the caller's
    frame is not within the argument area at the top of the segment.
    Otherwise one header decides: the one at the top, or, when that one
    has an older segment beneath it ([top->stackbase] not nil) and its
    copied argument frame abuts the older top of stack
    ([top->argp == oldtop - top->argsize]), the older one.  When that
    header is not marked as made during a panic, [recover] returns nil
    and changes nothing; when it is, [recover] marks the panic recovered
    and returns its value, and a second call then returns nil. *)
Theorem recover_once (argp : Z) (p : Panic) (link : list Panic) (base : Z)
    (top : Stktop) (rest : list Stktop) :
  let g := mkTask (p :: link) base (top :: rest) in
  let g' :=
    mkTask (mkPanic (arg p) true (p_stackbase p) :: link) base (top :: rest) in
  let inside :=
    base - uint32 (top_argsize top) <= argp <= base in
  let backs :=
    top_stackbase top <> 0 /\
    top_argp top = top_stackbase top - uint32 (top_argsize top) in
  recover argp (mkTask [] base (top :: rest)) =
    Some (mkTask [] base (top :: rest), None) /\
  (recovered p = true -> recover argp g = Some (g, None)) /\
  (~ inside -> recover argp g = Some (g, None)) /\
  (recovered p = false -> inside -> ~ backs ->
   (top_panic top = false -> recover argp g = Some (g, None)) /\
   (top_panic top = true ->
    recover argp g = Some (g', Some (arg p)) /\
    recover argp g' = Some (g', None))) /\
  (recovered p = false -> inside -> backs ->
   forall old rest', rest = old :: rest' ->
   (top_panic old = false -> recover argp g = Some (g, None)) /\
   (top_panic old = true ->
    recover argp g = Some (g', Some (arg p)) /\
    recover argp g' = Some (g', None))).
Proof.
  cbv zeta. split; [reflexivity |]. split; [| split; [| split]].
  - intros Hr. unfold recover. cbn [panic]. now rewrite Hr.
  - intros Hout. unfold recover. cbn [panic spine stackbase].
    destruct (recovered p); [reflexivity |].
    destruct (Z.ltb_spec argp (base - uint32 (top_argsize top)));
      [reflexivity |].
    destruct (Z.ltb_spec base argp); [reflexivity | lia].
  - intros Hr Hin Hsame. rewrite recover_selects by assumption.
    destruct (negb (top_stackbase top =? 0) && _) eqn:Hsel;
      [now apply backs_up_spec in Hsel |].
    split; intros ->; [reflexivity |]. split; reflexivity.
  - intros Hr Hin Hback old rest' ->.
    rewrite recover_selects by assumption.
    apply backs_up_spec in Hback. rewrite Hback. cbn [head].
    split; intros ->; [reflexivity |]. split; reflexivity.
Qed.


End Recovering.

(** * What matching achieves *)

Section Matching.
Context `{Platform}.
Import Client.

Lemma ensures_conj {A : Type} (Q1 Q2 : A -> State -> Prop)
    (E1 E2 : State -> Prop) (r : result A) :
  ensures Q1 E1 r -> ensures Q2 E2 r ->
  ensures (fun a s => Q1 a s /\ Q2 a s) (fun s => E1 s /\ E2 s) r.
Proof. destruct r; cbn; auto. Qed.

Lemma haveg_false me s :
  ensures
    (fun b s' =>
       s' = s /\
       (b = false ->
        ghead s = [] /\ forall mr, ms s !! me = Some mr -> idleg mr = None))
    (fun _ => True) (haveg me s).
Proof.
  unfold haveg. run. destruct (ghead s) as [| g q] eqn:Hq; run.
  - unfold readM. destruct (ms s !! me) as [mr |] eqn:Hm; run; [| exact I].
    split; [reflexivity |]. intros Hb. split; [reflexivity |].
    intros mr' [= <-]. now destruct (idleg mr).
  - split; [reflexivity | discriminate].
Qed.

Lemma canaddmcpu_false s :
  ensures
    (fun b s' =>
       b = false -> atomic_mcpumax (atomic s') <= atomic_mcpu (atomic s'))
    (fun _ => True) (canaddmcpu s).
Proof.
  unfold canaddmcpu. cbn [canaddmcpu_loop].
  destruct (Z.geb_spec (atomic_mcpu (atomic s)) (atomic_mcpumax (atomic s)))
    as [Hge | Hlt]; cbn.
  - intros _. lia.
  - discriminate.
Qed.

Lemma matchmg_loop_saturates (me : nat) (fuel : nat) (s : State) :
  Z.max 0 (gap s) < Z.of_nat fuel ->
  ensures (fun _ s' => saturated me s') (fun _ => True)
    (matchmg_loop fuel me s).
Proof.
  revert s. induction fuel as [| fuel IH]; intros s Hfuel; [lia |].
  cbn [matchmg_loop]. unfold mbind at 1, Sch_bind at 1.
  eapply ensures_bind; [apply haveg_false |]. cbn beta.
  intros [|] s1 [-> Hno]; cbn [negb]; [| left; now apply Hno].
  unfold mbind at 1, Sch_bind at 1.
  eapply ensures_bind.
  { eapply ensures_weaken;
      [apply (ensures_conj _ _ _ _ _ (canaddmcpu_true s) (canaddmcpu_false s))
      | |]; cbn beta.
    - intros b s2 HQ. instantiate (1 := fun b s2 =>
        (b = true -> gap s2 <= gap s - 1 /\ 0 < gap s) /\
        (b = false ->
         atomic_mcpumax (atomic s2) <= atomic_mcpu (atomic s2))).
      cbn beta. destruct HQ as [[F2 Hb] Hfull]. split; [| exact Hfull].
      intros Hb'. destruct (Hb Hb') as [Hlt Hinc].
      destruct F2 as [A _ _ _ _]. unfold gap in *. lia.
    - auto. }
  cbn beta. intros [|] s2 [Hgap Hfull]; cbn [negb];
    [| right; now apply Hfull].
  destruct (Hgap eq_refl) as [Hle Hpos].
  unfold mbind at 1, Sch_bind at 1.
  eapply ensures_bind.
  { eapply ensures_weaken; [apply gget_frame | |]; cbn beta.
    - intros og s3 F3. instantiate (1 := fun _ s3 => frame s2 s3). exact F3.
    - auto. }
  cbn beta. intros [g |] s3 F3; [| cbn; auto].
  unfold mbind at 1, Sch_bind at 1.
  eapply ensures_bind.
  { eapply ensures_weaken; [apply mget_frame | |]; cbn beta.
    - intros om s4 F4. instantiate (1 := fun _ s4 => frame s2 s4).
      cbn beta. etransitivity; eassumption.
    - auto. }
  cbn beta. intros om s4 F4.
  unfold mbind at 1, Sch_bind at 1.
  eapply ensures_bind.
  { instantiate (1 := fun _ s5 => frame s2 s5).
    destruct om as [m |].
    - cbn. exact F4.
    - eapply ensures_weaken; [apply newm_frame | |]; cbn beta.
      + intros m s5 F5. etransitivity; eassumption.
      + auto. }
  cbn beta. intros m s5 F5.
  unfold mbind at 1, Sch_bind at 1.
  eapply ensures_bind.
  { eapply ensures_weaken; [apply mnextg_frame | |]; cbn beta.
    - intros u s6 F6. instantiate (1 := fun _ s6 => frame s2 s6).
      cbn beta. etransitivity; eassumption.
    - auto. }
  cbn beta. intros _ s6 F6. apply IH.
  pose proof (frame_gap _ _ F6). lia.
Qed.

(** X5.  [matchmg] goes on until nothing is left to match: when it
    returns, either no goroutine waits (the run queue is empty and the
    worker has no idle goroutine in its slot) or [mcpu] has reached
    [mcpumax].  The loop ends within the distance from [mcpu] to the cap.
    Called while the worker allocates or collects, it does nothing. *)
Theorem matchmg_saturates (me : nat) (mr : M) (s : State) :
  ms s !! me = Some mr ->
  (mallocing mr = 0 -> gcing mr = 0 ->
   ensures (fun _ s' => saturated me s') (fun _ => True) (matchmg me s)) /\
  (mallocing mr <> 0 \/ gcing mr <> 0 -> matchmg me s = Ok tt s).
Proof.
  intros Hm. unfold matchmg. run. rewrite (readM_some _ _ _ Hm). run.
  unfold nonzero. split.
  - intros -> ->. cbn [Z.eqb negb orb].
    apply matchmg_loop_saturates, loop_fuel_enough.
  - intros [Hne | Hne].
    + destruct (Z.eqb_spec (mallocing mr) 0); [contradiction | reflexivity].
    + destruct (Z.eqb_spec (gcing mr) 0); [contradiction |].
      now rewrite orb_true_r.
Qed.

End Matching.

(** * Growing a stack and shrinking it again *)

Section StackRoundTrip.
Context `{Platform}.
Variable lessstack : Z.

Import Stack.

(** X15.  [oldstack] undoes [newstack].  Run on the header and the
    bounds that [newstack] left, it gives the goroutine its old
    [stackbase] and [stackguard] back, resumes the context saved in
    [morebuf], copies the argument area back from where [newstack] had
    copied it to, and releases the segment that [newstack] allocated, at
    the same address and with the same size, or nothing when the call was
    a reflect call that stayed on the old segment.  A negative argument
    size is not symmetric: [newstack] copies nothing, [oldstack] reads
    the size as unsigned. *)
Theorem oldstack_undoes_newstack (m : More) (g : Gstack) (r : Grown)
    (cret : Z) (owner : nat) :
  newstack lessstack m g = Resumed r ->
  gobuf_g (morebuf m) = Some owner ->
  - 2 ^ 31 <= moreargsize m < 2 ^ 31 ->
  exists sh,
    oldstack (header r) (g1 r) cret = Some sh /\
    stackbase (back sh) = stackbase g /\
    stackguard (back sh) = stackguard g /\
    resumed sh = morebuf m /\ returned sh = cret /\
    released sh =
      match allocated r with
      | Some size =>
          if uintptr size =? 0 then None
          else Some (stackalloc size, uintptr size)
      | None => None
      end /\
    (0 <= moreargsize m ->
     copied sh =
       match moved r with
       | Some (dst, src, n) => Some (src, dst, n)
       | None => None
       end) /\
    (moreargsize m < 0 ->
     moved r = None /\
     copied sh =
       Some (moreargp m, top r - (moreargsize m + 2 ^ 32),
             moreargsize m + 2 ^ 32)).
Proof.
  intros Hnew Hown Harg. unfold newstack in Hnew.
  destruct (gobuf_sp (morebuf m) <? stackguard g - StackGuard);
    [discriminate |].
  destruct (negb (moreargsize m mod sizeof_uintptr =? 0)); [discriminate |].
  assert (Hu : uint32 (moreargsize m) =
    if moreargsize m <? 0 then moreargsize m + 2 ^ 32 else moreargsize m).
  { unfold uint32. destruct (Z.ltb_spec (moreargsize m) 0).
    - symmetry. apply (Z.mod_unique _ _ (-1)); lia.
    - apply Z.mod_small. lia. }
  destruct ((moreframesize m =? 1) &&
            (gobuf_sp (morebuf m) - sizeof_Stktop - moreargsize m - 32
               >? stackguard g)) eqn:Hbr.
  - destruct (Z.gtb_spec (moreargsize m) 0) as [Hpos | Hneg];
      injection Hnew as <-; unfold oldstack;
      cbn [header g1 top_gobuf top_argsize top_free top_argp top_stackbase
           top_stackguard Stack.stackbase Stack.stackguard allocated moved
           top back copied released resumed returned ispanic];
      rewrite Hown, Hu; cbn [Z.eqb negb];
      eexists; (split; [reflexivity |]);
      cbn [back copied released resumed returned Stack.stackbase
           Stack.stackguard];
      repeat (split; [reflexivity |]).
    + destruct (Z.ltb_spec (moreargsize m) 0); [lia |].
      destruct (Z.gtb_spec (moreargsize m) 0); [| lia].
      split; [reflexivity | lia].
    + destruct (Z.ltb_spec (moreargsize m) 0).
      * destruct (Z.gtb_spec (moreargsize m + 2 ^ 32) 0); [| lia].
        split; [lia | split; reflexivity].
      * destruct (Z.gtb_spec (moreargsize m) 0); [lia |].
        split; [reflexivity | lia].
  - set (size :=
      segment_size (if moreframesize m =? 1 then 0 else moreframesize m)
        (moreargsize m)) in *.
    destruct (Z.gtb_spec (moreargsize m) 0) as [Hpos | Hneg];
      injection Hnew as <-; unfold oldstack;
      cbn [header g1 top_gobuf top_argsize top_free top_argp top_stackbase
           top_stackguard Stack.stackbase Stack.stackguard allocated moved
           top back copied released resumed returned ispanic];
      rewrite Hown, Hu;
      replace (stackalloc size + StackGuard - StackGuard)
        with (stackalloc size) by lia;
      eexists; (split; [reflexivity |]);
      cbn [back copied released resumed returned Stack.stackbase
           Stack.stackguard];
      repeat (split; [reflexivity |]);
      (split; [now destruct (uintptr size =? 0) |]).
    + destruct (Z.ltb_spec (moreargsize m) 0); [lia |].
      destruct (Z.gtb_spec (moreargsize m) 0); [| lia].
      split; [reflexivity | lia].
    + destruct (Z.ltb_spec (moreargsize m) 0).
      * destruct (Z.gtb_spec (moreargsize m + 2 ^ 32) 0); [| lia].
        split; [lia | split; reflexivity].
      * destruct (Z.gtb_spec (moreargsize m) 0); [lia |].
        split; [reflexivity | lia].
Qed.

End StackRoundTrip.

(** * Readying a goroutine that still runs *)

Section Ready.
Context `{Platform}.
Import Client.

(** X6.  A wake-up that comes before the goroutine has stopped is not
    lost.  [ready] of a goroutine that still has a worker ([g->m] set)
    only sets [readyonstop]: the queue and the atomic word are left
    alone.  When the goroutine, its status [Gwaiting], then enters the
    scheduler, [schedule] clears the mark, makes it [Grunnable] and hands
    it to [gput], which appends it to the run queue when it is neither
    wired nor an idle goroutine; matching and dispatch follow. *)
Theorem ready_before_stop (me other g : nat) (gr : G) (s : State) :
  gs s !! g = Some gr -> gm gr = Some me -> status gr = Gwaiting ->
  mwakeup s = None -> predawn s = 0 ->
  1 <= atomic_mcpu (atomic s) <= maxgomaxprocs + 1 ->
  exists s1 s2,
    ready other g s = Ok tt s1 /\
    gs s1 !! g = Some (set_readyonstop true gr) /\
    ghead s1 = ghead s /\ atomic s1 = atomic s /\
    trace s1 = trace s ++ [lock_sched; unlock_sched] /\
    schedule me (Some g) s1 =
      bind (bind (gput g s2)
              (fun _ => s ← get; when (negb (nonzero (predawn s))) (matchmg me)))
           (fun _ => schedule_dispatch me) /\
    gs s2 !! g = Some (requeued_g gr) /\
    ghead s2 = ghead s /\
    (lockedm gr = None -> idlem gr = None ->
     exists s3, gput g s2 = Ok tt s3 /\ ghead s3 = ghead s ++ [g]).
Proof.
  intros Hg Hgm Hst Hwake Hdawn Hcpu.
  set (s1 :=
    emit_event unlock_sched
      (set_mwakeup None
         (set_gs (<[g := set_readyonstop true gr]> (gs s))
            (emit_event lock_sched s)))).
  set (s2 :=
    set_gs (<[g := requeued_g gr]> (gs s1))
      (set_atomic (xadd (atomic s1) (Z.shiftl (-1) mcpuShift))
         (set_grunning (int32 (grunning s1 - 1)) (emit_event lock_sched s1)))).
  assert (Hg1 : gs s1 !! g = Some (set_readyonstop true gr))
    by (subst s1; state; apply lookup_insert_eq).
  assert (Hg2 : gs s2 !! g = Some (requeued_g gr))
    by (subst s2; state; apply lookup_insert_eq).
  exists s1, s2.
  split.
  { unfold ready, readylocked, schedlock, schedunlock. runs.
    rewrite Hgm. runs. rewrite Hwake. run. reflexivity. }
  split; [exact Hg1 |].
  split; [reflexivity |].
  split; [reflexivity |].
  split; [subst s1; state; now rewrite <- app_assoc |].
  split.
  { rewrite (schedule_reaches_switch me g (set_readyonstop true gr) s1)
      by (assumption || exact Hcpu).
    f_equal.
    unfold schedule_status, schedule_ready, readylocked, at_switch.
    runs. rewrite Hst. runs. rewrite Hst.
    rewrite bool_decide_eq_false_2 by (intros [? | ?]; discriminate).
    runs. f_equal. f_equal.
    subst s2. unfold requeued_g. same_state s1.
    now rewrite !insert_insert_eq. }
  split; [exact Hg2 |].
  split; [reflexivity |].
  intros Hl Hi. rewrite (gput_unwired g (requeued_g gr) s2 Hg2 Hl Hi).
  rewrite gput_fifo_run. eexists. split; [reflexivity |].
  cbv zeta. destruct (gwait s2 =? 0); reflexivity.
Qed.

End Ready.

(** * Unwinding a stack and retiring a goroutine *)

Section Unwind.
Context `{Platform}.
Import Client.

Lemma unwind_segments_all (hs : list Stktop) : forall base guard,
  base <> 0 -> StackGuard < guard -> linked hs ->
  unwind_segments 0 base guard (hs ++ [zeroStktop]) =
  ((first_bounds base guard hs).1, (first_bounds base guard hs).2,
   [zeroStktop], frees guard hs).
Proof.
  induction hs as [| h hs IH]; intros base guard Hb Hg Hl;
    cbn [app unwind_segments first_bounds frees].
  - cbn. now rewrite orb_true_r.
  - inversion_clear Hl as [| ? ? [Hhb Hhg] Hl'].
    destruct (Z.eqb_spec base 0); [contradiction |].
    destruct (Z.eqb_spec (top_stackbase h) 0); [contradiction |].
    cbn [orb]. destruct (Z.leb_spec (guard - StackGuard) 0); [lia |].
    cbn [andb]. now rewrite IH.
Qed.

Lemma unwindstack_nil (g : option nat) (gp : nat) (gr : G)
    (hs : list Stktop) (s : State) :
  gs s !! gp = Some gr ->
  spine gr = hs ++ [zeroStktop] -> linked hs ->
  stackbase gr <> 0 -> StackGuard < stackguard gr ->
  g <> Some gp ->
  unwindstack g gp 0 s =
  Ok tt
    (set_trace (trace s ++ frees (stackguard gr) hs)
       (set_gs
          (<[gp :=
              set_spine [zeroStktop]
                (set_stackguard
                   (first_bounds (stackbase gr) (stackguard gr) hs).2
                   (set_stackbase
                      (first_bounds (stackbase gr) (stackguard gr) hs).1
                      gr))]> (gs s)) s)).
Proof.
  intros Hg Hsp Hl Hb Hgd Hne. unfold unwindstack.
  rewrite bool_decide_eq_false_2 by exact Hne.
  run. rewrite (readG_some _ _ _ Hg). run.
  rewrite Hsp, unwind_segments_all by assumption.
  rewrite (modifyG_some _ _ _ _ Hg). run. reflexivity.
Qed.

(** X7.  [unwindstack] with a nil stack pointer takes the stack back to
    its first segment: every segment above it is released once, newest
    first, with the size its header records (a header with [free = 0]
    shares its segment and releases nothing), and the goroutine gets the
    bounds saved in the oldest header.  With a stack pointer inside the
    current segment nothing is released and nothing changes.  Called on
    the goroutine that runs it, it throws. *)
Theorem unwindstack_releases (g : option nat) (gp : nat) (gr : G)
    (hs : list Stktop) (sp : Z) (s : State) :
  gs s !! gp = Some gr ->
  spine gr = hs ++ [zeroStktop] -> linked hs ->
  stackbase gr <> 0 -> StackGuard < stackguard gr ->
  (g = Some gp -> unwindstack g gp sp s = Throw "unwindstack on self" s) /\
  (g <> Some gp ->
   unwindstack g gp 0 s =
   Ok tt
     (set_trace (trace s ++ frees (stackguard gr) hs)
        (set_gs
           (<[gp :=
               set_spine [zeroStktop]
                 (set_stackguard
                    (first_bounds (stackbase gr) (stackguard gr) hs).2
                    (set_stackbase
                       (first_bounds (stackbase gr) (stackguard gr) hs).1
                       gr))]> (gs s)) s))) /\
  (g <> Some gp -> sp <> 0 ->
   stackguard gr - StackGuard <= sp < stackbase gr ->
   unwindstack g gp sp s = Ok tt s).
Proof.
  intros Hg Hsp Hl Hb Hgd. split; [| split].
  - intros ->. unfold unwindstack. now rewrite bool_decide_eq_true_2.
  - now apply unwindstack_nil.
  - intros Hne Hsp0 Hin. unfold unwindstack.
    rewrite bool_decide_eq_false_2 by exact Hne.
    run. rewrite (readG_some _ _ _ Hg). run. rewrite Hsp.
    assert (Hstay :
      unwind_segments sp (stackbase gr) (stackguard gr) (hs ++ [zeroStktop]) =
      (stackbase gr, stackguard gr, hs ++ [zeroStktop], [])).
    { destruct hs as [| h hs]; cbn [app unwind_segments].
      - cbn. now rewrite orb_true_r.
      - destruct ((stackbase gr =? 0) || (top_stackbase h =? 0));
          [reflexivity |].
        destruct (Z.leb_spec (stackguard gr - StackGuard) sp); [| lia].
        destruct (Z.ltb_spec sp (stackbase gr)); [| lia].
        reflexivity. }
    rewrite Hstay. rewrite (modifyG_some _ _ _ _ Hg). run.
    unfold nonzero. destruct (Z.eqb_spec sp 0); [contradiction |].
    destruct (Z.ltb_spec sp (stackguard gr - StackGuard)); [lia |].
    destruct (Z.ltb_spec (stackbase gr) sp); [lia |].
    cbn [negb andb orb]. f_equal.
    replace (set_spine (hs ++ [zeroStktop])
               (set_stackguard (stackguard gr)
                  (set_stackbase (stackbase gr) gr))) with gr
      by (destruct gr; cbn in *; now subst).
    rewrite (insert_id _ _ _ Hg), app_nil_r. same_state s; try reflexivity.
Qed.

Lemma schedule_status_retires (me gp : nat) (gr : G) (mr : M)
    (hs : list Stktop) (s : State) :
  gs s !! gp = Some gr -> ms s !! me = Some mr ->
  status gr = Gmoribund -> g0 mr <> Some gp ->
  spine gr = hs ++ [zeroStktop] -> linked hs ->
  stackbase gr <> 0 -> StackGuard < stackguard gr ->
  (first_bounds (stackbase gr) (stackguard gr) hs).2 - StackGuard = stack0 gr ->
  exists s',
    schedule_status me gp s =
      (if int32 (gcount s - 1) =? 0 then Exit 0 s' else Ok tt s') /\
    gs s' = <[gp := retired hs gr]> (gs s) /\
    ms s' =
      (if is_nil (lockedm gr) then ms s
       else <[me := set_lockedg None mr]> (ms s)) /\
    gfree s' = gp :: gfree s /\
    gcount s' = int32 (gcount s - 1) /\
    trace s' = trace s ++ frees (stackguard gr) hs /\
    ghead s' = ghead s /\ gwait s' = gwait s /\
    grunning s' = grunning s /\ atomic s' = atomic s.
Proof.
  intros Hg Hm Hst Hg0 Hsp Hl Hb Hgd Hfirst.
  unfold schedule_status. runs. rewrite Hst. runs.
  assert (Hlater : forall (gr1 : G) (s1 : State),
    gs s1 !! gp = Some gr1 -> gcount s1 = gcount s ->
    spine gr1 = spine gr -> stackbase gr1 = stackbase gr ->
    stackguard gr1 = stackguard gr -> stack0 gr1 = stack0 gr ->
    exists s',
      bind (unwindstack (g0 mr) gp 0 s1)
        (fun _ s3 =>
           bind (gfput gp s3)
             (fun _ s4 =>
                when (int32 (gcount s4 - 1) =? 0) (exit_process 0)
                  (set_gcount (int32 (gcount s4 - 1)) s4))) =
      (if int32 (gcount s - 1) =? 0 then Exit 0 s' else Ok tt s') /\
      gs s' =
        <[gp :=
            set_spine [zeroStktop]
              (set_stackguard
                 (first_bounds (stackbase gr) (stackguard gr) hs).2
                 (set_stackbase
                    (first_bounds (stackbase gr) (stackguard gr) hs).1
                    gr1))]> (gs s1) /\
      ms s' = ms s1 /\ gfree s' = gp :: gfree s1 /\
      gcount s' = int32 (gcount s - 1) /\
      trace s' = trace s1 ++ frees (stackguard gr) hs /\
      ghead s' = ghead s1 /\ gwait s' = gwait s1 /\
      grunning s' = grunning s1 /\ atomic s' = atomic s1).
  { intros gr1 s1 Hg1 Hc1 E1 E2 E3 E4.
    rewrite (unwindstack_nil (g0 mr) gp gr1 hs s1)
      by (rewrite ?E1, ?E2, ?E3; assumption).
    cbn [bind]. rewrite E2, E3. unfold gfput. run.
    erewrite readG_some by (state; apply lookup_insert_eq).
    run. rewrite E4.
    destruct (Z.eqb_spec
      ((first_bounds (stackbase gr) (stackguard gr) hs).2 - StackGuard)
      (stack0 gr)); [| contradiction].
    run. rewrite Hc1.
    destruct (int32 (gcount s - 1) =? 0); run;
      (eexists; split; [reflexivity |]); state; now repeat split. }
  destruct (lockedm gr) as [lm |] eqn:Hlk; cbn [is_nil negb]; runs.
  - rewrite !insert_insert_eq.
    match goal with
    | |- context [bind (unwindstack _ _ _ ?S) _] =>
        destruct (Hlater
          (set_idlem None (set_lockedm None (set_status Gdead gr))) S)
          as (s' & Hrun & A & B & C & D & E & F1 & F2 & F3 & F4);
          try (state; first [apply lookup_insert_eq | reflexivity])
    end.
    exists s'. split; [exact Hrun |].
    rewrite A, B, C, D, E, F1, F2, F3, F4. state.
    rewrite insert_insert_eq. now repeat split.
  - rewrite !insert_insert_eq.
    match goal with
    | |- context [bind (unwindstack _ _ _ ?S) _] =>
        destruct (Hlater (set_idlem None (set_status Gdead gr)) S)
          as (s' & Hrun & A & B & C & D & E & F1 & F2 & F3 & F4);
          try (state; first [apply lookup_insert_eq | assumption | reflexivity])
    end.
    exists s'. split; [exact Hrun |].
    rewrite A, B, C, D, E, F1, F2, F3, F4. state.
    rewrite insert_insert_eq. unfold retired.
    replace (set_lockedm None (set_status Gdead gr))
      with (set_status Gdead gr)
      by (destruct gr; cbn in Hlk; now subst).
    now repeat split.
Qed.

(** X8.  A goroutine that calls [goexit], with no wake-up pending for it
    ([readyonstop] clear) and on neither list threaded through
    [schedlink], is retired by [schedule]: it becomes [Gdead], loses its
    worker, its wiring (and its worker loses it) and its idle mark, its
    stack is unwound to the first segment, the segments above released,
    and it goes on the list of free goroutines, the run queue
    untouched; [grunning], [mcpu] and [gcount] drop by one.  The program
    exits with status 0 when [gcount] reaches zero; otherwise the worker
    goes on to find another goroutine, from exactly that state.  The
    first segment must be the one the goroutine was made with
    ([stackguard - StackGuard] is [stack0]); [gfput] throws otherwise. *)
Theorem goexit_retires (me gp : nat) (gr : G) (mr : M) (hs : list Stktop)
    (s : State) :
  gs s !! gp = Some gr -> ms s !! me = Some mr ->
  locks mr = 0 -> g0 mr <> Some gp ->
  predawn s = 0 -> 1 <= atomic_mcpu (atomic s) <= maxgomaxprocs + 1 ->
  readyonstop gr = false -> unlinked s gp ->
  spine gr = hs ++ [zeroStktop] -> linked hs ->
  stackbase gr <> 0 -> StackGuard < stackguard gr ->
  (first_bounds (stackbase gr) (stackguard gr) hs).2 - StackGuard = stack0 gr ->
  exists s',
    goexit me gp s =
      (if int32 (gcount s - 1) =? 0 then Exit 0 s'
       else schedule_dispatch me s') /\
    gs s' = <[gp := retired hs (set_gm None gr)]> (gs s) /\
    ms s' =
      (if is_nil (lockedm gr) then ms s
       else <[me := set_lockedg None mr]> (ms s)) /\
    gfree s' = gp :: gfree s /\
    ghead s' = ghead s /\ gwait s' = gwait s /\
    gcount s' = int32 (gcount s - 1) /\
    grunning s' = int32 (grunning s - 1) /\
    atomic s' = xadd (atomic s) (Z.shiftl (-1) mcpuShift) /\
    trace s' = trace s ++ lock_sched :: frees (stackguard gr) hs.
Proof.
  intros Hg Hm Hlocks Hg0 Hdawn Hcpu Hready _ Hsp Hl Hb Hgd Hfirst.
  unfold goexit. run. rewrite (modifyG_some _ _ _ _ Hg). cbn [bind].
  set (gr1 := set_status Gmoribund gr).
  set (s1 := set_gs (<[gp := gr1]> (gs s)) s).
  assert (Hg1 : gs s1 !! gp = Some gr1)
    by (subst s1; state; apply lookup_insert_eq).
  unfold gosched. run.
  rewrite (readM_some me mr) by (subst s1; state; exact Hm).
  cbn [bind]. rewrite Hlocks. cbn [nonzero Z.eqb negb].
  rewrite bool_decide_eq_false_2 by congruence.
  rewrite (schedule_reaches_switch me gp gr1 s1)
    by (subst s1; state; assumption).
  assert (Hg2 : gs (at_switch gp gr1 s1) !! gp = Some (set_gm None gr1))
    by (unfold at_switch; state; apply lookup_insert_eq).
  assert (Hm2 : ms (at_switch gp gr1 s1) !! me = Some mr)
    by (unfold at_switch; subst s1; state; exact Hm).
  destruct (schedule_status_retires me gp (set_gm None gr1) mr hs
              (at_switch gp gr1 s1) Hg2 Hm2 eq_refl Hg0 Hsp Hl Hb Hgd Hfirst)
    as (s' & Hrun & A & B & C & D & E & F1 & F2 & F3 & F4).
  rewrite Hrun. exists s'.
  assert (Hgone : retired hs (set_gm None gr1) = retired hs (set_gm None gr))
    by (subst gr1; destruct gr; reflexivity).
  assert (Hgs : gs s' = <[gp := retired hs (set_gm None gr)]> (gs s)).
  { rewrite A, Hgone. unfold at_switch. subst s1. state.
    now rewrite !insert_insert_eq. }
  split.
  { replace (gcount (at_switch gp gr1 s1)) with (gcount s) by reflexivity.
    destruct (int32 (gcount s - 1) =? 0); cbn [bind]; [reflexivity |].
    unfold schedule_ready. run.
    rewrite (readG_some gp (retired hs (set_gm None gr)))
      by (rewrite Hgs; apply lookup_insert_eq).
    cbn [bind].
    replace (readyonstop (retired hs (set_gm None gr))) with false
      by (rewrite <- Hready; destruct gr; reflexivity).
    reflexivity. }
  split; [exact Hgs |].
  split.
  { rewrite B. subst gr1. unfold at_switch. subst s1. state.
    destruct gr; reflexivity. }
  split; [rewrite C; reflexivity |].
  split; [rewrite F1; reflexivity |].
  split; [rewrite F2; reflexivity |].
  split; [rewrite D; reflexivity |].
  split; [rewrite F3; reflexivity |].
  split; [rewrite F4; reflexivity |].
  rewrite E. unfold at_switch. subst s1 gr1. state.
  now rewrite <- app_assoc.
Qed.

End Unwind.

(** * Hand-offs and wiring *)

Section Wiring.
Context `{Platform}.
Import Client.

Lemma stops_in_bind {A B : Type} (r : result A) (f : A -> Sch B)
    (Q1 : A -> State -> Prop) (Q : B -> State -> Prop) (E : State -> Prop) :
  stops_in Q1 E r ->
  (forall a s', Q1 a s' -> stops_in Q E (f a s')) ->
  stops_in Q E (bind r f).
Proof. intros Hc Hf. destruct r; cbn [bind stops_in] in *; auto. Qed.

Lemma ensures_stops_in {A : Type} (Q : A -> State -> Prop) E (r : result A) :
  ensures Q E r -> stops_in Q E r.
Proof. destruct r; cbn; auto. Qed.

Lemma stops_in_ensures {A : Type} (Q Q' : A -> State -> Prop) E E'
    (r : result A) :
  stops_in Q E r -> ensures Q' E' r -> ensures Q E r.
Proof. destruct r; cbn; auto. Qed.

Lemma stops_in_weaken {A : Type} (Q Q' : A -> State -> Prop)
    (E E' : State -> Prop) (r : result A) :
  stops_in Q E r ->
  (forall a s, Q a s -> Q' a s) -> (forall s, E s -> E' s) ->
  stops_in Q' E' r.
Proof. destruct r; cbn; auto. Qed.

#[local] Instance quiet_wiring_preorder : PreOrder quiet_wiring.
Proof.
  split.
  - intros s. split; [reflexivity |]. split.
    + intros m mr' Hm. right. eauto.
    + intros g gr Hg. now left.
  - intros s1 s2 s3 (A1 & B1 & C1) (A2 & B2 & C2). split; [| split].
    + etransitivity; eassumption.
    + intros m mr3 Hm3. destruct (B2 m mr3 Hm3) as [Hn | (mr2 & Hm2 & E2)];
        [now left |].
      destruct (B1 m mr2 Hm2) as [Hn | (mr1 & Hm1 & E1)].
      * left. congruence.
      * right. exists mr1. split; [exact Hm1 | congruence].
    + intros g gr Hg3. destruct (C2 g gr Hg3) as [Hg2 | Hn]; [| now right].
      apply C1, Hg2.
Qed.

Lemma quiet_wiring_ok s s' :
  wiring_ok s -> quiet_wiring s s' -> wiring_ok s'.
Proof.
  intros Hok (A & B & C) m mr' g gr lm Hm Hn Hg Hl.
  destruct (B m mr' Hm) as [Hnone | (mr & Hm0 & E)]; [congruence |].
  destruct (C g gr Hg) as [Hg0 | Hnone]; [| congruence].
  apply (Hok m mr g gr lm); congruence.
Qed.

Lemma wq_same s s' : gs s' = gs s -> ms s' = ms s -> quiet_wiring s s'.
Proof.
  intros Hg Hm. split; [now rewrite Hg |]. split.
  - intros m mr' Hm'. right. exists mr'. split; [congruence | reflexivity].
  - intros g gr Hg'. left. congruence.
Qed.

Lemma wq_modifyM m f :
  (forall x, nextg (f x) = nextg x) -> keeps quiet_wiring (modifyM m f).
Proof.
  intros Hf s. apply ensures_modifyM; [| reflexivity]. intros x Hx.
  split; [reflexivity |]. split.
  - intros m' mr' Hm'. state_in Hm'. right.
    destruct (decide (m' = m)) as [-> | Hne].
    + rewrite lookup_insert_eq in Hm'. injection Hm' as <-.
      exists x. now rewrite Hf.
    + rewrite lookup_insert_ne in Hm' by congruence. eauto.
  - intros g gr Hg. now left.
Qed.

Ltac wq_write :=
  lazymatch goal with
  | |- keeps _ (modify _) =>
      apply keeps_modify; intros; apply wq_same; reflexivity
  | |- keeps _ (emit _) =>
      apply keeps_modify; intros; apply wq_same; reflexivity
  | |- keeps _ (modifyM _ _) => apply wq_modifyM; reflexivity
  | |- keeps _ (xadd_atomic _) =>
      let s := fresh in intros s; cbn; apply wq_same; reflexivity
  end.
Ltac wq := repeat keeps_step; try wq_write.

Lemma canaddmcpu_wq : keeps quiet_wiring canaddmcpu.
Proof.
  intros s. unfold canaddmcpu.
  destruct (canaddmcpu_loop [] (atomic s)) as [b w]. cbn.
  apply wq_same; reflexivity.
Qed.

Lemma haveg_wq me : keeps quiet_wiring (haveg me).
Proof. unfold haveg. wq. Qed.

Lemma gget_wq me : keeps quiet_wiring (gget me).
Proof. unfold gget. wq. Qed.

Lemma mget_wq g : keeps quiet_wiring (mget g).
Proof. unfold mget. wq. Qed.

Lemma gput_rest_wq g gr :
  keeps quiet_wiring
    (match idlem gr with
     | Some im => gput_idle g im
     | None => gput_fifo g
     end).
Proof. unfold gput_idle, gput_fifo. wq. Qed.

Lemma schedunlock_wq : keeps quiet_wiring schedunlock.
Proof. unfold schedunlock. wq. Qed.

(** [newm], run. *)
Lemma newm_run s :
  let m := fresh (dom (ms s)) in
  let g := fresh (dom (gs s)) in
  let s1 :=
    set_mcount (int32 (mcount s + 1))
      (set_ms (<[m := set_m_id (mcount s) zeroM]> (ms s)) s) in
  newm s =
  if iscgo && negb libcgo_thread_start
  then Throw "libcgo_thread_start missing" s1
  else
    Ok m
      (emit_event (if iscgo then cgo_thread_start m else newosproc m)
         (set_ms
            (<[m := set_g0 (Some g) (set_m_id (mcount s) zeroM)]> (ms s))
            (set_gs
               (<[g := malg (if iscgo || Windows then -1 else 8192)]> (gs s))
               s1))).
Proof.
  cbv zeta. unfold newm, mcommoninit. runs. rewrite !insert_insert_eq.
  destruct (iscgo && negb libcgo_thread_start); runs; [reflexivity |].
  rewrite !insert_insert_eq. now destruct iscgo.
Qed.

Lemma wq_new_worker s m mr' (s' : State) :
  ms s !! m = None -> nextg mr' = None ->
  gs s' = gs s -> ms s' = <[m := mr']> (ms s) -> quiet_wiring s s'.
Proof.
  intros Hfresh Hn Hg Hm. split; [now rewrite Hg |]. split.
  - intros m' mr1 Hm1. rewrite Hm in Hm1.
    destruct (decide (m' = m)) as [-> | Hne].
    + rewrite lookup_insert_eq in Hm1. injection Hm1 as <-. now left.
    + rewrite lookup_insert_ne in Hm1 by congruence. eauto.
  - intros g gr Hg'. left. congruence.
Qed.

Lemma wq_new_goroutine s g gr' (s' : State) :
  gs s !! g = None -> lockedm gr' = None ->
  gs s' = <[g := gr']> (gs s) -> ms s' = ms s -> quiet_wiring s s'.
Proof.
  intros Hfresh Hl Hg Hm. split; [| split].
  - rewrite Hg. now apply insert_subseteq.
  - intros m mr' Hm'. right. exists mr'. split; [congruence | reflexivity].
  - intros g' gr1 Hg1. rewrite Hg in Hg1.
    destruct (decide (g' = g)) as [-> | Hne].
    + rewrite lookup_insert_eq in Hg1. injection Hg1 as <-. now right.
    + rewrite lookup_insert_ne in Hg1 by congruence. now left.
Qed.

Lemma malg_unwired n : lockedm (malg n) = None.
Proof. unfold malg. now destruct (0 <=? n). Qed.

Lemma fresh_G (s : State) : gs s !! fresh (dom (gs s)) = None.
Proof. apply not_elem_of_dom, is_fresh. Qed.

Lemma fresh_M (s : State) : ms s !! fresh (dom (ms s)) = None.
Proof. apply not_elem_of_dom, is_fresh. Qed.

Lemma newm_wq : keeps quiet_wiring newm.
Proof.
  intros s. rewrite newm_run.
  destruct (iscgo && negb libcgo_thread_start); cbn [ensures].
  - eapply wq_new_worker; [apply fresh_M | | reflexivity | reflexivity].
    reflexivity.
  - etransitivity.
    + eapply (wq_new_goroutine s _ _
        (set_gs (<[fresh (dom (gs s)) :=
                    malg (if iscgo || Windows then -1 else 8192)]> (gs s)) s));
        [apply fresh_G | apply malg_unwired | reflexivity | reflexivity].
    + eapply wq_new_worker; [apply fresh_M | | reflexivity | reflexivity].
      reflexivity.
Qed.

Lemma wq_step {A : Type} (c : Sch A) s :
  keeps quiet_wiring c -> wiring_ok s ->
  stops_in (fun _ s' => wiring_ok s' /\ quiet_wiring s s') (fun _ => True)
    (c s).
Proof.
  intros Hc Hok. apply ensures_stops_in.
  eapply ensures_weaken; [apply Hc | |]; cbn beta; auto.
  intros _ s' Hq. split; [| exact Hq]. eapply quiet_wiring_ok; eassumption.
Qed.

(** A hand-off to a worker the goroutine may run on. *)
Lemma mnextg_wiring m g s :
  wiring_ok s -> runs_here m g s ->
  ensures (fun _ s' => wiring_ok s' /\ gs s' = gs s) (fun _ => True)
    (mnextg m g s).
Proof.
  intros Hok Hhere. unfold mnextg. run.
  destruct (ms s !! m) as [mr |] eqn:Hm;
    [| unfold modifyM at 1; state; rewrite Hm; exact I].
  assert (Hins : forall (s' : State) mr',
    gs s' = gs s -> ms s' = <[m := mr']> (ms s) -> nextg mr' = Some g ->
    wiring_ok s').
  { intros s' mr' Eg Em En.
    intros m1 mr1 g1 gr1 lm Hm1 Hn1 Hg1 Hl1. rewrite Em in Hm1.
    rewrite Eg in Hg1.
    destruct (decide (m1 = m)) as [-> | Hne].
    - rewrite lookup_insert_eq in Hm1. injection Hm1 as <-.
      rewrite En in Hn1. injection Hn1 as <-. eapply Hhere; eassumption.
    - rewrite lookup_insert_ne in Hm1 by congruence.
      eapply Hok; eassumption. }
  runs. destruct (waitnextg mr); runs.
  - destruct (mwakeup s); run; (split; [| reflexivity]);
      eapply Hins; state; rewrite ?insert_insert_eq; reflexivity.
  - split; [| reflexivity]. eapply Hins; reflexivity.
Qed.

(** The worker [mget] answers for a wired goroutine is its own. *)
Lemma mget_wiring g s :
  wiring_ok s ->
  stops_in
    (fun om s' =>
       wiring_ok s' /\
       match om with
       | Some m => runs_here m g s'
       | None => forall m, runs_here m g s'
       end)
    (fun _ => True) (mget g s).
Proof.
  intros Hok. unfold mget. run.
  destruct (gs s !! g) as [gr |] eqn:Hg;
    [rewrite (readG_some _ _ _ Hg) | unfold readG; rewrite Hg; exact I].
  run. destruct (lockedm gr) as [lm |] eqn:Hl; run.
  - split; [exact Hok |]. intros gr' lm' Hg' Hl'. congruence.
  - assert (Hun : forall m (s' : State), gs s' = gs s -> runs_here m g s').
    { intros m s' Eg gr' lm' Hg' Hl'. rewrite Eg in Hg'. congruence. }
    assert (Hok' : forall (s' : State),
      gs s' = gs s -> ms s' = ms s -> wiring_ok s').
    { intros s' Eg Em. eapply quiet_wiring_ok; [exact Hok |].
      now apply wq_same. }
    destruct (mhead s) as [| m rest]; run.
    + split; [exact Hok |]. intros m. now apply Hun.
    + split; [now apply Hok' | now apply Hun].
Qed.

Lemma runs_here_quiet m g s s' :
  (forall m', runs_here m' g s) -> quiet_wiring s s' -> runs_here m g s'.
Proof.
  intros Hun (_ & _ & C) gr lm Hg Hl.
  destruct (C g gr Hg) as [Hg0 | Hnone]; [| congruence].
  eapply Hun; eassumption.
Qed.

Lemma matchmg_loop_wiring (me : nat) (fuel : nat) : forall s,
  wiring_ok s ->
  stops_in (fun _ s' => wiring_ok s') (fun _ => True)
    (matchmg_loop fuel me s).
Proof.
  induction fuel as [| fuel IH]; intros s Hok; [exact I |].
  cbn [matchmg_loop]. unfold mbind at 1, Sch_bind at 1.
  eapply stops_in_bind; [apply wq_step; [apply haveg_wq | exact Hok] |].
  cbn beta. intros [|] s1 [Hok1 _]; cbn [negb]; [| exact Hok1].
  unfold mbind at 1, Sch_bind at 1.
  eapply stops_in_bind; [apply wq_step; [apply canaddmcpu_wq | exact Hok1] |].
  cbn beta. intros [|] s2 [Hok2 _]; cbn [negb]; [| exact Hok2].
  unfold mbind at 1, Sch_bind at 1.
  eapply stops_in_bind; [apply wq_step; [apply gget_wq | exact Hok2] |].
  cbn beta. intros [g |] s3 [Hok3 _]; [| exact I].
  unfold mbind at 1, Sch_bind at 1.
  eapply stops_in_bind; [apply mget_wiring; exact Hok3 |].
  cbn beta. intros om s4 [Hok4 Hhere].
  unfold mbind at 1, Sch_bind at 1.
  eapply stops_in_bind.
  { instantiate (1 := fun m s5 => wiring_ok s5 /\ runs_here m g s5).
    destruct om as [m |].
    - cbn. now split.
    - eapply stops_in_weaken;
        [apply wq_step; [apply newm_wq | exact Hok4] | | auto].
      cbn beta. intros m s5 [Hok5 Hq]. split; [exact Hok5 |].
      eapply runs_here_quiet; eassumption. }
  cbn beta. intros m s5 [Hok5 Hhere5].
  unfold mbind at 1, Sch_bind at 1.
  eapply stops_in_bind.
  { apply ensures_stops_in. apply mnextg_wiring; eassumption. }
  cbn beta. intros _ s6 [Hok6 _]. now apply IH.
Qed.

Lemma matchmg_wiring me s :
  wiring_ok s ->
  ensures (fun _ s' => wiring_ok s') (fun _ => True) (matchmg me s).
Proof.
  intros Hok. eapply stops_in_ensures; [| apply (matchmg_frame me s)].
  unfold matchmg. unfold mbind at 1, Sch_bind at 1.
  eapply stops_in_bind;
    [apply wq_step; [apply (keeps_readM quiet_wiring) | exact Hok] |].
  cbn beta. intros mr s1 [Hok1 _].
  destruct (nonzero (mallocing mr) || nonzero (gcing mr)); [exact Hok1 |].
  run. now apply matchmg_loop_wiring.
Qed.

Lemma gput_wiring g s :
  wiring_ok s ->
  ensures (fun _ s' => wiring_ok s') (fun _ => True) (gput g s).
Proof.
  intros Hok. unfold gput. run.
  destruct (gs s !! g) as [gr |] eqn:Hg;
    [rewrite (readG_some _ _ _ Hg) | unfold readG; rewrite Hg; exact I].
  run.
  assert (Hrest : forall (s' : State), wiring_ok s' ->
    ensures (fun _ s' => wiring_ok s') (fun _ => True)
      (match idlem gr with
       | Some im => gput_idle g im
       | None => gput_fifo g
       end s')).
  { intros s' Hok'. eapply ensures_weaken; [apply gput_rest_wq | |];
      cbn beta; [| auto].
    intros _ s2 Hq. eapply quiet_wiring_ok; eassumption. }
  destruct (lockedm gr) as [lm |] eqn:Hl; run; [| now apply Hrest].
  unfold canaddmcpu. destruct (canaddmcpu_loop [] (atomic s)) as [b w].
  cbn [bind].
  assert (Hok2 : wiring_ok (set_atomic w s))
    by (eapply quiet_wiring_ok; [exact Hok |]; now apply wq_same).
  destruct b; [| now apply Hrest].
  eapply ensures_weaken; [apply mnextg_wiring | |]; cbn beta; auto.
  - intros gr' lm' Hg' Hl'. state_in Hg'. congruence.
  - intros _ s' [Hok' _]. exact Hok'.
Qed.

Lemma wq_clear_nextg m : keeps quiet_wiring (modifyM m (set_nextg None)).
Proof.
  intros s. apply ensures_modifyM; [| reflexivity]. intros x Hx.
  split; [reflexivity |]. split.
  - intros m' mr' Hm'. state_in Hm'.
    destruct (decide (m' = m)) as [-> | Hne].
    + rewrite lookup_insert_eq in Hm'. injection Hm' as <-. now left.
    + rewrite lookup_insert_ne in Hm' by congruence. eauto.
  - intros g gr Hg. now left.
Qed.

Lemma runs_here_kept m g s s' :
  runs_here m g s -> quiet_wiring s s' -> runs_here m g s'.
Proof.
  intros Hh (_ & _ & C) gr lm Hg Hl.
  destruct (C g gr Hg) as [Hg0 | Hnone]; [| congruence].
  eapply Hh; eassumption.
Qed.

Lemma take_nextg_wiring me s :
  wiring_ok s ->
  ensures
    (fun r s' =>
       wiring_ok s' /\ forall gp, r = Some gp -> runs_here me gp s')
    (fun _ => True) (take_nextg me s).
Proof.
  intros Hok. unfold take_nextg. run.
  destruct (ms s !! me) as [mr |] eqn:Hm;
    [rewrite (readM_some _ _ _ Hm) | unfold readM; rewrite Hm; exact I].
  run. destruct (nextg mr) as [gp |] eqn:Hn; run;
    [| split; [exact Hok | discriminate]].
  assert (Hhere : runs_here me gp s).
  { intros gr lm Hg Hl. eapply Hok; eassumption. }
  eapply (ensures_keeps_bind quiet_wiring);
    [reflexivity | apply wq_clear_nextg | auto |].
  intros _ s1 Q1.
  eapply (ensures_keeps_bind quiet_wiring);
    [exact Q1 | apply schedunlock_wq | auto |].
  intros _ s2 Q2. cbn [ensures]. split.
  - eapply quiet_wiring_ok; eassumption.
  - intros gp' [= <-]. eapply runs_here_kept; eassumption.
Qed.

Lemma nextg_loop_wiring (me : nat) (fuel : nat) : forall s,
  wiring_ok s ->
  stops_in
    (fun r s' =>
       wiring_ok s' /\ forall gp, r = Some gp -> runs_here me gp s')
    (fun _ => True) (nextg_loop fuel me s).
Proof.
  induction fuel as [| fuel IH]; intros s Hok; [exact I |].
  cbn [nextg_loop]. unfold mbind at 1, Sch_bind at 1.
  eapply stops_in_bind; [apply wq_step; [apply haveg_wq | exact Hok] |].
  cbn beta. intros [|] s1 [Hok1 _]; cbn [negb];
    [| split; [exact Hok1 | discriminate]].
  unfold mbind at 1, Sch_bind at 1.
  eapply stops_in_bind; [apply wq_step; [apply canaddmcpu_wq | exact Hok1] |].
  cbn beta. intros [|] s2 [Hok2 _]; cbn [negb];
    [| split; [exact Hok2 | discriminate]].
  unfold mbind at 1, Sch_bind at 1.
  eapply stops_in_bind; [apply wq_step; [apply gget_wq | exact Hok2] |].
  cbn beta. intros [gp |] s3 [Hok3 _]; [| exact I].
  unfold mbind at 1, Sch_bind at 1.
  destruct (gs s3 !! gp) as [gr |] eqn:Hg;
    [rewrite (readG_some _ _ _ Hg) | unfold readG; rewrite Hg; exact I].
  cbn [bind]. destruct (lockedm gr) as [lm |] eqn:Hl.
  - unfold mbind at 1, Sch_bind at 1.
    eapply stops_in_bind.
    { apply ensures_stops_in. apply mnextg_wiring; [exact Hok3 |].
      intros gr' lm' Hg' Hl'. congruence. }
    cbn beta. intros _ s4 [Hok4 _]. now apply IH.
  - run. apply ensures_stops_in.
    eapply (ensures_keeps_bind quiet_wiring);
      [apply wq_same; reflexivity | apply schedunlock_wq | auto |].
    intros _ s4 Q4. cbn [ensures]. split.
    + eapply quiet_wiring_ok; eassumption.
    + intros gp' [= <-]. eapply runs_here_kept; [| exact Q4].
      intros gr' lm' Hg' Hl'. state_in Hg'. congruence.
Qed.

Lemma find_work_wiring me s :
  wiring_ok s ->
  ensures
    (fun r s' =>
       wiring_ok s' /\ forall gp, r = Some gp -> runs_here me gp s')
    (fun _ => True) (find_work me s).
Proof.
  intros Hok. eapply stops_in_ensures; [| apply (find_work_cpu me s)].
  unfold find_work. run.
  destruct (ms s !! me) as [mr |] eqn:Hm;
    [rewrite (readM_some _ _ _ Hm) | unfold readM; rewrite Hm; exact I].
  cbn [bind]. destruct (lockedg mr) as [lg |]; run.
  - destruct (nonzero (gwait s)); run; [| split; [exact Hok | discriminate]].
    apply ensures_stops_in. eapply ensures_bind;
      [apply matchmg_wiring; exact Hok |].
    cbn beta. intros _ s1 Hok1. now apply take_nextg_wiring.
  - eapply stops_in_bind; [apply nextg_loop_wiring; exact Hok |].
    cbn beta. intros [gp |] s1 [Hok1 Hh]; run; [now split |].
    split; [| discriminate].
    eapply quiet_wiring_ok; [exact Hok1 |]. now apply wq_same.
Qed.

(** X9.  Hand-offs respect wiring.  In a state where no worker has been
    handed a goroutine wired to another worker, [gput] and [matchmg]
    leave it so: a wired goroutine goes to the [nextg] of its own worker
    or stays on the queue.  And what a worker takes to run, from its own
    [nextg] or from the queue, is never wired to another worker: a wired
    goroutine found on the queue is passed on to its worker. *)
Theorem handoff_respects_wiring (me g : nat) (s : State) :
  wiring_ok s ->
  ensures (fun _ s' => wiring_ok s') (fun _ => True) (gput g s) /\
  ensures (fun _ s' => wiring_ok s') (fun _ => True) (matchmg me s) /\
  ensures
    (fun r s' =>
       wiring_ok s' /\ forall gp, r = Some gp -> runs_here me gp s')
    (fun _ => True) (take_nextg me s) /\
  ensures
    (fun r s' =>
       wiring_ok s' /\ forall gp, r = Some gp -> runs_here me gp s')
    (fun _ => True) (find_work me s).
Proof.
  intros Hok. split; [now apply gput_wiring |].
  split; [now apply matchmg_wiring |].
  split; [now apply take_nextg_wiring | now apply find_work_wiring].
Qed.

(** X10.  [LockOSThread] wires the running goroutine and its worker to
    each other, [lockedOSThread] then answers true, and
    [UnlockOSThread] takes the state back to what it was; during
    initialization [LockOSThread] throws.  Once wired, the goroutine
    made ready goes straight to the [nextg] of its worker when a
    processor is free ([mcpu] is incremented, the queue is not
    touched), and waits on the run queue like any other when none is. *)
Theorem wire_and_unwire (me g : nat) (gr : G) (mr : M) (s : State) :
  gs s !! g = Some gr -> ms s !! me = Some mr ->
  lockedm gr = None -> lockedg mr = None ->
  let s1 :=
    set_gs (<[g := set_lockedm (Some me) gr]> (gs s))
      (set_ms (<[me := set_lockedg (Some g) mr]> (ms s)) s) in
  (predawn s <> 0 ->
   LockOSThread me g s = Throw "cannot wire during init" s) /\
  (predawn s = 0 -> LockOSThread me g s = Ok tt s1) /\
  lockedOSThread me g s = Ok false s /\
  lockedOSThread me g s1 = Ok true s1 /\
  UnlockOSThread me g s1 = Ok tt s /\
  (atomic_mcpu (atomic s) < atomic_mcpumax (atomic s) ->
   exists s2 mr2,
     gput g s1 = Ok tt s2 /\ ghead s2 = ghead s /\
     ms s2 !! me = Some mr2 /\ nextg mr2 = Some g /\
     atomic_mcpu (atomic s2) = atomic_mcpu (atomic s) + 1) /\
  (atomic_mcpumax (atomic s) <= atomic_mcpu (atomic s) -> idlem gr = None ->
   gput g s1 = gput_fifo g s1).
Proof.
  intros Hg Hm Hl Hlg s1.
  assert (Hg1 : gs s1 !! g = Some (set_lockedm (Some me) gr))
    by (subst s1; state; apply lookup_insert_eq).
  assert (Hm1 : ms s1 !! me = Some (set_lockedg (Some g) mr))
    by (subst s1; state; apply lookup_insert_eq).
  split; [| split; [| split; [| split; [| split; [| split]]]]].
  - intros Hp. unfold LockOSThread. run. unfold nonzero.
    now destruct (Z.eqb_spec (predawn s) 0).
  - intros Hp. unfold LockOSThread. run. rewrite Hp.
    cbn [nonzero Z.eqb negb]. runs. reflexivity.
  - unfold lockedOSThread. runs. now rewrite Hl.
  - unfold lockedOSThread. run. rewrite (readG_some _ _ _ Hg1). run.
    now rewrite (readM_some _ _ _ Hm1).
  - unfold UnlockOSThread. run. rewrite (modifyM_some _ _ _ _ Hm1). run.
    erewrite modifyG_some by (state; exact Hg1). f_equal.
    subst s1. state. rewrite !insert_insert_eq.
    replace (set_lockedg None (set_lockedg (Some g) mr)) with mr
      by (destruct mr; cbn in Hlg; now subst).
    replace (set_lockedm None (set_lockedm (Some me) gr)) with gr
      by (destruct gr; cbn in Hl; now subst).
    rewrite (insert_id _ _ _ Hg), (insert_id _ _ _ Hm).
    same_state s; try reflexivity.
  - intros Hfree. unfold gput. run. rewrite (readG_some _ _ _ Hg1). run.
    unfold canaddmcpu. cbn [canaddmcpu_loop].
    replace (atomic s1) with (atomic s) by reflexivity.
    destruct (Z.geb_spec (atomic_mcpu (atomic s)) (atomic_mcpumax (atomic s)));
      [lia |].
    cbn [bind]. unfold mnextg. run.
    erewrite modifyM_some by (state; exact Hm1). run.
    erewrite readM_some by (state; apply lookup_insert_eq). run.
    destruct (xadd_incr (atomic s)) as (Hinc & _).
    { pose proof (mcpumax_range (atomic s)). lia. }
    destruct (waitnextg mr); runs.
    + destruct (mwakeup s1); run; eexists _, _;
        (split; [reflexivity |]); state;
        (split; [reflexivity |]);
        (split; [apply lookup_insert_eq |]);
        (split; [reflexivity | exact Hinc]).
    + eexists _, _. split; [reflexivity |]. state.
      split; [reflexivity |]. split; [apply lookup_insert_eq |].
      split; [reflexivity | exact Hinc].
  - intros Hfull Hi. unfold gput. run. rewrite (readG_some _ _ _ Hg1). run.
    unfold canaddmcpu. cbn [canaddmcpu_loop].
    replace (atomic s1) with (atomic s) by reflexivity.
    destruct (Z.geb_spec (atomic_mcpu (atomic s)) (atomic_mcpumax (atomic s)));
      [| lia].
    cbn [bind]. rewrite Hi. reflexivity.
Qed.

End Wiring.

(** * Relations that matching keeps *)

Section MatchKeeps.
Context `{Platform}.
Context (R : State -> State -> Prop) `{!PreOrder R}.
Import Client.

Hypothesis R_haveg : forall me, keeps R (haveg me).
Hypothesis R_canaddmcpu : keeps R canaddmcpu.
Hypothesis R_gget : forall me, keeps R (gget me).
Hypothesis R_mget : forall g, keeps R (mget g).
Hypothesis R_newm : keeps R newm.
Hypothesis R_mnextg : forall m g, keeps R (mnextg m g).

Lemma stops_keeps_bind {A B : Type} (c : Sch A) (f : A -> Sch B) s0 s1 :
  R s0 s1 -> keeps R c ->
  (forall a s2, R s0 s2 ->
     stops_in (fun _ s' => R s0 s') (R s0) (f a s2)) ->
  stops_in (fun _ s' => R s0 s') (R s0) (bind (c s1) f).
Proof.
  intros K1 Hc Hf. eapply stops_in_bind.
  - apply ensures_stops_in. eapply ensures_weaken; [apply Hc | |]; cbn beta.
    + intros a s2 K2. instantiate (1 := fun _ s2 => R s0 s2).
      cbn beta. etransitivity; eassumption.
    + intros s2 K2. etransitivity; eassumption.
  - cbn beta. exact Hf.
Qed.

Lemma matchmg_loop_keeps (me : nat) (fuel : nat) : forall s0 s,
  R s0 s ->
  stops_in (fun _ s' => R s0 s') (R s0) (matchmg_loop fuel me s).
Proof.
  induction fuel as [| fuel IH]; intros s0 s K; [exact I |].
  cbn [matchmg_loop]. unfold mbind at 1, Sch_bind at 1.
  apply stops_keeps_bind; [exact K | apply R_haveg |].
  intros [|] s1 K1; cbn [negb]; [| exact K1].
  unfold mbind at 1, Sch_bind at 1.
  apply stops_keeps_bind; [exact K1 | apply R_canaddmcpu |].
  intros [|] s2 K2; cbn [negb]; [| exact K2].
  unfold mbind at 1, Sch_bind at 1.
  apply stops_keeps_bind; [exact K2 | apply R_gget |].
  intros [g |] s3 K3; [| exact K3].
  unfold mbind at 1, Sch_bind at 1.
  apply stops_keeps_bind; [exact K3 | apply R_mget |].
  intros om s4 K4.
  unfold mbind at 1, Sch_bind at 1.
  apply stops_keeps_bind;
    [exact K4 | destruct om; [apply keeps_ret; exact _ | apply R_newm] |].
  intros m s5 K5.
  unfold mbind at 1, Sch_bind at 1.
  apply stops_keeps_bind; [exact K5 | apply R_mnextg |].
  intros _ s6 K6. now apply IH.
Qed.

Lemma matchmg_keeps me : keeps R (matchmg me).
Proof.
  intros s. eapply stops_in_ensures; [| apply (matchmg_frame me s)].
  unfold matchmg. run.
  destruct (ms s !! me) as [mr |] eqn:Hm;
    [rewrite (readM_some _ _ _ Hm)
    | unfold readM; rewrite Hm; cbn; reflexivity].
  cbn [bind]. destruct (nonzero (mallocing mr) || nonzero (gcing mr));
    [cbn; reflexivity |].
  apply matchmg_loop_keeps. reflexivity.
Qed.

End MatchKeeps.

(** * Parking a worker and waking it *)

Section Park.
Context `{Platform}.
Import Client.

(** X11.  A worker that finds nothing to run parks, and a hand-off wakes
    it with the goroutine handed.  With its [nextg] empty, the queue
    empty and no idle goroutine, [nextgandunlock] puts the worker on the
    list of idle workers and throws when no goroutine runs anywhere
    ("all goroutines are asleep"); otherwise it sets [waitnextg], clears
    its note, wakes the thread stopping the world when that one waits
    and [mcpu <= mcpumax], and only then releases the lock and sleeps.
    When another worker then hands it a goroutine ([mnextg] under the
    lock, then [schedunlock]), the note is signalled after the unlock
    and the sleeper returns that goroutine, its [nextg] empty again;
    woken with an empty [nextg] it throws. *)
Theorem park_and_wake (me g : nat) (mr : M) (s : State) :
  ms s !! me = Some mr ->
  nextg mr = None -> lockedg mr = None -> idleg mr = None ->
  ghead s = [] -> mwakeup s = None ->
  atomic_mcpu (atomic s) < maxgomaxprocs ->
  (grunning s = 0 ->
   nextgandunlock me s =
   Throw "all goroutines are asleep - deadlock!"
     (set_mwait (int32 (mwait s + 1)) (set_mhead (me :: mhead s) s))) /\
  (grunning s <> 0 ->
   exists s1 k,
     nextgandunlock me s = Park s1 k /\
     mhead s1 = me :: mhead s /\
     ms s1 = <[me := set_waitnextg true mr]> (ms s) /\
     mwakeup s1 = None /\
     trace s1 =
       trace s ++ [noteclear (havenextg me)]
         ++ (if stop_quorum (atomic s) then [notewakeup stopped] else [])
         ++ [unlock_sched; notesleep (havenextg me)] /\
     (forall s2 mr2,
        ms s2 !! me = Some mr2 -> nextg mr2 = None ->
        k s2 = Throw "bad m->nextg in nextgoroutine" s2) /\
     exists s2 s3,
       bind (mnextg me g (emit_event lock_sched s1)) (fun _ => schedunlock)
         = Ok tt s2 /\
       trace s2 =
         trace s1 ++ [lock_sched; unlock_sched; notewakeup (havenextg me)] /\
       k s2 = Ok g s3 /\
       ms s3 !! me = Some (set_waitnextg false mr)).
Proof.
  intros Hm Hn Hlg Hidle Hq Hwake Hcpu.
  assert (Hpre : nextgandunlock me s =
    park me (set_mwait (int32 (mwait s + 1)) (set_mhead (me :: mhead s) s))).
  { unfold nextgandunlock, take_nextg, find_work. run.
    destruct (Z.geb_spec (atomic_mcpu (atomic s)) maxgomaxprocs); [lia |].
    runs. rewrite Hn. runs. rewrite Hlg. runs.
    cbn [loop_fuel nextg_loop]. unfold haveg. runs. rewrite Hq. runs.
    rewrite Hidle. run. unfold mput. run. reflexivity. }
  rewrite Hpre. unfold park. run. split.
  - intros ->. reflexivity.
  - intros Hrun. destruct (Z.eqb_spec (grunning s) 0); [contradiction |].
    runs. rewrite insert_insert_eq.
    replace (set_waitnextg true (set_nextg None mr))
      with (set_waitnextg true mr)
      by (destruct mr; cbn in Hn; now subst).
    unfold quorum_wake, wake_stopped, schedunlock, sleep_havenextg.
    destruct (stop_quorum (atomic s)); run; rewrite Hwake; run;
      eexists _, _; (split; [reflexivity |]); state;
      (split; [reflexivity |]); (split; [reflexivity |]);
      (split; [reflexivity |]);
      (split; [now rewrite <- !app_assoc |]);
      (split;
       [intros s2 mr2 Hm2 Hn2; rewrite (readM_some _ _ _ Hm2); cbn [bind];
        now rewrite Hn2 |]);
      unfold mnextg; runs; rewrite insert_insert_eq;
      eexists _, _; (split; [reflexivity |]); state;
      (split; [now rewrite <- !app_assoc |]);
      runs; (split; [reflexivity |]); state;
      rewrite !insert_insert_eq, lookup_insert_eq; f_equal;
      destruct mr; cbn in Hn; now subst.
Qed.

End Park.

(** * Stopping and starting the world *)

Section World.
Context `{Platform}.
Import Client.

Lemma waitstop_up v :
  atomic_waitstop v = 0 ->
  let w := uint32 (v + Z.shiftl 1 waitstopShift) in
  atomic_mcpu w = atomic_mcpu v /\
  atomic_mcpumax w = atomic_mcpumax v /\
  atomic_waitstop w = 1 /\
  atomic_gwaiting w = atomic_gwaiting v.
Proof.
  intros Hw w. subst w. change (Z.shiftl 1 waitstopShift) with (2 ^ 30).
  split_word v.
  replace (v + 2 ^ 30)
    with (a + 2 ^ 15 * b + 2 ^ 30 * 1 + 2 ^ 31 * d + 2 ^ 32 * e) by lia.
  destruct (uint32_fields a b 1 d e) as (-> & -> & -> & ->); lia.
Qed.

Lemma setmcpumax_one v :
  let w := setmcpumax_loop (uint32 1) [] v in
  atomic_mcpu w = atomic_mcpu v /\ atomic_mcpumax w = 1 /\
  atomic_waitstop w = atomic_waitstop v /\
  atomic_gwaiting w = atomic_gwaiting v.
Proof.
  cbv zeta. change (setmcpumax_loop (uint32 1) [] v) with (setmcpumax_word 1 v).
  destruct (setmcpumax_word_flags 1 v) as [A B]; [lia |].
  rewrite setmcpumax_word_mcpu, setmcpumax_word_mcpumax.
  repeat split; assumption.
Qed.

(** X12.  [stoptheworld] lowers the cap to 1 and waits until at most one
    goroutine runs.  When that is so already it returns without
    sleeping, [gcwaiting] set.  Otherwise it clears the note [stopped],
    sets [waitstop] in the atomic word, releases the lock and sleeps on
    the note; woken in a state where [mcpu <= 1] it takes the lock again
    and returns.  It throws when it finds [waitstop] already set. *)
Theorem stoptheworld_waits (fuel : nat) (s : State) :
  mwakeup s = None -> (2 <= fuel)%nat ->
  (atomic_mcpu (atomic s) <= 1 ->
   exists s',
     stoptheworld fuel s = Ok tt s' /\
     gcwaiting s' = 1 /\ atomic_mcpumax (atomic s') = 1 /\
     atomic_mcpu (atomic s') = atomic_mcpu (atomic s) /\
     singleproc s' = (gomaxprocs s =? 1) /\
     trace s' = trace s ++ [lock_sched; unlock_sched]) /\
  (1 < atomic_mcpu (atomic s) -> atomic_waitstop (atomic s) <> 0 ->
   exists s', stoptheworld fuel s = Throw "invalid waitstop" s') /\
  (1 < atomic_mcpu (atomic s) -> atomic_waitstop (atomic s) = 0 ->
   exists s1 k,
     stoptheworld fuel s = Park s1 k /\
     gcwaiting s1 = 1 /\ atomic_mcpumax (atomic s1) = 1 /\
     atomic_waitstop (atomic s1) = 1 /\
     atomic_mcpu (atomic s1) = atomic_mcpu (atomic s) /\
     trace s1 =
       trace s ++
       [lock_sched; noteclear stopped; unlock_sched; notesleep stopped] /\
     forall s2,
       atomic_mcpu (atomic s2) <= 1 -> mwakeup s2 = None ->
       exists s3,
         k s2 = Ok tt s3 /\
         trace s3 = trace s2 ++ [lock_sched; unlock_sched] /\
         atomic s3 = atomic s2 /\ gcwaiting s3 = gcwaiting s2).
Proof.
  intros Hwake Hfuel.
  destruct fuel as [| [| fuel]]; [lia | lia |].
  destruct (setmcpumax_one (atomic s)) as (Hcpu & Hmax & Hws & Hgw).
  unfold stoptheworld, schedlock. run.
  set (w := setmcpumax_loop (uint32 1) [] (atomic s)) in *.
  cbn [stoptheworld_loop]. run. rewrite Hcpu. split; [| split].
  - intros Hle. destruct (Z.leb_spec (atomic_mcpu (atomic s)) 1); [| lia].
    unfold schedunlock. run. rewrite Hwake. run.
    eexists. split; [reflexivity |]. state.
    rewrite <- app_assoc. now repeat split.
  - intros Hgt Hne. destruct (Z.leb_spec (atomic_mcpu (atomic s)) 1); [lia |].
    run. rewrite Hws. unfold nonzero.
    destruct (Z.eqb_spec (atomic_waitstop (atomic s)) 0); [contradiction |].
    run. eexists. reflexivity.
  - intros Hgt Hz. destruct (Z.leb_spec (atomic_mcpu (atomic s)) 1); [lia |].
    run. rewrite Hws, Hz. cbn [nonzero Z.eqb negb]. run.
    destruct (waitstop_up w) as (Ucpu & Umax & Uws & Ugw); [congruence |].
    unfold schedunlock, sleep_stopped. run. rewrite Hwake. run.
    eexists _, _. split; [reflexivity |]. state.
    split; [reflexivity |]. split; [congruence |]. split; [exact Uws |].
    split; [congruence |]. split; [now rewrite <- !app_assoc |].
    intros s2 Hle2 Hwake2. unfold schedlock. run.
    destruct (Z.leb_spec (atomic_mcpu (atomic s2)) 1); [| lia].
    run. rewrite Hwake2. run. eexists. split; [reflexivity |]. state.
    rewrite <- app_assoc. now repeat split.
Qed.

#[local] Instance settings_kept_preorder : PreOrder settings_kept.
Proof.
  split.
  - intros s. now repeat split.
  - intros s1 s2 s3 (A1 & B1 & C1 & D1) (A2 & B2 & C2 & D2).
    repeat split; congruence.
Qed.

Ltac settings := intros; repeat split; reflexivity.
Ltac sk_write :=
  lazymatch goal with
  | |- keeps _ (xadd_atomic _) =>
      let s := fresh in intros s; cbn; settings
  | _ => keeps_write settings
  end.
Ltac sk := repeat keeps_step; try sk_write.

Lemma canaddmcpu_settings : keeps settings_kept canaddmcpu.
Proof.
  intros s. unfold canaddmcpu.
  destruct (canaddmcpu_loop [] (atomic s)) as [b w]. cbn. settings.
Qed.

Lemma mnextg_settings m g : keeps settings_kept (mnextg m g).
Proof. unfold mnextg. sk. Qed.

Lemma newm_settings : keeps settings_kept newm.
Proof. unfold newm, mcommoninit. sk. Qed.

Lemma matchmg_settings me : keeps settings_kept (matchmg me).
Proof.
  apply matchmg_keeps; [exact _ | | | | | |]; intros.
  - unfold haveg. sk.
  - apply canaddmcpu_settings.
  - unfold gget. sk.
  - unfold mget. sk.
  - apply newm_settings.
  - apply mnextg_settings.
Qed.

Lemma schedunlock_settings : keeps settings_kept schedunlock.
Proof. unfold schedunlock. sk. Qed.

(** The settings across a round of the scheduler. *)
Lemma take_nextg_settings me : keeps settings_kept (take_nextg me).
Proof. unfold take_nextg. sk. apply schedunlock_settings. Qed.

Lemma nextg_loop_stops (me : nat) (fuel : nat) : forall s0 s,
  settings_kept s0 s ->
  stops_in (fun _ s' => settings_kept s0 s') (settings_kept s0)
    (nextg_loop fuel me s).
Proof.
  induction fuel as [| fuel IH]; intros s0 s K; [exact I |].
  cbn [nextg_loop]. unfold mbind at 1, Sch_bind at 1.
  apply (stops_keeps_bind settings_kept); [exact K | unfold haveg; sk |].
  intros [|] s1 K1; cbn [negb]; [| exact K1].
  unfold mbind at 1, Sch_bind at 1.
  apply (stops_keeps_bind settings_kept);
    [exact K1 | apply canaddmcpu_settings |].
  intros [|] s2 K2; cbn [negb]; [| exact K2].
  unfold mbind at 1, Sch_bind at 1.
  apply (stops_keeps_bind settings_kept); [exact K2 | unfold gget; sk |].
  intros [gp |] s3 K3; [| exact K3].
  unfold mbind at 1, Sch_bind at 1.
  apply (stops_keeps_bind settings_kept);
    [exact K3 | apply keeps_readG; exact _ |].
  intros gr s4 K4. destruct (lockedm gr) as [lm |].
  - unfold mbind at 1, Sch_bind at 1.
    apply (stops_keeps_bind settings_kept);
      [exact K4 | apply mnextg_settings |].
    intros _ s5 K5. now apply IH.
  - unfold mbind at 1, Sch_bind at 1.
    apply (stops_keeps_bind settings_kept);
      [exact K4 | apply keeps_modify; settings |].
    intros _ s5 K5. unfold mbind at 1, Sch_bind at 1.
    apply (stops_keeps_bind settings_kept);
      [exact K5 | apply schedunlock_settings |].
    intros _ s6 K6. exact K6.
Qed.

Lemma find_work_settings me : keeps settings_kept (find_work me).
Proof.
  intros s. unfold find_work. unfold mbind at 1, Sch_bind at 1.
  eapply (ensures_keeps_bind settings_kept);
    [reflexivity | apply keeps_readM; exact _ | auto |].
  intros mr s1 K1. destruct (lockedg mr) as [lg |].
  - eapply ensures_weaken.
    + assert (Hk : keeps settings_kept
        (s ← get;
         if nonzero (gwait s) then matchmg me;; take_nextg me
         else mret None)).
      { sk; [apply matchmg_settings | apply take_nextg_settings]. }
      apply Hk.
    + cbn beta. intros a s2 K2. etransitivity; eassumption.
    + cbn beta. intros s2 K2. etransitivity; eassumption.
  - run. eapply ensures_bind.
    { eapply stops_in_ensures;
        [apply (nextg_loop_stops me _ s s1 K1)
        | apply (nextg_loop_cpu me _ s1), loop_fuel_enough]. }
    cbn beta. intros [gp |] s2 K2; run; [exact K2 |].
    destruct K2 as (A & B & C & D). repeat split; assumption.
Qed.

Lemma park_settings me : keeps settings_kept (park me).
Proof.
  unfold park, quorum_wake, wake_stopped. sk;
    try apply schedunlock_settings.
  intros s. cbn. settings.
Qed.

Lemma nextgandunlock_settings me : keeps settings_kept (nextgandunlock me).
Proof.
  unfold nextgandunlock. sk;
    first [apply take_nextg_settings | apply find_work_settings
          | apply park_settings].
Qed.

Lemma gput_settings g : keeps settings_kept (gput g).
Proof.
  unfold gput, gput_idle, gput_fifo. sk;
    first [apply canaddmcpu_settings | apply mnextg_settings].
Qed.

Lemma readylocked_settings me g : keeps settings_kept (readylocked me g).
Proof.
  unfold readylocked. sk; first [apply gput_settings | apply matchmg_settings].
Qed.

Lemma schedule_settings me gp : keeps settings_kept (schedule me gp).
Proof.
  unfold schedule, schedlock, schedule_prev, schedule_status, schedule_ready,
    schedule_dispatch, unwindstack, gfput. sk;
    first [apply gput_settings | apply readylocked_settings
          | apply nextgandunlock_settings
          | intros s; cbn; settings].
Qed.

Lemma gosched_settings me g : keeps settings_kept (gosched me g).
Proof. unfold gosched. sk. apply schedule_settings. Qed.

(** The two ways [gomaxprocsfunc] ends outside a collection. *)
Lemma yield_tail_settings me g (ret : Z) :
  keeps settings_kept (schedunlock;; gosched me g;; mret ret).
Proof. sk; [apply schedunlock_settings | apply gosched_settings]. Qed.

Lemma match_tail_settings me (ret : Z) :
  keeps settings_kept (matchmg me;; schedunlock;; mret ret).
Proof. sk; [apply matchmg_settings | apply schedunlock_settings]. Qed.

(** [starttheworld] clears [gcwaiting] and sets the cap from
    [runtime·gomaxprocs]; matching and unlocking keep both. *)
Lemma starttheworld_cap (me : nat) (s1 : State) :
  ensures
    (fun _ s2 =>
       gcwaiting s2 = 0 /\ gomaxprocs s2 = gomaxprocs s1 /\
       predawn s2 = predawn s1 /\
       atomic_mcpumax (atomic s2) = gomaxprocs s1 mod 2 ^ 15)
    (fun _ => True) (starttheworld me s1).
Proof.
  unfold starttheworld, schedlock. run.
  change (setmcpumax_loop ?a [] ?v) with (setmcpumax_word a v).
  set (s2 := set_atomic _ _).
  assert (Hs2 : gcwaiting s2 = 0 /\ gomaxprocs s2 = gomaxprocs s1 /\
    predawn s2 = predawn s1 /\
    atomic_mcpumax (atomic s2) = gomaxprocs s1 mod 2 ^ 15).
  { subst s2. state. rewrite setmcpumax_word_mcpumax, uint32_mod15.
    now repeat split. }
  destruct Hs2 as (A & B & C & D).
  assert (Hpost : forall s', cap_frame s2 s' -> settings_kept s2 s' ->
    gcwaiting s' = 0 /\ gomaxprocs s' = gomaxprocs s1 /\
    predawn s' = predawn s1 /\
    atomic_mcpumax (atomic s') = gomaxprocs s1 mod 2 ^ 15).
  { intros s' [F1 F2] (K1 & K2 & K3 & _).
    split; [congruence |]. split; [congruence |]. split; congruence. }
  eapply ensures_bind.
  { eapply ensures_weaken;
      [apply (ensures_conj _ _ _ _ _
                (matchmg_frame me s2) (matchmg_settings me s2)) | |];
      cbn beta.
    - intros u s3 [F K]. instantiate (1 := fun _ s3 =>
        cap_frame s2 s3 /\ settings_kept s2 s3).
      cbn beta. split; [now apply frame_cap | exact K].
    - auto. }
  cbn beta. intros _ s3 [F3 K3].
  eapply ensures_weaken;
    [apply (ensures_conj _ _ _ _ _
              (schedunlock_cpu s3) (schedunlock_settings s3)) | |];
    cbn beta; [| auto].
  intros _ s4 [F4 K4]. apply Hpost.
  - etransitivity; [exact F3 | now apply cpu_cap].
  - etransitivity; eassumption.
Qed.

(** X13.  [starttheworld] undoes what [stoptheworld] did to the cap.
    After [stoptheworld] ([gcwaiting] is 1 and [mcpumax] is 1),
    [starttheworld] clears [gcwaiting] and puts the low 15 bits of
    [runtime·gomaxprocs], which neither function changes, back in
    [mcpumax]; the matching it then runs keeps both. *)
Theorem world_restarts (me : nat) (s : State) :
  mwakeup s = None -> atomic_mcpu (atomic s) <= 1 ->
  exists s1,
    stoptheworld 1 s = Ok tt s1 /\
    gcwaiting s1 = 1 /\ atomic_mcpumax (atomic s1) = 1 /\
    gomaxprocs s1 = gomaxprocs s /\
    ensures
      (fun _ s2 =>
         gcwaiting s2 = 0 /\ gomaxprocs s2 = gomaxprocs s /\
         predawn s2 = predawn s /\
         atomic_mcpumax (atomic s2) = gomaxprocs s mod 2 ^ 15 /\
         (0 <= gomaxprocs s <= maxgomaxprocs ->
          atomic_mcpumax (atomic s2) = gomaxprocs s))
      (fun _ => True) (starttheworld me s1).
Proof.
  intros Hwake Hle.
  destruct (setmcpumax_one (atomic s)) as (Hcpu & Hmax & _).
  assert (Hstop : exists s1,
    stoptheworld 1 s = Ok tt s1 /\ gcwaiting s1 = 1 /\
    atomic_mcpumax (atomic s1) = 1 /\ gomaxprocs s1 = gomaxprocs s /\
    predawn s1 = predawn s).
  { unfold stoptheworld, schedlock. run. cbn [stoptheworld_loop]. run.
    rewrite Hcpu. destruct (Z.leb_spec (atomic_mcpu (atomic s)) 1); [| lia].
    unfold schedunlock. run. rewrite Hwake. run.
    eexists. split; [reflexivity |]. state. now repeat split. }
  destruct Hstop as (s1 & Hrun & Hgc & Hm1 & Hg1 & Hp1).
  exists s1. split; [exact Hrun |]. split; [exact Hgc |].
  split; [exact Hm1 |]. split; [exact Hg1 |].
  eapply ensures_weaken; [apply starttheworld_cap | |]; cbn beta; [| auto].
  intros _ s2 (A & B & C & D).
  assert (Hmax' : maxgomaxprocs = 32757) by reflexivity.
  split; [exact A |]. split; [congruence |]. split; [congruence |].
  split; [congruence |]. intros Hr. rewrite D, Hg1.
  apply Z.mod_small. lia.
Qed.

End World.

(** * A system call that meets no contention *)

Section SyscallRoundTrip.
Context `{Platform}.

Lemma xadd_decr_incr v :
  is_uint32 v ->
  xadd (xadd v (Z.shiftl (-1) mcpuShift)) (Z.shiftl 1 mcpuShift) = v.
Proof.
  intros Hv. change (Z.shiftl 1 mcpuShift) with 1.
  change (Z.shiftl (-1) mcpuShift) with (-1). divmod.
Qed.

(** X14.  A system call that nobody waits for costs two atomic adds and
    no lock.  When no goroutine waits on the run queue, nobody is
    stopping the world, [mcpu] is within the cap and the profiling rate
    has not changed, [entersyscall] and then [exitsyscall] both take
    their fast path: the atomic word ends as it began, nothing is asked
    of the platform, and the goroutine is [Grunning] again, with only
    the stack pointer saved for the collector left behind. *)
Theorem syscall_round_trip (me g : nat) (gr : G) (mr : M) (sp : Z)
    (s : State) :
  gs s !! g = Some gr -> ms s !! me = Some mr -> predawn s = 0 ->
  stackguard gr - StackGuard <= sp <= stackbase gr ->
  is_uint32 (atomic s) ->
  1 <= atomic_mcpu (atomic s) <= atomic_mcpumax (atomic s) ->
  atomic_gwaiting (atomic s) = 0 -> atomic_waitstop (atomic s) = 0 ->
  m_profilehz mr = profilehz s ->
  let v := xadd (atomic s) (Z.shiftl (-1) mcpuShift) in
  entersyscall me g sp s =
    Ok tt (set_atomic v (set_gs (<[g := in_syscall sp gr]> (gs s)) s)) /\
  atomic_mcpu v = atomic_mcpu (atomic s) - 1 /\
  bind (entersyscall me g sp s) (fun _ => exitsyscall me g) =
    Ok tt
      (set_gs
         (<[g := set_gcstack 0 (set_status Grunning (in_syscall sp gr))]>
            (gs s)) s).
Proof.
  intros Hg Hm Hdawn Hsp Hu Hcpu Hgw Hws Hhz v.
  destruct (xadd_decr (atomic s)) as (Dcpu & Dmax & Dws & Dgw); [lia |].
  fold v in Dcpu, Dmax, Dws, Dgw.
  assert (Hfast : syscall_fast v = true).
  { unfold syscall_fast, nonzero. rewrite Dgw, Hgw, Dws, Hws. reflexivity. }
  assert (Henter : entersyscall me g sp s =
    Ok tt (set_atomic v (set_gs (<[g := in_syscall sp gr]> (gs s)) s))).
  { unfold entersyscall. run. rewrite Hdawn. cbn [nonzero Z.eqb negb].
    runs. rewrite !insert_insert_eq.
    destruct (Z.ltb_spec sp (stackguard gr - StackGuard)); [lia |].
    destruct (Z.ltb_spec (stackbase gr) sp); [lia |].
    run. fold v. rewrite Hfast. reflexivity. }
  split; [exact Henter |]. split; [exact Dcpu |].
  rewrite Henter. cbn [bind]. unfold exitsyscall. run. rewrite Hdawn.
  cbn [nonzero Z.eqb negb]. run.
  erewrite readM_some by (state; exact Hm). run.
  rewrite Hhz, Z.eqb_refl. unfold v. rewrite xadd_decr_incr by exact Hu.
  destruct (Z.leb_spec (atomic_mcpu (atomic s)) (atomic_mcpumax (atomic s)));
    [| lia].
  runs. rewrite !insert_insert_eq. reflexivity.
Qed.

End SyscallRoundTrip.

(** * New goroutines *)

Section Newproc.
Context `{Platform}.
Import Client.

#[local] Instance grows_preorder : PreOrder grows.
Proof.
  split.
  - intros s. now repeat split.
  - intros s1 s2 s3 (A1 & B1 & C1 & D1) (A2 & B2 & C2 & D2).
    split; [etransitivity; eassumption |]. repeat split; congruence.
Qed.

Lemma grows_same s s' :
  gs s' = gs s -> gcount s' = gcount s -> goidgen s' = goidgen s ->
  gfree s' = gfree s -> grows s s'.
Proof. intros A B C D. split; [now rewrite A | auto]. Qed.

Ltac grow := intros; apply grows_same; reflexivity.
Ltac gr_write :=
  lazymatch goal with
  | |- keeps _ (xadd_atomic _) => let s := fresh in intros s; cbn; grow
  | |- keeps _ (modifyM _ _) =>
      let s := fresh in
      intros s; apply ensures_modifyM; intros; [grow | reflexivity]
  | _ => keeps_write grow
  end.
Ltac gr := repeat keeps_step; try gr_write.

Lemma canaddmcpu_grows : keeps grows canaddmcpu.
Proof.
  intros s. unfold canaddmcpu.
  destruct (canaddmcpu_loop [] (atomic s)) as [b w]. cbn. grow.
Qed.

Lemma mnextg_grows m g : keeps grows (mnextg m g).
Proof. unfold mnextg. gr. Qed.

Lemma newm_grows : keeps grows newm.
Proof.
  intros s. rewrite newm_run.
  destruct (iscgo && negb libcgo_thread_start); cbn [ensures]; [grow |].
  split; [| now repeat split]. state. apply insert_subseteq, fresh_G.
Qed.

Lemma matchmg_grows me : keeps grows (matchmg me).
Proof.
  apply matchmg_keeps; [exact _ | | | | | |]; intros.
  - unfold haveg. gr.
  - apply canaddmcpu_grows.
  - unfold gget. gr.
  - unfold mget. gr.
  - apply newm_grows.
  - apply mnextg_grows.
Qed.

Lemma schedunlock_grows : keeps grows schedunlock.
Proof. unfold schedunlock. gr. Qed.

Lemma gput_grows g : keeps grows (gput g).
Proof.
  unfold gput, gput_idle, gput_fifo. gr;
    first [apply canaddmcpu_grows | apply mnextg_grows].
Qed.

(** From the point where the new goroutine is made runnable. *)
Lemma newproc_tail (me newg : nat) (gr : G) (s : State) :
  gs s !! newg = Some gr -> gm gr = None -> status gr = Gwaiting ->
  ensures
    (fun g' s' =>
       g' = newg /\
       gs s' !! newg = Some (set_status Grunnable gr) /\
       gcount s' = gcount s /\ goidgen s' = goidgen s /\
       gfree s' = gfree s)
    (fun _ => True)
    (bind (newprocreadylocked me newg s)
       (fun _ => schedunlock;; mret newg)).
Proof.
  intros Hg Hgm Hst. unfold newprocreadylocked, readylocked. run.
  rewrite (readG_some _ _ _ Hg). run. rewrite Hgm. run. rewrite Hst.
  rewrite bool_decide_eq_false_2 by (intros [? | ?]; discriminate).
  run. rewrite (modifyG_some _ _ _ _ Hg). run.
  set (s1 := set_gs (<[newg := set_status Grunnable gr]> (gs s)) s).
  assert (Hpost : forall s', grows s1 s' ->
    gs s' !! newg = Some (set_status Grunnable gr) /\
    gcount s' = gcount s /\ goidgen s' = goidgen s /\ gfree s' = gfree s).
  { intros s' (A & B & C & D). split; [| now repeat split].
    eapply lookup_weaken; [| exact A]. subst s1. state.
    apply lookup_insert_eq. }
  eapply ensures_bind.
  { eapply (ensures_keeps_bind grows);
      [reflexivity | apply gput_grows | auto |].
    intros _ s2 K2. run.
    instantiate (1 := fun _ s3 => grows s1 s3).
    destruct (negb (nonzero (predawn s2))); cbn [when].
    - eapply ensures_weaken; [apply matchmg_grows | |]; cbn beta; intros;
        [etransitivity; eassumption | exact I].
    - exact K2. }
  cbn beta. intros _ s3 K3. run.
  eapply (ensures_keeps_bind grows);
    [exact K3 | apply schedunlock_grows | auto |].
  intros _ s4 K4. cbn [ensures]. split; [reflexivity | now apply Hpost].
Qed.

Lemma round_up_8 z :
  0 <= z < 2 ^ 31 - 8 ->
  let r := Z.land (int32 (int32 z + 7)) (Z.lnot 7) in
  r mod 8 = 0 /\ z <= r < z + 8.
Proof.
  intros Hz r. subst r.
  rewrite (int32_id z) by (unfold is_int32; lia).
  rewrite (int32_id (z + 7)) by (unfold is_int32; lia).
  assert (E : Z.land (z + 7) (Z.lnot 7) = 8 * ((z + 7) / 8)).
  { change 7 with (Z.ones 3) at 2. rewrite <- Z.ldiff_land, Z.ldiff_ones_r by lia.
    rewrite Z.shiftl_mul_pow2, Z.shiftr_div_pow2 by lia.
    change (2 ^ 3) with 8. lia. }
  rewrite E. split.
  - rewrite Z.mul_comm. apply Z.mod_mul. lia.
  - Z.div_mod_to_equations. lia.
Qed.


End Newproc.

(** * Yielding the processor *)

Section Gosched.
Context `{Platform}.
Import Client.

Lemma xadd_xadd v a b : xadd (xadd v a) b = xadd v (a + b).
Proof.
  unfold xadd, uint32. rewrite Zplus_mod_idemp_l. f_equal. lia.
Qed.

(** X21.  Yielding is fair and costs nothing when nobody waits.
    [gosched] puts the running goroutine [g] behind every goroutine that
    already waits on the run queue and switches this worker to the head
    [h] of that queue -- to [g] itself when the queue was empty.
    Afterwards [h] is [Grunning] on this worker, [g] (when it is not
    [h]) is [Grunnable] on no worker, the queue has lost its head and
    gained [g] at the tail, and the atomic word, the count of waiting
    goroutines and [grunning] are what they were: the lock was taken and
    released once and nobody was woken. *)
Theorem gosched_yields (me g h : nat) (rest : list nat) (gr hr : G) (mr : M)
    (s : State) :
  gs s !! g = Some gr -> ms s !! me = Some mr ->
  predawn s = 0 -> locks mr = 0 -> g0 mr <> Some g ->
  status gr = Grunning -> readyonstop gr = false ->
  lockedm gr = None -> idlem gr = None ->
  nextg mr = None -> lockedg mr = None ->
  m_profilehz mr = profilehz s -> mwakeup s = None ->
  is_uint32 (atomic s) ->
  1 <= atomic_mcpu (atomic s) <= atomic_mcpumax (atomic s) ->
  atomic_mcpu (atomic s) <= maxgomaxprocs ->
  queue_counted s -> Z.of_nat (length (ghead s)) < 2 ^ 31 - 1 ->
  - 2 ^ 31 < grunning s < 2 ^ 31 ->
  ghead s ++ [g] = h :: rest ->
  gs s !! h = Some hr -> lockedm hr = None ->
  exists s' k,
    gosched me g s = Gogo h s' k /\
    (forall s'', k s'' = Ok tt s'') /\
    ghead s' = rest /\ gwait s' = gwait s /\
    atomic s' = atomic s /\ grunning s' = grunning s /\
    trace s' = trace s ++ [lock_sched; unlock_sched] /\
    (exists hr', gs s' !! h = Some hr' /\
                 status hr' = Grunning /\ gm hr' = Some me) /\
    (h <> g -> exists gr', gs s' !! g = Some gr' /\
                           status gr' = Grunnable /\ gm gr' = None) /\
    (exists mr', ms s' !! me = Some mr' /\ curg mr' = Some h).
Proof.
  intros Hg Hm Hdawn Hlk Hg0 Hst Hros Hl Hi Hn Hlg Hhz Hwake Hu Hcpu
    Hmaxp Hcount Hlen Hrun Hq Hh Hhl.
  assert (Hmax : maxgomaxprocs = 32757) by reflexivity.
  unfold gosched. run. rewrite (readM_some _ _ _ Hm). run. rewrite Hlk.
  cbn [nonzero Z.eqb negb]. rewrite bool_decide_eq_false_2 by congruence.
  rewrite (schedule_reaches_switch me g gr s) by (assumption || lia).
  unfold schedule_status, at_switch. runs. rewrite Hst. runs.
  rewrite insert_insert_eq.
  erewrite gput_unwired by (first [lookup | assumption]).
  rewrite gput_fifo_run. cbn [bind]. state. rewrite Hq.
  match goal with
  | |- context [if gwait s =? 0 then set_atomic ?a ?s1 else ?s1] =>
      replace (if gwait s =? 0 then set_atomic a s1 else s1)
        with (set_atomic (if gwait s =? 0 then a else atomic s1) s1)
        by (destruct (gwait s =? 0); [reflexivity | now destruct s]);
      set (a1 := if gwait s =? 0 then a else atomic s1)
  end.
  state.
  assert (Hgw : 0 <= gwait s < 2 ^ 31 - 1) by (rewrite Hcount; lia).
  rewrite (int32_succ (gwait s)) by lia.
  rewrite (int32_pred (grunning s)) by lia.
  destruct (xadd_decr (atomic s)) as (Hd1 & Hd2 & _); [lia |]. cbn zeta in *.
  assert (Ha1 : atomic_mcpu a1 = atomic_mcpu (atomic s) - 1 /\
                atomic_mcpumax a1 = atomic_mcpumax (atomic s)).
  { subst a1. destruct (gwait s =? 0); [| now split].
    destruct (xadd_gwaiting_up (xadd (atomic s) (Z.shiftl (-1) mcpuShift)))
      as (-> & -> & _). now split. }
  destruct Ha1 as (Ha1 & Ha2).
  assert (Hback :
    (if gwait s =? 0
     then xadd (xadd a1 (Z.shiftl 1 mcpuShift)) (Z.shiftl (-1) gwaitingShift)
     else xadd a1 (Z.shiftl 1 mcpuShift)) = atomic s).
  { subst a1. state.
    change (Z.shiftl 1 mcpuShift) with 1.
    change (Z.shiftl (-1) mcpuShift) with (-1).
    change (Z.shiftl 1 gwaitingShift) with (2 ^ 31).
    change (Z.shiftl (-1) gwaitingShift) with (- 2 ^ 31).
    destruct (gwait s =? 0); rewrite !xadd_xadd; unfold xadd;
      cbn [Z.add Z.pow Z.opp Z.pow_pos Pos.iter Z.mul Pos.mul Pos.add
           Z.pos_sub Pos.succ Pos.pred_double Z.double Z.succ_double
           Z.pred_double];
      rewrite ?Z.add_0_r; apply uint32_id, Hu. }
  clearbody a1.
  unfold schedule_ready. runs. rewrite Hros. run.
  unfold schedule_dispatch, nextgandunlock. run. rewrite Ha1.
  destruct (Z.geb_spec (atomic_mcpu (atomic s) - 1) maxgomaxprocs); [lia |].
  unfold take_nextg, find_work. runs. rewrite Hn. runs. rewrite Hlg. run.
  unfold loop_fuel. cbn [nextg_loop]. unfold haveg. run.
  unfold canaddmcpu. cbn [canaddmcpu_loop]. state. rewrite Ha1, Ha2.
  destruct (Z.geb_spec (atomic_mcpu (atomic s) - 1)
              (atomic_mcpumax (atomic s))); [lia |].
  run. unfold gget. run.
  replace (gwait s + 1 - 1) with (gwait s) by lia.
  rewrite (int32_id (gwait s)) by (unfold is_int32; lia).
  assert (Hlook : exists hr0,
    <[g:=set_status Grunnable (set_gm None gr)]> (gs s) !! h = Some hr0 /\
    lockedm hr0 = None /\
    (h <> g -> <[g:=set_status Grunnable (set_gm None gr)]> (gs s) !! g
               = Some (set_status Grunnable (set_gm None gr)))).
  { destruct (decide (h = g)) as [-> | Hne].
    - eexists. split; [apply lookup_insert_eq |]. split; [exact Hl | tauto].
    - exists hr. rewrite lookup_insert_ne by congruence.
      split; [exact Hh |]. split; [exact Hhl |]. intros _.
      apply lookup_insert_eq. }
  destruct Hlook as (hr0 & Hh0 & Hhl0 & Hg').
  destruct (gwait s =? 0); run.
  all: rewrite (readG_some h hr0) by exact Hh0; run; rewrite Hhl0; run.
  all: unfold schedunlock; run; rewrite Hwake; runs.
  all: rewrite Hhz, Z.eqb_refl; run; unfold gogo.
  all: eexists _, _; split; [reflexivity |]; split; [reflexivity |]; state.
  all: split; [reflexivity |]; split; [reflexivity |].
  all: split; [exact Hback |].
  all: split;
    [replace (grunning s - 1 + 1) with (grunning s) by lia;
     apply int32_id; unfold is_int32; lia |].
  all: split; [now rewrite <- app_assoc |].
  all: split; [eexists; split; [apply lookup_insert_eq | now split] |].
  all: split; [| eexists; split; [apply lookup_insert_eq | reflexivity]].
  all: intros Hne; eexists; split;
    [rewrite !lookup_insert_ne by congruence; exact (Hg' Hne) | now split].
Qed.

End Gosched.

(** * Stopping the world and the goroutines that leave for a system call *)

Section Handshake.
Context `{Platform}.
Import Client.

(** X22.  The thread that stops the world is woken by the goroutine
    whose system call brings [mcpu] down to the cap, and by no other.
    With [mcpu] above one, the run queue empty and nobody stopping yet,
    [stoptheworld] sets [waitstop] and sleeps.  A goroutine that then
    enters a system call decrements [mcpu]; while [mcpu] stays above one
    it returns on the fast path and wakes nobody; the one that brings
    [mcpu] to one takes the lock, clears [waitstop] and wakes the note
    [stopped], and [stoptheworld], resumed in that state, returns with
    the world stopped. *)
Theorem stop_the_world_handshake (fuel me g : nat) (gr : G) (sp : Z)
    (s : State) :
  mwakeup s = None -> (2 <= fuel)%nat -> predawn s = 0 ->
  gs s !! g = Some gr ->
  stackguard gr - StackGuard <= sp <= stackbase gr ->
  atomic_waitstop (atomic s) = 0 -> atomic_gwaiting (atomic s) = 0 ->
  2 <= atomic_mcpu (atomic s) ->
  exists s1 k s2,
    stoptheworld fuel s = Park s1 k /\
    entersyscall me g sp s1 = Ok tt s2 /\
    atomic_mcpu (atomic s2) = atomic_mcpu (atomic s) - 1 /\
    atomic_mcpumax (atomic s2) = 1 /\
    (2 < atomic_mcpu (atomic s) ->
     trace s2 = trace s1 /\ atomic_waitstop (atomic s2) = 1) /\
    (atomic_mcpu (atomic s) = 2 ->
     trace s2 = trace s1 ++ [lock_sched; notewakeup stopped; unlock_sched] /\
     atomic_waitstop (atomic s2) = 0 /\
     exists s3,
       k s2 = Ok tt s3 /\ gcwaiting s3 = 1 /\
       atomic s3 = atomic s2 /\
       singleproc s3 = (gomaxprocs s =? 1) /\
       trace s3 = trace s2 ++ [lock_sched; unlock_sched]).
Proof.
  intros Hwake Hfuel Hdawn Hg Hsp Hws0 Hgw0 Hcpu2.
  destruct fuel as [| [| fuel]]; [lia | lia |].
  destruct (setmcpumax_one (atomic s)) as (Hcpu & Hmax & Hws & Hgw).
  unfold stoptheworld, schedlock. run.
  set (w := setmcpumax_loop (uint32 1) [] (atomic s)) in *.
  cbn [stoptheworld_loop]. run. rewrite Hcpu.
  destruct (Z.leb_spec (atomic_mcpu (atomic s)) 1); [lia |].
  run. rewrite Hws, Hws0. cbn [nonzero Z.eqb negb]. run.
  destruct (waitstop_up w) as (Ucpu & Umax & Uws & Ugw); [congruence |].
  cbn zeta in *.
  set (w1 := uint32 (w + Z.shiftl 1 waitstopShift)) in *.
  unfold schedunlock, sleep_stopped. run. rewrite Hwake. run.
  match goal with
  | |- context [Park ?S ?K] => set (s1 := S); set (k := K)
  end.
  destruct (xadd_decr w1) as (Dcpu & Dmax & Dws & Dgw); [lia |].
  cbn zeta in *.
  set (v := xadd w1 (Z.shiftl (-1) mcpuShift)) in *.
  assert (Hpre : entersyscall me g sp s1 =
    (if syscall_fast v then mret tt
     else schedlock;; entersyscall_slow me g sp;; schedunlock)
      (set_atomic v (set_gs (<[g := in_syscall sp gr]> (gs s)) s1))).
  { unfold entersyscall. subst s1. run. rewrite Hdawn.
    cbn [nonzero Z.eqb negb]. runs. rewrite !insert_insert_eq.
    destruct (Z.ltb_spec sp (stackguard gr - StackGuard)); [lia |].
    destruct (Z.ltb_spec (stackbase gr) sp); [lia |].
    run. reflexivity. }
  clearbody v w1 w.
  assert (Hfast : syscall_fast v = (atomic_mcpu (atomic s) - 1 >? 1)).
  { unfold syscall_fast. rewrite Dgw, Ugw, Hgw, Hgw0, Dws, Uws, Dcpu, Ucpu,
      Hcpu, Dmax, Umax, Hmax. reflexivity. }
  rewrite Hfast in Hpre. exists s1, k.
  destruct (Z.gtb_spec (atomic_mcpu (atomic s) - 1) 1) as [Hgt | Hle].
  - eexists. split; [reflexivity |]. split; [exact Hpre |].
    split; [state; congruence |]. split; [state; congruence |].
    split; [intros _; split; [subst s1; state; reflexivity
                             | state; congruence] | lia].
  - assert (Hq : stop_quorum v = true).
    { unfold stop_quorum. rewrite Dws, Uws, Dcpu, Ucpu, Hcpu, Dmax, Umax, Hmax.
      cbn [nonzero Z.eqb negb andb]. apply Z.leb_le. lia. }
    assert (Hgv : atomic_gwaiting v = 0) by congruence.
    destruct (xadd_waitstop_down v) as (Wcpu & Wmax & Wws & Wgw);
      [congruence |]. cbn zeta in *.
    eexists. split; [reflexivity |]. split.
    { rewrite Hpre.
      unfold schedlock, entersyscall_slow, quorum_wake, wake_stopped,
        schedunlock.
      subst s1. run. rewrite Hgv. cbn [nonzero Z.eqb negb]. run.
      rewrite Hq. runs. reflexivity. }
    split; [state; congruence |]. split; [state; congruence |].
    split; [lia |]. intros _.
    split; [subst s1; state; now rewrite <- !app_assoc |].
    split; [exact Wws |].
    subst k. cbn beta.
    match goal with
    | |- context [schedlock ?S] => remember S as s2 eqn:Es2
    end.
    assert (A2 : atomic s2 = xadd v (Z.shiftl (-1) waitstopShift))
      by now rewrite Es2.
    assert (B2 : mwakeup s2 = None) by now rewrite Es2.
    assert (C2 : gcwaiting s2 = 1) by now rewrite Es2.
    assert (D2 : gomaxprocs s2 = gomaxprocs s) by now rewrite Es2.
    assert (E2 : trace s2 =
      trace s ++ [lock_sched; noteclear stopped; unlock_sched;
                  notesleep stopped; lock_sched; notewakeup stopped;
                  unlock_sched])
      by (rewrite Es2; subst s1; state; now rewrite <- !app_assoc).
    clear Es2 Hpre. unfold schedlock. run. rewrite A2, Wcpu, Dcpu, Ucpu, Hcpu.
    destruct (Z.leb_spec (atomic_mcpu (atomic s) - 1) 1); [| lia].
    run. rewrite B2. run. eexists. split; [reflexivity |]. state.
    split; [exact C2 |]. split; [exact A2 |]. split; [now rewrite D2 |].
    rewrite <- !app_assoc. reflexivity.
Qed.

End Handshake.

(** * Before [initdone] *)

Section Predawn.
Context `{Platform}.
Import Client.

(** X23.  During initialization the scheduler only queues.  While
    [predawn] is set, [ready] puts the goroutine on the run queue and
    starts nothing: no worker is handed anything, [mcpu] stays, and
    nothing but the lock shows in the trace; system calls are not
    counted ([entersyscall] and [exitsyscall] return at once); and a
    goroutine that enters the scheduler makes it throw.  [initdone]
    then clears [predawn] and does the matching that [ready] left out:
    when it returns nothing is left to match. *)
Theorem init_defers_matching (me g : nat) (gr : G) (mr : M) (sp : Z)
    (s : State) :
  gs s !! g = Some gr -> ms s !! me = Some mr ->
  predawn s <> 0 -> mwakeup s = None ->
  gm gr = None -> status gr <> Grunnable -> status gr <> Grunning ->
  lockedm gr = None -> idlem gr = None ->
  mallocing mr = 0 -> gcing mr = 0 ->
  entersyscall me g sp s = Ok tt s /\
  exitsyscall me g s = Ok tt s /\
  exists s1,
    ready me g s = Ok tt s1 /\
    ghead s1 = ghead s ++ [g] /\ ms s1 = ms s /\
    atomic_mcpu (atomic s1) = atomic_mcpu (atomic s) /\
    trace s1 = trace s ++ [lock_sched; unlock_sched] /\
    (forall gp,
       schedule me (Some gp) s1 =
       Throw "init rescheduling" (emit_event lock_sched s1)) /\
    ensures (fun _ s2 => predawn s2 = 0 /\ saturated me s2)
      (fun _ => True) (initdone me s1).
Proof.
  intros Hg Hm Hdawn Hwake Hgm Hst1 Hst2 Hl Hi Hma Hgc.
  assert (Hnz : nonzero (predawn s) = true).
  { unfold nonzero. now destruct (Z.eqb_spec (predawn s) 0). }
  split; [unfold entersyscall; run; now rewrite Hnz |].
  split; [unfold exitsyscall; run; now rewrite Hnz |].
  assert (Hready : exists s1,
    ready me g s = Ok tt s1 /\
    ghead s1 = ghead s ++ [g] /\ ms s1 = ms s /\
    atomic_mcpu (atomic s1) = atomic_mcpu (atomic s) /\
    trace s1 = trace s ++ [lock_sched; unlock_sched] /\
    predawn s1 = predawn s).
  { unfold ready, schedlock, readylocked. runs. rewrite Hgm. run.
    rewrite bool_decide_eq_false_2 by tauto. runs.
    erewrite gput_unwired by (first [lookup | assumption]).
    rewrite gput_fifo_run. cbn [bind]. state.
    destruct (xadd_gwaiting_up (atomic s)) as (Gcpu & _). cbn zeta in Gcpu.
    unfold schedunlock.
    destruct (gwait s =? 0); state; rewrite Hnz; run; rewrite Hwake; run;
      (eexists; split; [reflexivity |]); state;
      (split; [reflexivity |]); (split; [reflexivity |]);
      (split; [first [exact Gcpu | reflexivity] |]);
      (split; [now rewrite <- app_assoc | reflexivity]). }
  destruct Hready as (s1 & Hrun & Hq1 & Hms1 & Hcpu1 & Htr1 & Hdawn1).
  exists s1. split; [exact Hrun |]. split; [exact Hq1 |].
  split; [exact Hms1 |]. split; [exact Hcpu1 |]. split; [exact Htr1 |].
  split.
  { intros gp. unfold schedule, schedlock, schedule_prev. run.
    rewrite Hdawn1, Hnz. reflexivity. }
  unfold initdone, schedlock. run.
  set (s0 := emit_event lock_sched (set_predawn 0 s1)).
  assert (Hsat0 : ensures (fun _ s2 => saturated me s2) (fun _ => True)
                    (matchmg me s0)).
  { unfold matchmg. run.
    erewrite readM_some by (subst s0; state; rewrite Hms1; exact Hm).
    run. rewrite Hma, Hgc. cbn [nonzero Z.eqb negb orb].
    apply matchmg_loop_saturates, loop_fuel_enough. }
  pose proof (matchmg_settings me s0) as Hset0.
  eapply ensures_bind.
  { eapply ensures_weaken;
      [exact (ensures_conj _ _ _ _ _ Hsat0 Hset0) | |]; cbn beta.
    - intros u s2 HQ.
      instantiate (1 := fun _ s2 => saturated me s2 /\ predawn s2 = 0).
      cbn beta. destruct HQ as [Hsat (_ & _ & Hd2 & _)]. now split.
    - auto. }
  cbn beta. intros _ s2 [Hsat Hd2].
  unfold schedunlock. run.
  destruct (mwakeup s2); run; (split; [exact Hd2 | exact Hsat]).
Qed.

End Predawn.

(** * New workers *)

Section Workers.
Context `{Platform}.
Import Client.

(** X24.  Every worker gets an id of its own.  [newm] makes a worker
    that did not exist, gives it the current [mcount] as id and adds one
    to [mcount], gives it a new bootstrap goroutine on a stack from
    [malg], and starts one thread for it, with [newosproc], or under cgo
    by calling [libcgo_thread_start] through [asmcgocall]; the other
    workers are left as they are.  So when the ids were below [mcount]
    and distinct, they still are.  Under cgo without
    [libcgo_thread_start] it throws. *)
Theorem newm_fresh_id (s : State) :
  ids_ok s -> 0 <= mcount s < 2 ^ 31 - 1 ->
  (iscgo && negb libcgo_thread_start = true ->
   exists s', newm s = Throw "libcgo_thread_start missing" s') /\
  (iscgo && negb libcgo_thread_start = false ->
   exists m g s' mr,
     newm s = Ok m s' /\
     ms s !! m = None /\ gs s !! g = None /\
     ms s' = <[m := mr]> (ms s) /\
     m_id mr = mcount s /\ g0 mr = Some g /\
     nextg mr = None /\ curg mr = None /\
     gs s' = <[g := malg (if iscgo || Windows then -1 else 8192)]> (gs s) /\
     mcount s' = mcount s + 1 /\
     trace s' =
       trace s ++ [if iscgo then cgo_thread_start m else newosproc m] /\
     ids_ok s').
Proof.
  intros [Hlt Huniq] Hcount. rewrite newm_run.
  split; intros ->; [eexists; reflexivity |].
  eexists _, _, _, _. split; [reflexivity |]. state.
  split; [apply fresh_M |]. split; [apply fresh_G |].
  split; [reflexivity |]. split; [reflexivity |]. split; [reflexivity |].
  split; [reflexivity |]. split; [reflexivity |]. split; [reflexivity |].
  assert (Hn : int32 (mcount s + 1) = mcount s + 1)
    by (apply int32_id; unfold is_int32; lia).
  split; [exact Hn |]. split; [reflexivity |].
  unfold ids_ok. state. rewrite Hn.
  set (m := fresh (dom (ms s))). pose proof (fresh_M s) as Hfresh.
  fold m in Hfresh. split.
  - intros m1 r1 Hm1. destruct (decide (m1 = m)) as [-> | Hne].
    + rewrite lookup_insert_eq in Hm1. injection Hm1 as <-. state. lia.
    + rewrite lookup_insert_ne in Hm1 by congruence.
      specialize (Hlt _ _ Hm1). lia.
  - intros m1 m2 r1 r2 Hm1 Hm2 Hid.
    destruct (decide (m1 = m)) as [-> | Hne1];
      destruct (decide (m2 = m)) as [-> | Hne2]; [reflexivity | | |].
    + rewrite lookup_insert_eq in Hm1. injection Hm1 as <-.
      rewrite lookup_insert_ne in Hm2 by congruence.
      specialize (Hlt _ _ Hm2). state_in Hid. lia.
    + rewrite lookup_insert_eq in Hm2. injection Hm2 as <-.
      rewrite lookup_insert_ne in Hm1 by congruence.
      specialize (Hlt _ _ Hm1). state_in Hid. lia.
    + rewrite lookup_insert_ne in Hm1, Hm2 by congruence. eauto.
Qed.

End Workers.

(** * The profiling rate *)

Section Profiler.
Import Client.

Lemma setrate_state (hz' : Z) (s : State) :
  let s1 :=
    emit_event unlock_sched
      (set_profilehz hz'
         (emit_event lock_sched (emit_event (resetcpuprofiler 0) s))) in
  s1 =
    set_trace (trace s ++ [resetcpuprofiler 0; lock_sched; unlock_sched] ++ [])
      (set_profilehz hz' s) /\
  forall e,
    emit_event e s1 =
    set_trace
      (trace s ++ [resetcpuprofiler 0; lock_sched; unlock_sched] ++ [e])
      (set_profilehz hz' s).
Proof.
  destruct s.
  cbv [set_profilehz emit_event set_trace gs ms gfree goidgen ghead gwait
       gcount grunning mhead mwait mcount atomic predawn profilehz mwakeup
       gomaxprocs singleproc gcwaiting trace].
  split; [| intros e]; f_equal; now rewrite <- !app_assoc.
Qed.

(** X25.  [setcpuprofilerate] leaves the profiler either on, with the
    handler and the positive rate it was given, or off, with no handler
    and rate 0: a nil handler or a rate that is not positive turns it
    off.  It stops the profiler of the calling thread before anything
    else and starts it again at the end only when the profiler is on,
    and it publishes the rate in [sched.profilehz], where [schedule] and
    [exitsyscall] compare it with the rate of their worker.  [sigprof]
    then calls the handler exactly when the profiler is on and the
    traceback found at least one frame. *)
Theorem profiler_rate (fn : option nat) (hz n : Z) (s : State) :
  let on := negb (is_nil fn) && (0 <? hz) in
  exists p,
    setcpuprofilerate fn hz s =
      Ok p
        (set_trace
           (trace s ++ [resetcpuprofiler 0; lock_sched; unlock_sched]
              ++ (if on then [resetcpuprofiler hz] else []))
           (set_profilehz (prof_hz p) s)) /\
    p = (if on then mkProf fn hz else mkProf None 0) /\
    0 <= prof_hz p /\
    (prof_fn p = None <-> prof_hz p = 0) /\
    sigprof n p =
      match fn with
      | Some f => if on && (0 <? n) then Some (f, n) else None
      | None => None
      end.
Proof.
  cbv zeta. unfold setcpuprofilerate, sigprof.
  pose proof (fun hz' => proj1 (setrate_state hz' s)) as Hoff.
  pose proof (fun hz' => proj2 (setrate_state hz' s) (resetcpuprofiler hz))
    as Hon.
  cbv zeta in Hoff, Hon.
  destruct (Z.ltb_spec hz 0) as [Hneg | Hpos].
  - destruct (Z.ltb_spec 0 hz); [lia |]. rewrite andb_false_r.
    cbn [Z.eqb is_nil nonzero negb]. run. exists (mkProf None 0).
    cbn [prof_hz prof_fn is_nil orb]. rewrite Hoff.
    split; [reflexivity |]. split; [reflexivity |]. split; [lia |].
    split; [tauto |]. now destruct fn.
  - destruct (Z.eqb_spec hz 0) as [-> | Hne].
    + cbn [Z.ltb Z.compare andb is_nil nonzero negb Z.eqb].
      rewrite andb_false_r. run. exists (mkProf None 0).
      cbn [prof_hz prof_fn is_nil orb]. rewrite Hoff.
      split; [reflexivity |]. split; [reflexivity |]. split; [lia |].
      split; [tauto |]. now destruct fn.
    + destruct (Z.ltb_spec 0 hz); [| lia]. rewrite andb_true_r.
      destruct fn as [f |]; cbn [is_nil negb andb nonzero Z.eqb].
      * unfold nonzero. destruct (Z.eqb_spec hz 0); [lia |]. run.
        exists (mkProf (Some f) hz).
        cbn [prof_hz prof_fn is_nil orb]. rewrite Hon.
        split; [reflexivity |]. split; [reflexivity |]. split; [lia |].
        split; [split; [discriminate | lia] |].
        destruct (Z.eqb_spec hz 0); [lia |].
        destruct (Z.gtb_spec n 0), (Z.ltb_spec 0 n); (reflexivity || lia).
      * run. exists (mkProf None 0).
        cbn [prof_hz prof_fn is_nil orb]. rewrite Hoff.
        split; [reflexivity |]. split; [reflexivity |]. split; [lia |].
        split; [tauto |]. reflexivity.
Qed.

End Profiler.

(** * Changing the cap *)

Section GomaxprocsSet.
Context `{Platform}.
Import Client.

(** X26.  [gomaxprocsfunc n] with a positive [n] sets
    [runtime·gomaxprocs] to [n], or to [maxgomaxprocs] when [n] is
    larger, and clears [runtime·singleproc] when the new value is above
    1; it never sets it.  Outside a collection the [mcpumax] field holds
    the new value, and [singleproc] is as just said, wherever the call
    stops (at its return, where it returns the old value, or where the
    goroutine yields because more goroutines run than the new cap
    allows).  During a collection the atomic word is left alone --
    [mcpumax] must be 1, the call throws otherwise -- and the new cap
    takes effect when [starttheworld] runs. *)
Theorem gomaxprocs_change (me g : nat) (n : Z) (s : State) :
  0 < n ->
  let n' := Z.min n maxgomaxprocs in
  let single := if n' >? 1 then false else singleproc s in
  (gcwaiting s = 0 ->
   ensures
     (fun ret s' =>
        ret = gomaxprocs s /\ gomaxprocs s' = n' /\
        atomic_mcpumax (atomic s') = n' /\ singleproc s' = single)
     (fun s' =>
        gomaxprocs s' = n' /\ atomic_mcpumax (atomic s') = n' /\
        singleproc s' = single)
     (gomaxprocsfunc me g n s)) /\
  (gcwaiting s <> 0 -> atomic_mcpumax (atomic s) <> 1 ->
   exists s',
     gomaxprocsfunc me g n s = Throw "invalid mcpumax during gc" s' /\
     gomaxprocs s' = n' /\ singleproc s' = single /\
     atomic s' = atomic s) /\
  (gcwaiting s <> 0 -> atomic_mcpumax (atomic s) = 1 -> mwakeup s = None ->
   exists s1,
     gomaxprocsfunc me g n s = Ok (gomaxprocs s) s1 /\
     gomaxprocs s1 = n' /\ atomic s1 = atomic s /\
     gcwaiting s1 = gcwaiting s /\
     singleproc s1 = single /\
     ensures
       (fun _ s2 =>
          gcwaiting s2 = 0 /\ gomaxprocs s2 = n' /\
          atomic_mcpumax (atomic s2) = n')
       (fun _ => True) (starttheworld me s1)).
Proof.
  intros Hn n' single.
  assert (Hmax : maxgomaxprocs = 32757) by reflexivity.
  assert (Hn' : 1 <= n' <= 32757) by (subst n'; lia).
  assert (Hmod : n' mod 2 ^ 15 = n') by (apply Z.mod_small; lia).
  assert (Hu32 : uint32 n' = n') by (apply uint32_id; unfold is_uint32; lia).
  unfold gomaxprocsfunc, schedlock. run.
  destruct (Z.leb_spec n 0) as [? | _]; [lia |].
  replace (if n >? maxgomaxprocs then maxgomaxprocs else n) with n'
    by (subst n'; destruct (Z.gtb_spec n maxgomaxprocs); lia).
  clearbody n'.
  assert (Hs1 : exists s1,
    when (n' >? 1) (modify (set_singleproc false))
      (set_gomaxprocs n' (emit_event lock_sched s)) = Ok tt s1 /\
    atomic s1 = atomic s /\ gomaxprocs s1 = n' /\
    gcwaiting s1 = gcwaiting s /\ mwakeup s1 = mwakeup s /\
    singleproc s1 = single).
  { subst single. destruct (n' >? 1); run; eexists;
      (split; [reflexivity |]); state; now repeat split. }
  clearbody single.
  destruct Hs1 as (s1 & -> & Ha1 & Hg1 & Hgc1 & Hw1 & Hsp1).
  cbn [bind]. rewrite Hgc1, Ha1.
  split; [| split].
  - intros ->. cbn [nonzero Z.eqb negb].
    change (setmcpumax_loop ?a [] ?v) with (setmcpumax_word a v).
    rewrite setmcpumax_word_mcpu, Hu32, ?Ha1.
    set (s2 := set_atomic (setmcpumax_word n' (atomic s)) s1).
    assert (Hcf : forall s', cap_frame s2 s' ->
      gomaxprocs s' = n' /\ atomic_mcpumax (atomic s') = n').
    { intros s' [A B]. subst s2. state_in A. state_in B.
      rewrite setmcpumax_word_mcpumax in A. split; congruence. }
    assert (Hsk : forall s', settings_kept s2 s' -> singleproc s' = single).
    { intros s' (_ & _ & _ & D). subst s2. state_in D. congruence. }
    match goal with
    | |- ensures _ _ ?r =>
        assert (HS : ensures (fun _ s' => settings_kept s2 s')
                       (settings_kept s2) r);
        [| assert (HA : ensures
                     (fun ret s' => ret = gomaxprocs s /\ cap_frame s2 s')
                     (cap_frame s2) r);
           [| eapply ensures_weaken;
                [exact (ensures_conj _ _ _ _ _ HA HS) | |]; cbn beta]]
    end.
    + destruct (atomic_mcpu (atomic s) >? n');
        [exact (yield_tail_settings me g _ s2)
        | exact (match_tail_settings me _ s2)].
    + destruct (Z.gtb_spec (atomic_mcpu (atomic s)) n') as [Hgt | Hngt].
      * eapply ensures_bind.
        { eapply ensures_weaken; [apply (schedunlock_cpu s2) | |]; cbn beta.
          - intros u s3 F3.
            instantiate (1 := fun _ s3 =>
              cap_frame s2 s3 /\ 1 <= atomic_mcpu (atomic s3)).
            cbn beta. split; [now apply cpu_cap |].
            destruct F3 as (_ & _ & C & _). subst s2. state_in C.
            rewrite setmcpumax_word_mcpu in C. lia.
          - intros s3 F3. now apply cpu_cap. }
        cbn beta. intros _ s3 [F3 Hcpu].
        eapply ensures_bind.
        { eapply ensures_weaken; [apply (gosched_cap me g s3 Hcpu) | |];
            cbn beta.
          - intros u s4 F4. instantiate (1 := fun _ s4 => cap_frame s2 s4).
            cbn beta. etransitivity; eassumption.
          - intros s4 F4. etransitivity; eassumption. }
        cbn beta. intros _ s4 F4. cbn [ensures]. now split.
      * eapply (ensures_keeps_bind cap_frame);
          [reflexivity
          | eapply keeps_weaken; [apply frame_cap | apply matchmg_frame]
          | auto |].
        intros _ s3 F3.
        eapply (ensures_keeps_bind cap_frame);
          [exact F3
          | eapply keeps_weaken; [apply cpu_cap | apply schedunlock_cpu]
          | auto |].
        intros _ s4 F4. cbn [ensures]. now split.
    + intros ret s' [[Hret F] K]. destruct (Hcf s' F) as [A B].
      split; [exact Hret |]. split; [exact A |]. split; [exact B |].
      now apply Hsk.
    + intros s' [F K]. destruct (Hcf s' F) as [A B].
      split; [exact A |]. split; [exact B |]. now apply Hsk.
  - intros Hgc Hne. unfold nonzero.
    destruct (Z.eqb_spec (gcwaiting s) 0); [contradiction |]. cbn [negb].
    destruct (Z.eqb_spec (atomic_mcpumax (atomic s)) 1); [contradiction |].
    cbn [negb]. exists s1. split; [reflexivity |].
    split; [exact Hg1 |]. split; [exact Hsp1 | exact Ha1].
  - intros Hgc Hone Hwake. unfold nonzero.
    destruct (Z.eqb_spec (gcwaiting s) 0); [contradiction |]. cbn [negb].
    rewrite Hone. cbn [Z.eqb Pos.eqb negb].
    unfold schedunlock. run. rewrite Hw1, Hwake. run.
    eexists. split; [reflexivity |]. state.
    split; [exact Hg1 |]. split; [exact Ha1 |]. split; [exact Hgc1 |].
    split; [exact Hsp1 |].
    eapply ensures_weaken; [apply starttheworld_cap | |]; cbn beta; [| auto].
    intros _ s2 (A & B & _ & D). state_in B. state_in D.
    split; [exact A |]. split; [congruence |]. rewrite D, Hg1. exact Hmod.
Qed.

End GomaxprocsSet.

(** * The code on the sample states *)

(** A proposition that a decision procedure settles. *)
Ltac decided := apply (bool_decide_unpack _); vm_compute; exact I.

(** C5 as the specification words it fails: [starttheworld] after a
    collection matches the two queued goroutines with the two parked
    workers in one critical section; worker 1 is woken while the lock is
    held, worker 2 after the unlock. *)
Lemma wake_under_lock_counterexample :
  exists s',
    starttheworld 0 after_gc = Ok tt s' /\
    trace s' = [lock_sched; wake 1; unlock_sched; wake 2] /\
    wakes_under_lock false (trace s') = [1%nat] /\
    wakes_unlocked false (trace s') = [2%nat].
Proof. eexists. split; [vm_compute; reflexivity |]. now vm_compute. Qed.

Lemma deferred_wakeup_witness :
  exists s' tr,
    critical_section [(1, 2); (2, 3)]%nat busy = Ok tt s' /\
    trace s' = trace busy ++ tr /\
    wakes_under_lock false tr = [1%nat] /\
    wakes_unlocked false tr = [2%nat].
Proof.
  destruct (deferred_wakeup [(1, 2); (2, 3)]%nat busy)
    as (s' & tr & Hrun & Htr & _ & Hu & Hf & _).
  - reflexivity.
  - repeat constructor; eexists; reflexivity.
  - exists s', tr. repeat split; assumption.
Defined.



Lemma gwaiting_maintained_witness :
  gwaiting_inv busy /\
  ensures (fun _ s' => gwaiting_inv s') gwaiting_inv (gput 1 busy) /\
  ensures (fun _ s' => gwaiting_inv s') gwaiting_inv (gget 0 busy) /\
  gput 1 busy =
    Ok tt (set_atomic (atomic busy)
             (set_gwait 3 (set_ghead [2; 3; 1]%nat busy))) /\
  atomic_gwaiting (atomic busy) = 1.
Proof.
  assert (Hinv : gwaiting_inv busy).
  { split; intros _; [now vm_compute | reflexivity]. }
  destruct (gwaiting_maintained 0 1 busy Hinv) as (Hput & Hget & Happ & _).
  - now vm_compute.
  - destruct (Happ (task Grunning (Some 0%nat))) as (Hrun & _ & Hbit).
    + reflexivity.
    + split; decided.
    + reflexivity.
    + reflexivity.
    + reflexivity.
    + split; [exact Hinv |]. split; [exact Hput |]. split; [exact Hget |].
      split; [exact Hrun | now apply Hbit].
Defined.



Lemma entersyscall_paths_witness :
  syscall_fast (xadd (atomic busy) (Z.shiftl (-1) mcpuShift)) = false /\
  exists s',
    entersyscall 0 1 6000 busy = Ok tt s' /\
    trace s' = [lock_sched; wake 1; unlock_sched; wake 2].
Proof.
  destruct (entersyscall_paths 0 1 (task Grunning (Some 0%nat)) 6000 busy)
    as (_ & _ & _ & Hslow & _).
  - reflexivity.
  - reflexivity.
  - now vm_compute.
  - split; [reflexivity |]. rewrite (Hslow eq_refl).
    eexists. split; [vm_compute; reflexivity |]. reflexivity.
Defined.


Lemma gomaxprocsfunc_query_witness :
  exists s',
    gomaxprocsfunc 0 1 0 busy = Ok 4 s' /\
    gomaxprocs s' = 4 /\ atomic_mcpumax (atomic s') = 4.
Proof.
  destruct (gomaxprocsfunc_query 0 1 0 busy) as (Hcap & _).
  - reflexivity.
  - reflexivity.
  - now vm_compute.
  - reflexivity.
  - assert (E : exists s', gomaxprocsfunc 0 1 0 busy = Ok 4 s')
      by (eexists; vm_compute; reflexivity).
    destruct E as [s' E]. rewrite E in Hcap.
    destruct Hcap as (_ & Hg & Hm).
    exists s'. split; [exact E |]. now rewrite Hg, Hm.
Defined.

(** * The further properties on the sample states *)

Import Client.

(** The worker that a lookup in a map written out with [insert] finds. *)
Ltac which m Hm :=
  repeat first
    [ rewrite lookup_empty in Hm; discriminate Hm
    | lazymatch type of Hm with
      | <[?k := _]> _ !! m = Some _ =>
          destruct (decide (m = k)) as [-> | ?];
          [ rewrite lookup_insert_eq in Hm; injection Hm as <-
          | rewrite lookup_insert_ne in Hm by congruence ]
      end ].

Lemma run_queue_fifo_witness :
  bind (gputs [2%nat; 3%nat] drained) (fun _ => ggets 0 2) =
    Ok [2%nat; 3%nat] drained.
Proof.
  refine (proj2 (run_queue_fifo 0 [2%nat; 3%nat] drained _ _ _ _ _ _) _).
  - reflexivity.
  - now vm_compute.
  - now vm_compute.
  - repeat constructor; eexists; repeat split; reflexivity.
  - decided.
  - repeat constructor; decided.
  - reflexivity.
Defined.

Lemma idle_workers_stack_witness :
  bind (mput 0 busy) (fun _ => mget 2) = Ok (Some 0%nat) busy /\
  exists s1,
    mput 0 busy = Ok tt s1 /\ mhead s1 = [0%nat; 1%nat; 2%nat] /\
    mwait s1 = 3.
Proof.
  refine (proj2 (proj2
    (idle_workers_stack 0 2 (task Grunnable None) busy _)) _ _ _ _).
  - reflexivity.
  - reflexivity.
  - now vm_compute.
  - eexists. reflexivity.
  - decided.
Defined.

Lemma free_list_round_trip_witness :
  gfput 2 drained = Ok tt (set_gfree [2%nat] drained) /\
  bind (gfput 2 drained) (fun _ => gfget) = Ok (Some 2%nat) drained.
Proof.
  refine (proj1 (free_list_round_trip 2 (task Gwaiting None) drained _) _ _).
  - reflexivity.
  - reflexivity.
  - split; decided.
Defined.

Lemma idle_goroutine_slot_witness :
  exists s1 s2,
    idlegoroutine 0 1 busy = Ok tt s1 /\ gput 1 s1 = Ok tt s2 /\
    ghead s2 = ghead busy /\
    gput 1 s2 = Throw "runtime: double idle" s2.
Proof.
  pose proof (idle_goroutine_slot 0 1 (task Grunning (Some 0%nat))
                (worker 10 (Some 1%nat) false) busy
                eq_refl eq_refl eq_refl eq_refl eq_refl) as X.
  cbv zeta in X. destruct X as (A & _ & B & C & _).
  eexists _, _. split; [exact A |]. split; [exact B |].
  split; [reflexivity | exact C].
Defined.

Lemma matchmg_saturates_witness :
  ensures (fun _ s' => saturated 0 s') (fun _ => True) (matchmg 0 busy).
Proof.
  refine (proj1
    (matchmg_saturates 0 (worker 10 (Some 1%nat) false) busy _) _ _);
    reflexivity.
Defined.

Lemma ready_before_stop_witness :
  exists s1,
    ready 1 1 blocking = Ok tt s1 /\ ghead s1 = ghead blocking /\
    readyonstop <$> gs s1 !! 1%nat = Some true.
Proof.
  destruct (ready_before_stop 0 1 1 (task Gwaiting (Some 0%nat)) blocking)
    as (s1 & s2 & A & B & C & _); try reflexivity.
  - now vm_compute.
  - exists s1. split; [exact A |]. split; [exact C |]. now rewrite B.
Defined.

Lemma unwindstack_releases_witness :
  exists s',
    unwindstack (Some 10%nat) 1 0 leaving = Ok tt s' /\
    trace s' = [stackfree 1048576 4096] /\
    stackbase <$> gs s' !! 1%nat = Some 8120.
Proof.
  destruct (unwindstack_releases (Some 10%nat) 1
              (tall_task Gmoribund (Some 0%nat)) [second_segment] 0 leaving)
    as (_ & A & _).
  - reflexivity.
  - reflexivity.
  - repeat constructor. discriminate.
  - discriminate.
  - reflexivity.
  - eexists. split; [apply A; discriminate |]. split; reflexivity.
Defined.

Lemma goexit_retires_witness :
  exists s',
    goexit 0 1 climbing = schedule_dispatch 0 s' /\
    status <$> gs s' !! 1%nat = Some Gdead /\
    gfree s' = [1%nat] /\ ghead s' = [2%nat; 3%nat] /\ gcount s' = 2 /\
    trace s' = [lock_sched; stackfree 1048576 4096].
Proof.
  destruct (goexit_retires 0 1 (tall_task Grunning (Some 0%nat))
              (worker 10 (Some 1%nat) false) [second_segment] climbing)
    as (s' & A & B & _ & C & D & _ & E & _ & _ & F).
  1-3, 5, 7, 9, 12, 13: reflexivity.
  1, 5: discriminate.
  1: now vm_compute.
  1: split; decided.
  1: repeat constructor; discriminate.
  exists s'. split; [exact A |].
  split; [rewrite B; reflexivity |]. split; [exact C |].
  split; [exact D |]. split; [exact E | exact F].
Defined.

Lemma handoff_respects_wiring_witness :
  wiring_ok wired /\
  nextg <$> ms wired !! 1%nat = Some (Some 2%nat) /\
  lockedm <$> gs wired !! 2%nat = Some (Some 1%nat) /\
  ensures (fun _ s' => wiring_ok s') (fun _ => True) (matchmg 0 wired) /\
  ensures
    (fun r s' =>
       wiring_ok s' /\ forall gp, r = Some gp -> runs_here 0 gp s')
    (fun _ => True) (find_work 0 wired).
Proof.
  assert (Hok : wiring_ok wired).
  { intros m mr g gr lm Hm Hn Hg Hl.
    change (wired_workers !! m = Some mr) in Hm.
    change (wired_tasks !! g = Some gr) in Hg.
    unfold wired_workers in Hm. which m Hm; try discriminate Hn.
    injection Hn as <-. injection Hg as <-. injection Hl as <-.
    reflexivity. }
  destruct (handoff_respects_wiring 0 1 wired Hok) as (_ & A & _ & B).
  split; [exact Hok |]. split; [reflexivity |]. split; [reflexivity |].
  split; [exact A | exact B].
Defined.

Lemma wire_and_unwire_witness :
  exists s1,
    LockOSThread 0 1 busy = Ok tt s1 /\
    lockedOSThread 0 1 s1 = Ok true s1 /\
    UnlockOSThread 0 1 s1 = Ok tt busy.
Proof.
  pose proof (wire_and_unwire 0 1 (task Grunning (Some 0%nat))
                (worker 10 (Some 1%nat) false) busy
                eq_refl eq_refl eq_refl eq_refl) as X.
  cbv zeta in X. destruct X as (_ & A & _ & B & C & _).
  eexists. split; [exact (A eq_refl) |]. split; [exact B | exact C].
Defined.

Lemma park_and_wake_witness :
  exists s1 k,
    nextgandunlock 0 two_busy = Park s1 k /\
    mhead s1 = [0%nat; 2%nat] /\
    trace s1 =
      [noteclear (havenextg 0); unlock_sched; notesleep (havenextg 0)].
Proof.
  destruct (park_and_wake 0 1 (worker 10 (Some 1%nat) false) two_busy)
    as (_ & A); try reflexivity.
  destruct A as (s1 & k & A & B & _ & _ & C & _); [discriminate |].
  exists s1, k. split; [exact A |]. split; [exact B | exact C].
Defined.

Lemma stoptheworld_waits_witness :
  exists s1 k,
    stoptheworld 2 two_busy = Park s1 k /\
    atomic_waitstop (atomic s1) = 1 /\ atomic_mcpumax (atomic s1) = 1.
Proof.
  destruct (stoptheworld_waits 2 two_busy) as (_ & _ & A).
  - reflexivity.
  - lia.
  - destruct A as (s1 & k & A & _ & B & C & _);
      [reflexivity | reflexivity |].
    exists s1, k. split; [exact A |]. split; [exact C | exact B].
Defined.

Lemma world_restarts_witness :
  exists s1,
    stoptheworld 1 busy = Ok tt s1 /\ gcwaiting s1 = 1 /\
    atomic_mcpumax (atomic s1) = 1.
Proof.
  destruct (world_restarts 0 busy) as (s1 & A & B & C & _).
  - reflexivity.
  - now vm_compute.
  - exists s1. split; [exact A |]. split; [exact B | exact C].
Defined.

Lemma syscall_round_trip_witness :
  bind (entersyscall 0 1 6000 two_busy) (fun _ => exitsyscall 0 1) =
    Ok tt
      (set_gs
         (<[1%nat :=
             set_gcstack 0
               (set_status Grunning
                  (in_syscall 6000 (task Grunning (Some 0%nat))))]>
            (gs two_busy)) two_busy).
Proof.
  pose proof (syscall_round_trip 0 1 (task Grunning (Some 0%nat))
                (worker 10 (Some 1%nat) false) 6000 two_busy) as X.
  cbv zeta in X. refine (proj2 (proj2 (X _ _ _ _ _ _ _ _ _)));
    try reflexivity; now vm_compute.
Defined.

Lemma oldstack_undoes_newstack_witness :
  exists r sh,
    Stack.newstack 0
      (Stack.mkMore 64 16 (mkGobuf 9000 0 (Some 1%nat)) 9008 0 1%nat)
      (Stack.mkGstack 12000 8448 false) = Stack.Resumed r /\
    Stack.oldstack (Stack.header r) (Stack.g1 r) 7 = Some sh /\
    Stack.stackbase (Stack.back sh) = 12000 /\
    Stack.stackguard (Stack.back sh) = 8448 /\
    Stack.returned sh = 7.
Proof.
  assert (E : { r | Stack.newstack 0
      (Stack.mkMore 64 16 (mkGobuf 9000 0 (Some 1%nat)) 9008 0 1%nat)
      (Stack.mkGstack 12000 8448 false) = Stack.Resumed r })
    by (eexists; vm_compute; reflexivity).
  destruct E as [r E]. exists r.
  destruct (oldstack_undoes_newstack 0 _ _ r 7 1%nat E eq_refl)
    as (sh & A & B & C & _ & D & _).
  - now vm_compute.
  - exists sh. split; [exact E |]. split; [exact A |].
    split; [exact B |]. split; [exact C | exact D].
Defined.


Lemma gosched_yields_witness :
  exists s' k,
    gosched 0 1 busy = Gogo 2 s' k /\ ghead s' = [3%nat; 1%nat] /\
    atomic s' = atomic busy /\
    trace s' = [lock_sched; unlock_sched].
Proof.
  destruct (gosched_yields 0 1 2 [3%nat; 1%nat] (task Grunning (Some 0%nat))
              (task Grunnable None) (worker 10 (Some 1%nat) false) busy)
    as (s' & k & A & _ & B & _ & C & _ & D & _).
  1-4, 6-13, 17, 20-22: reflexivity.
  1: discriminate.
  1-5: now vm_compute.
  exists s', k. split; [exact A |]. split; [exact B |].
  split; [exact C | exact D].
Defined.

Lemma stop_the_world_handshake_witness :
  exists s1 k s2 s3,
    stoptheworld 2 two_busy = Park s1 k /\
    entersyscall 1 2 6000 s1 = Ok tt s2 /\
    trace s2 =
      trace s1 ++ [lock_sched; notewakeup stopped; unlock_sched] /\
    k s2 = Ok tt s3 /\ gcwaiting s3 = 1 /\
    atomic_mcpu (atomic s3) = 1.
Proof.
  destruct (stop_the_world_handshake 2 1 2 (task Grunning (Some 1%nat)) 6000
              two_busy)
    as (s1 & k & s2 & A & B & C & _ & _ & D).
  1, 3, 4, 6, 7: reflexivity.
  1: lia.
  1, 2: now vm_compute.
  destruct D as (D & _ & s3 & E & F & G & _); [reflexivity |].
  exists s1, k, s2, s3. split; [exact A |]. split; [exact B |].
  split; [exact D |]. split; [exact E |]. split; [exact F |].
  rewrite G, C. reflexivity.
Defined.

Lemma init_defers_matching_witness :
  exists s1,
    ready 0 2 starting = Ok tt s1 /\ ghead s1 = [2%nat] /\
    trace s1 = [lock_sched; unlock_sched] /\
    ensures (fun _ s2 => predawn s2 = 0 /\ saturated 0 s2) (fun _ => True)
      (initdone 0 s1).
Proof.
  destruct (init_defers_matching 0 2 (task Gwaiting None)
              (worker 10 (Some 1%nat) false) 6000 starting)
    as (_ & _ & s1 & A & B & _ & _ & C & _ & D).
  1, 2, 4, 5, 8-11: reflexivity.
  1-3: discriminate.
  exists s1. split; [exact A |]. split; [exact B |].
  split; [exact C | exact D].
Defined.

Lemma newm_fresh_id_witness :
  exists m s' mr,
    newm numbered = Ok m s' /\ ms s' !! m = Some mr /\ m_id mr = 3 /\
    trace s' = trace numbered ++ [newosproc m] /\ ids_ok s'.
Proof.
  destruct (newm_fresh_id numbered) as (_ & A).
  - split.
    + intros m mr Hm. unfold numbered in Hm. cbn [ms set_ms] in Hm.
      which m Hm; now vm_compute.
    + intros m1 m2 r1 r2 Hm1 Hm2 Hid. unfold numbered in Hm1, Hm2.
      cbn [ms set_ms] in Hm1, Hm2.
      which m1 Hm1; which m2 Hm2; first [reflexivity | discriminate Hid].
  - now vm_compute.
  - destruct (A eq_refl)
      as (m & g & s' & mr & B & _ & _ & C & D & _ & _ & _ & _ & _ & T & E).
    exists m, s', mr. split; [exact B |].
    split; [rewrite C; apply lookup_insert_eq |]. split; [exact D |].
    split; [exact T | exact E].
Defined.

Lemma gomaxprocs_change_witness :
  exists s1,
    gomaxprocsfunc 0 1 2 after_gc = Ok 4 s1 /\ gomaxprocs s1 = 2 /\
    atomic s1 = atomic after_gc /\
    ensures
      (fun _ s2 =>
         gcwaiting s2 = 0 /\ gomaxprocs s2 = 2 /\
         atomic_mcpumax (atomic s2) = 2)
      (fun _ => True) (starttheworld 0 s1).
Proof.
  pose proof (gomaxprocs_change 0 1 2 after_gc) as X.
  cbv zeta in X. destruct X as (_ & _ & A); [lia |].
  destruct A as (s1 & A & B & C & _ & _ & D).
  - discriminate.
  - reflexivity.
  - reflexivity.
  - exists s1. split; [exact A |]. split; [exact B |].
    split; [exact C | exact D].
Defined.
